(** * smtpd: the connection wrapper of conn.go

    A shallow embedding of [Conn] (conn.go) and of the parts of the Go
    standard library it drives: [io.LimitReader], [bufio.Reader],
    [textproto.Reader] and three functions of [strings].

    Go strings are byte sequences: [list ascii].  Go integers are [Z].
    Every method of [*Conn] becomes a function that takes the connection
    and returns the Go results together with the connection afterwards. *)

From Stdlib Require Import ZArith Ascii String Bool Arith Lia.
From Stdlib Require Import List.
Import ListNotations.

Set Implicit Arguments.

(** ** Bytes, strings, errors *)

Definition gostring := list ascii.

Definition str (s : string) : gostring := list_ascii_of_string s.

Definition CR : ascii := "013"%char.
Definition LF : ascii := "010"%char.
Definition SP : ascii := " "%char.
Definition DOT : ascii := "."%char.
Definition CRLF : gostring := [CR; LF].

(** Modelled from the spec: the error value [ErrTransaction], which conn.go
    returns and a file of the package other than conn.go declares; it is
    the failure the specification names TransactionAlreadyOpen in StartTX
    and NoTransactionOpen in EndTX.  The other values are the Go library's:
    [EOF] and [ErrUnexpectedEOF] of package io reach the caller,
    [ErrBufferFull] of bufio stays inside the decoder. *)
Inductive error : Type :=
| ErrTransaction
| EOF
| ErrUnexpectedEOF
| ErrBufferFull.

(** mail.Address *)
Record mailAddress : Type := { Name : gostring; Address : gostring }.

(** int(time.Now().UnixNano()): the clock reading is an int64 and Go's int
    has 64 bits on the platforms the server runs on, so the conversion is
    the two's complement wrap of the reading. *)
Definition int_of (x : Z) : Z := ((x + 2 ^ 63) mod 2 ^ 64 - 2 ^ 63)%Z.

(** ** The byte stream under the connection

    The read side of the embedded net.Conn: the segments the peer still
    delivers, in order, followed by end of input (the peer closes).  A
    segment is never empty (a blocking Read returns at least one byte or an
    error), which the type enforces: first byte and rest.  Deadlines are
    recorded on the connection; no read of this stream times out. *)
Definition Segment : Type := (ascii * list ascii)%type.
Definition Transport : Type := list Segment.

Definition seg_bytes (s : Segment) : list ascii := fst s :: snd s.

Definition pending (t : Transport) : list ascii := flat_map seg_bytes t.

(** Segments from raw byte runs; an empty run delivers nothing. *)
Fixpoint segments (l : list gostring) : Transport :=
  match l with
  | [] => []
  | [] :: l' => segments l'
  | (a :: s) :: l' => (a, s) :: segments l'
  end.

(** The bytes [l], if any, as a segment in front of [t]. *)
Definition reseg (l : list ascii) (t : Transport) : Transport :=
  match l with
  | [] => t
  | b :: r => (b, r) :: t
  end.

(** net.Conn.Read(p) with len(p) = k: at most k bytes of the first segment;
    what is left of the segment stays first. *)
Definition conn_Read (k : nat) (t : Transport)
  : list ascii * option error * Transport :=
  match t with
  | [] => ([], Some EOF, [])
  | s :: t' =>
      (firstn k (seg_bytes s), None, reseg (skipn k (seg_bytes s)) t')
  end.

(** ** bufio.Reader over the connection, optionally through io.LimitReader *)

Definition defaultBufSize : nat := 4096.

(** [buf] is the unread part b.buf[b.r:b.w]; [limN] is the N of the
    io.LimitedReader between the buffer and the connection, [None] when the
    buffer reads the connection directly; [rerr] is b.err. *)
Record bufioReader : Type := {
  buf : list ascii;
  limN : option Z;
  rerr : option error
}.

Definition NewReader (lim : option Z) : bufioReader :=
  {| buf := []; limN := lim; rerr := None |}.

(** The bytes the reader can still draw from the connection: all that is
    pending, or the first N of them under a limit. *)
Definition visible (lim : option Z) (t : Transport) : list ascii :=
  match lim with
  | None => pending t
  | Some n => firstn (Z.to_nat n) (pending t)
  end.

(** The input as the decoder will see it: buffered bytes first. *)
Definition stream (b : bufioReader) (t : Transport) : list ascii :=
  buf b ++ visible (limN b) t.

(** io.LimitedReader.Read *)
Definition LimitedReader_Read (k : nat) (n : Z) (t : Transport)
  : list ascii * option error * Z * Transport :=
  if (n <=? 0)%Z then ([], Some EOF, n, t)
  else
    let k' := if (n <? Z.of_nat k)%Z then Z.to_nat n else k in
    let '(bs, e, t') := conn_Read k' t in
    (bs, e, (n - Z.of_nat (length bs))%Z, t').

(** b.rd.Read(p) *)
Definition rd_Read (k : nat) (lim : option Z) (t : Transport)
  : list ascii * option error * option Z * Transport :=
  match lim with
  | None => let '(bs, e, t') := conn_Read k t in (bs, e, None, t')
  | Some n =>
      let '(bs, e, n', t') := LimitedReader_Read k n t in (bs, e, Some n', t')
  end.

(** bufio.Reader.fill.  Sliding the unread bytes to the front of the
    array does not change [buf].  The retry loop over empty reads runs once:
    a read of k > 0 bytes returns data or an error. *)
Definition fill (b : bufioReader) (t : Transport) : bufioReader * Transport :=
  let '(bs, e, lim', t') := rd_Read (defaultBufSize - length (buf b)) (limN b) t in
  ({| buf := buf b ++ bs;
      limN := lim';
      rerr := match e with Some x => Some x | None => rerr b end |}, t').

(** bytes.IndexByte *)
Fixpoint IndexByte (s : list ascii) (c : ascii) : option nat :=
  match s with
  | [] => None
  | a :: s' =>
      if Ascii.eqb a c then Some O
      else match IndexByte s' c with
           | Some i => Some (S i)
           | None => None
           end
  end.

(** bufio.Reader.ReadSlice: the loop, [fuel] bounding its iterations.
    Go searches only the bytes added since the last iteration; the bytes
    before them were searched and hold no delimiter. *)
Fixpoint ReadSlice_loop (fuel : nat) (delim : ascii) (b : bufioReader) (t : Transport)
  : option (list ascii * option error * bufioReader * Transport) :=
  match IndexByte (buf b) delim with
  | Some i =>
      Some (firstn (i + 1) (buf b), None,
            {| buf := skipn (i + 1) (buf b); limN := limN b; rerr := rerr b |}, t)
  | None =>
      match rerr b with
      | Some e =>
          Some (buf b, Some e, {| buf := []; limN := limN b; rerr := None |}, t)
      | None =>
          if defaultBufSize <=? length (buf b) then
            Some (buf b, Some ErrBufferFull,
                  {| buf := []; limN := limN b; rerr := None |}, t)
          else
            match fuel with
            | O => None
            | S fuel' =>
                let '(b', t') := fill b t in ReadSlice_loop fuel' delim b' t'
            end
      end
  end.

(** A fill adds a byte or records an error, and the loop stops on a full
    buffer, so [defaultBufSize] iterations always reach a return
    ([ReadSlice_loop_total]); the match below never takes its second branch. *)
Definition ReadSlice (delim : ascii) (b : bufioReader) (t : Transport)
  : list ascii * option error * bufioReader * Transport :=
  match ReadSlice_loop defaultBufSize delim b t with
  | Some r => r
  | None => (buf b, Some ErrBufferFull, b, t)
  end.

(** len(line) > 0 && line[len(line)-1] == c *)
Definition endsWith (line : list ascii) (c : ascii) : bool :=
  match rev line with
  | x :: _ => Ascii.eqb x c
  | [] => false
  end.

(** The end of ReadLine, on a line that is not empty: a final "\n" or
    "\r\n" is cut off. *)
Definition dropEOL (line : list ascii) : list ascii :=
  if endsWith line LF then
    let drop :=
      if (1 <? length line) && Ascii.eqb (nth (length line - 2) line LF) CR
      then 2 else 1 in
    firstn (length line - drop) line
  else line.

(** bufio.Reader.ReadLine: line, isPrefix, err.  After ErrBufferFull the
    read index equals the write index, so b.r-- leaves exactly the dropped
    carriage return unread. *)
Definition bufio_ReadLine (b : bufioReader) (t : Transport)
  : list ascii * bool * option error * bufioReader * Transport :=
  let '(line, e, b', t') := ReadSlice LF b t in
  match e with
  | Some ErrBufferFull =>
      if endsWith line CR
      then (removelast line, true, None,
            {| buf := CR :: buf b'; limN := limN b'; rerr := rerr b' |}, t')
      else (line, true, None, b', t')
  | _ =>
      match line with
      | [] => ([], false, e, b', t')
      | _ :: _ => (dropEOL line, false, None, b', t')
      end
  end.

(** ** textproto.Reader *)

(** textproto.Reader.readLineSlice: concatenates the pieces of a line longer
    than the buffer.  (Go returns the first piece uncopied when it is the
    whole line; the bytes are the same.) *)
Fixpoint readLineSlice_loop (fuel : nat) (line : list ascii)
    (b : bufioReader) (t : Transport)
  : option (list ascii * option error * bufioReader * Transport) :=
  match fuel with
  | O => None
  | S fuel' =>
      let '(l, more, e, b', t') := bufio_ReadLine b t in
      match e with
      | Some x => Some ([], Some x, b', t')
      | None =>
          if more then readLineSlice_loop fuel' (line ++ l) b' t'
          else Some (line ++ l, None, b', t')
      end
  end.

(** Every piece but the last takes at least [defaultBufSize - 1] bytes out
    of the input, so one more iteration than there are bytes is enough
    ([readLineSlice_loop_total]). *)
Definition io_fuel (b : bufioReader) (t : Transport) : nat :=
  S (length (stream b t)).

(** textproto.Reader.ReadLine *)
Definition textproto_ReadLine (b : bufioReader) (t : Transport)
  : gostring * option error * bufioReader * Transport :=
  match readLineSlice_loop (io_fuel b t) [] b t with
  | Some r => r
  | None => ([], Some ErrBufferFull, b, t)
  end.

(** textproto.Reader.ReadDotLines *)
Fixpoint ReadDotLines_loop (fuel : nat) (v : list gostring)
    (b : bufioReader) (t : Transport)
  : option (list gostring * option error * bufioReader * Transport) :=
  match fuel with
  | O => None
  | S fuel' =>
      let '(line, e, b', t') := textproto_ReadLine b t in
      match e with
      | Some x =>
          Some (v, Some match x with EOF => ErrUnexpectedEOF | _ => x end, b', t')
      | None =>
          match line with
          | c :: rest =>
              if Ascii.eqb c DOT then
                match rest with
                | [] => Some (v, None, b', t')
                | _ => ReadDotLines_loop fuel' (v ++ [rest]) b' t'
                end
              else ReadDotLines_loop fuel' (v ++ [line]) b' t'
          | [] => ReadDotLines_loop fuel' (v ++ [line]) b' t'
          end
      end
  end.

(** A line read without error takes at least one byte out of the input
    ([ReadDotLines_loop_total]). *)
Definition ReadDotLines (b : bufioReader) (t : Transport)
  : list gostring * option error * bufioReader * Transport :=
  match ReadDotLines_loop (io_fuel b t) [] b t with
  | Some r => r
  | None => ([], Some ErrBufferFull, b, t)
  end.

(** ** Package strings *)

(** strings.genSplit with a one-byte separator and sepSave = 0, for n > 0:
    [n] counts the cuts still allowed (Go's n - 1 - i). *)
Fixpoint genSplit (s : gostring) (sep : ascii) (n : nat) : list gostring :=
  match n with
  | O => [s]
  | S n' =>
      match IndexByte s sep with
      | None => [s]
      | Some m => firstn m s :: genSplit (skipn (S m) s) sep n'
      end
  end.

(** strings.SplitN(s, sep, n) for a one-byte sep and n >= 0. *)
Definition SplitN (s : gostring) (sep : ascii) (n : nat) : list gostring :=
  match n with
  | O => []
  | S _ =>
      let n := if length s + 1 <? n then length s + 1 else n in
      genSplit s sep (n - 1)
  end.

(** strings.Join *)
Fixpoint Join (elems : list gostring) (sep : gostring) : gostring :=
  match elems with
  | [] => []
  | [a] => a
  | a :: rest => a ++ sep ++ Join rest sep
  end.

Definition is_lower (c : ascii) : bool :=
  (97 <=? nat_of_ascii c) && (nat_of_ascii c <=? 122).

Definition upper_byte (c : ascii) : ascii :=
  if is_lower c then ascii_of_nat (nat_of_ascii c - 32) else c.

Definition isASCII (s : gostring) : bool :=
  forallb (fun c => nat_of_ascii c <? 128) s.

(** ** Words of the specification *)

(** The text before the first space. *)
Fixpoint beforeSpace (l : gostring) : gostring :=
  match l with
  | [] => []
  | a :: r => if Ascii.eqb a SP then [] else a :: beforeSpace r
  end.

(** The remainder after the first space; empty when there is none. *)
Fixpoint afterSpace (l : gostring) : gostring :=
  match l with
  | [] => []
  | a :: r => if Ascii.eqb a SP then r else afterSpace r
  end.

(** One leading dot removed from a line that starts with a dot. *)
Definition undot (l : gostring) : gostring :=
  match l with
  | a :: r => if Ascii.eqb a DOT then r else l
  | [] => l
  end.

(** The lines of a data block on the wire, each ended by CRLF, then the
    line that holds a single dot. *)
Definition dataBlock (ls : list gostring) : list ascii :=
  flat_map (fun l => l ++ CRLF) ls ++ DOT :: CRLF.

(** A line of a data block: no line feed inside, and not the single dot
    that ends the block. *)
Definition blockLine (l : gostring) : Prop := ~ In LF l /\ l <> [DOT].

(** The stream of a peer that closes after n bytes. *)
Fixpoint trunc (n : nat) (t : Transport) : Transport :=
  match n, t with
  | O, _ => []
  | _, [] => []
  | S m, (a, s) :: t' => (a, firstn m s) :: trunc (m - length s) t'
  end.

(** ** Predicates on the decoder *)

(** The decoder between calls: no error pending, buffer within its size. *)
Definition readerOK (b : bufioReader) : Prop :=
  rerr b = None /\ length (buf b) <= defaultBufSize.

(** What ReadSlice returns on a reader with no error pending: the bytes
    returned are the front of the input; without an error they end in the
    first delimiter; with ErrBufferFull they are a buffer full of bytes
    without a delimiter; with EOF they are all that was left. *)
Definition sliceOK (b : bufioReader) (t : Transport)
    (r : list ascii * option error * bufioReader * Transport) : Prop :=
  let '(line, e, b', t') := r in
  stream b t = line ++ stream b' t' /\
  rerr b' = None /\
  length (buf b') <= defaultBufSize /\
  length line <= defaultBufSize /\
  match e with
  | None => exists pre, line = pre ++ [LF] /\ ~ In LF pre
  | Some ErrBufferFull =>
      length line = defaultBufSize /\ ~ In LF line /\ buf b' = []
  | Some EOF => ~ In LF line /\ stream b' t' = [] /\ buf b' = []
  | Some _ => False
  end.

(** The decoder [b] behind a limit, on the stream [t], and the decoder
    [b'] without one, on [t] cut at the limit: same buffer, same error. *)
Definition capSim (b : bufioReader) (t : Transport)
    (b' : bufioReader) (t' : Transport) : Prop :=
  exists n,
    limN b = Some n /\ limN b' = None /\
    buf b' = buf b /\ rerr b' = rerr b /\
    t' = trunc (Z.to_nat n) t.

(** Two calls returned the same values and left decoders that match. *)
Definition simOut {X : Type} (r r' : X * bufioReader * Transport) : Prop :=
  fst (fst r) = fst (fst r') /\
  capSim (snd (fst r)) (snd r) (snd (fst r')) (snd r').

(** ** conn.go *)

Section Conn.

(** [AuthUser] is an interface declared elsewhere in the package: any type. *)
Context {AuthUser : Type}.

(** unicode.ToUpper mapped over a string that holds a byte above 0x7f
    (strings.Map); the Unicode tables are not part of this development. *)
Variable unicodeToUpper : gostring -> gostring.

(** strings.ToUpper: bytewise on an ASCII string, by runes otherwise. *)
Definition ToUpper (s : gostring) : gostring :=
  if isASCII s then map upper_byte s else unicodeToUpper s.

(** The embedded net.Conn: its incoming bytes and its read deadline. *)
Record netConn : Type := {
  incoming : Transport;
  readDeadline : Z
}.

(** type Conn struct.  The pointers FromAddr and User are options, nil
    being [None]; slices are lists.  [textProto] stands for the pair
    asTextProto (sync.Once) and textProto: the Once has run exactly when
    the pointer is set, and what it points to is the reader of the
    textproto.Conn.  The mutex [lock] is never taken in this file.
    [tpBuilt] is a ghost field, read by no operation: how many times the
    body passed to asTextProto.Do has run. *)
Record Conn : Type := {
  conn : netConn;
  IsTLS : bool;
  Errors : list error;
  User : option AuthUser;
  FromAddr : option mailAddress;
  ToAddr : list mailAddress;
  MaxSize : Z;
  ReadTimeout : Z;
  WriteTimeout : Z;
  transaction : Z;
  textProto : option bufioReader;
  tpBuilt : nat
}.

(** The connection as the server builds it: stream and configuration set,
    every other field at its zero value. *)
Definition newConn (t : Transport) (maxSize readTimeout writeTimeout : Z) : Conn :=
  {| conn := {| incoming := t; readDeadline := 0 |};
     IsTLS := false; Errors := []; User := None; FromAddr := None; ToAddr := [];
     MaxSize := maxSize; ReadTimeout := readTimeout; WriteTimeout := writeTimeout;
     transaction := 0; textProto := None; tpBuilt := 0 |}.

(** func (c *Conn) tp() *textproto.Conn *)
Definition tp (c : Conn) : bufioReader * Conn :=
  match textProto c with
  | Some r => (r, c)
  | None =>
      let r := NewReader None in
      let r := if (0 <? MaxSize c)%Z then NewReader (Some (MaxSize c)) else r in
      (r, {| conn := conn c; IsTLS := IsTLS c; Errors := Errors c; User := User c;
             FromAddr := FromAddr c; ToAddr := ToAddr c; MaxSize := MaxSize c;
             ReadTimeout := ReadTimeout c; WriteTimeout := WriteTimeout c;
             transaction := transaction c;
             textProto := Some r; tpBuilt := S (tpBuilt c) |})
  end.

(** func (c *Conn) StartTX(from *mail.Address) error, at clock reading [now] *)
Definition StartTX (now : Z) (from : option mailAddress) (c : Conn)
  : option error * Conn :=
  if negb (transaction c =? 0)%Z then (Some ErrTransaction, c)
  else
    (None, {| conn := conn c; IsTLS := IsTLS c; Errors := Errors c; User := User c;
              FromAddr := from; ToAddr := ToAddr c; MaxSize := MaxSize c;
              ReadTimeout := ReadTimeout c; WriteTimeout := WriteTimeout c;
              transaction := int_of now;
              textProto := textProto c; tpBuilt := tpBuilt c |}).

(** func (c *Conn) EndTX() error *)
Definition EndTX (c : Conn) : option error * Conn :=
  if (transaction c =? 0)%Z then (Some ErrTransaction, c)
  else
    (None, {| conn := conn c; IsTLS := IsTLS c; Errors := Errors c; User := User c;
              FromAddr := FromAddr c; ToAddr := ToAddr c; MaxSize := MaxSize c;
              ReadTimeout := ReadTimeout c; WriteTimeout := WriteTimeout c;
              transaction := 0;
              textProto := textProto c; tpBuilt := tpBuilt c |}).

(** func (c *Conn) Reset() *)
Definition Reset (c : Conn) : Conn :=
  {| conn := conn c; IsTLS := IsTLS c; Errors := Errors c; User := None;
     FromAddr := None; ToAddr := []; MaxSize := MaxSize c;
     ReadTimeout := ReadTimeout c; WriteTimeout := WriteTimeout c;
     transaction := 0;
     textProto := textProto c; tpBuilt := tpBuilt c |}.

(** c.SetReadDeadline(time.Now().Add(c.ReadTimeout)) *)
Definition SetReadDeadline (now : Z) (c : Conn) : Conn :=
  {| conn := {| incoming := incoming (conn c);
                readDeadline := (now + ReadTimeout c)%Z |};
     IsTLS := IsTLS c; Errors := Errors c; User := User c;
     FromAddr := FromAddr c; ToAddr := ToAddr c; MaxSize := MaxSize c;
     ReadTimeout := ReadTimeout c; WriteTimeout := WriteTimeout c;
     transaction := transaction c;
     textProto := textProto c; tpBuilt := tpBuilt c |}.

(** The connection after a call on its decoder: the decoder and the
    stream as the call left them. *)
Definition after_read (c : Conn) (r : bufioReader) (t : Transport) : Conn :=
  {| conn := {| incoming := t; readDeadline := readDeadline (conn c) |};
     IsTLS := IsTLS c; Errors := Errors c; User := User c;
     FromAddr := FromAddr c; ToAddr := ToAddr c; MaxSize := MaxSize c;
     ReadTimeout := ReadTimeout c; WriteTimeout := WriteTimeout c;
     transaction := transaction c;
     textProto := Some r; tpBuilt := tpBuilt c |}.

(** func (c *Conn) ReadSMTP() (string, string, error).  SplitN with n = 2
    returns one or two strings, so command[0] exists. *)
Definition ReadSMTP (now : Z) (c : Conn)
  : gostring * gostring * option error * Conn :=
  let c := SetReadDeadline now c in
  let '(r, c) := tp c in
  let '(line, err, r', t') := textproto_ReadLine r (incoming (conn c)) in
  let c := after_read c r' t' in
  match err with
  | None =>
      let command := SplitN line SP 2 in
      let verb := ToUpper (nth 0 command []) in
      let args := if 1 <? length command then nth 1 command [] else [] in
      (verb, args, None, c)
  | Some e => ([], [], Some e, c)
  end.

(** func (c *Conn) ReadLine() (string, error) *)
Definition ReadLine (now : Z) (c : Conn) : gostring * option error * Conn :=
  let c := SetReadDeadline now c in
  let '(r, c) := tp c in
  let '(line, err, r', t') := textproto_ReadLine r (incoming (conn c)) in
  (line, err, after_read c r' t').

(** func (c *Conn) ReadData() (string, error) *)
Definition ReadData (now : Z) (c : Conn) : gostring * option error * Conn :=
  let c := SetReadDeadline now c in
  let '(r, c) := tp c in
  let '(lines, err, r', t') := ReadDotLines r (incoming (conn c)) in
  (Join lines [LF], err, after_read c r' t').

(** ** Sequences of calls *)

(** The calls that drive the transaction state, with their arguments. *)
Inductive txCall : Type :=
| CallStartTX (now : Z) (from : option mailAddress)
| CallEndTX
| CallReset.

Definition doTX (k : txCall) (c : Conn) : option error * Conn :=
  match k with
  | CallStartTX now from => StartTX now from c
  | CallEndTX => EndTX c
  | CallReset => (None, Reset c)
  end.

(** The connection after the calls [ks], made in order. *)
Definition runTX (ks : list txCall) (c : Conn) : Conn :=
  fold_left (fun c k => snd (doTX k c)) ks c.

Definition isStartTX (k : txCall) : Prop :=
  match k with CallStartTX _ _ => True | _ => False end.

(** The clock reading of a StartTX call converts to a non-zero int. *)
Definition tokenNonZero (k : txCall) : Prop :=
  match k with CallStartTX now _ => int_of now <> 0%Z | _ => True end.

(** A StartTX call is given an address, not nil. *)
Definition fromGiven (k : txCall) : Prop :=
  match k with CallStartTX _ from => from <> None | _ => True end.

(** Whether a transaction is open after the calls [ks] on a new connection,
    in the words of the specification: StartTX opens one (or finds one
    open), EndTX and Reset leave none open. *)
Definition txOpen (ks : list txCall) : bool :=
  fold_left (fun _ k => match k with CallStartTX _ _ => true | _ => false end)
            ks false.

(** The three reads, with the clock reading each one takes. *)
Inductive readCall : Type :=
| CallReadSMTP (now : Z)
| CallReadLine (now : Z)
| CallReadData (now : Z).

(** What a read hands back: the strings and the error. *)
Definition doRead (k : readCall) (c : Conn) : list gostring * option error * Conn :=
  match k with
  | CallReadSMTP now =>
      let '(verb, args, e, c') := ReadSMTP now c in ([verb; args], e, c')
  | CallReadLine now =>
      let '(line, e, c') := ReadLine now c in ([line], e, c')
  | CallReadData now =>
      let '(data, e, c') := ReadData now c in ([data], e, c')
  end.

(** The results of the reads [ks], made in order, and the connection
    after them. *)
Fixpoint runReads (ks : list readCall) (c : Conn)
  : list (list gostring * option error) * Conn :=
  match ks with
  | [] => ([], c)
  | k :: ks' =>
      let '(out, e, c') := doRead k c in
      let '(outs, c'') := runReads ks' c' in
      ((out, e) :: outs, c'')
  end.

(** Any call of the interface. *)
Inductive call : Type :=
| TX (k : txCall)
| RD (k : readCall).

Definition doCall (k : call) (c : Conn) : Conn :=
  match k with
  | TX k => snd (doTX k c)
  | RD k => snd (doRead k c)
  end.

Definition run (ks : list call) (c : Conn) : Conn :=
  fold_left (fun c k => doCall k c) ks c.

(** The input the next read of the connection will see. *)
Definition connStream (c : Conn) : list ascii :=
  match textProto c with
  | Some r => stream r (incoming (conn c))
  | None =>
      visible (if (0 <? MaxSize c)%Z then Some (MaxSize c) else None)
              (incoming (conn c))
  end.

(** The decoder, once built, is between calls: no error pending and no
    more bytes buffered than the buffer holds. *)
Definition decoderOK (c : Conn) : Prop :=
  match textProto c with
  | Some r => readerOK r
  | None => True
  end.

(** The same connection without a size limit. *)
Definition uncapped (c : Conn) : Conn :=
  {| conn := conn c; IsTLS := IsTLS c; Errors := Errors c; User := User c;
     FromAddr := FromAddr c; ToAddr := ToAddr c; MaxSize := 0;
     ReadTimeout := ReadTimeout c; WriteTimeout := WriteTimeout c;
     transaction := transaction c;
     textProto := textProto c; tpBuilt := tpBuilt c |}.

(** The same connection on another stream. *)
Definition onStream (t : Transport) (c : Conn) : Conn :=
  {| conn := {| incoming := t; readDeadline := readDeadline (conn c) |};
     IsTLS := IsTLS c; Errors := Errors c; User := User c;
     FromAddr := FromAddr c; ToAddr := ToAddr c; MaxSize := MaxSize c;
     ReadTimeout := ReadTimeout c; WriteTimeout := WriteTimeout c;
     transaction := transaction c;
     textProto := textProto c; tpBuilt := tpBuilt c |}.

(** [c] has a limit, [c'] has none and its stream is that of [c] cut at
    the limit; their decoders, built or not, match. *)
Definition connSim (c c' : Conn) : Prop :=
  match textProto c, textProto c' with
  | None, None =>
      (0 < MaxSize c)%Z /\ (MaxSize c' <= 0)%Z /\
      incoming (conn c') = trunc (Z.to_nat (MaxSize c)) (incoming (conn c))
  | Some b, Some b' => capSim b (incoming (conn c)) b' (incoming (conn c'))
  | _, _ => False
  end.

(** The Once body has run once if the decoder is there, never otherwise. *)
Definition builtOnce (c : Conn) : Prop :=
  tpBuilt c = match textProto c with Some _ => 1 | None => 0 end.

End Conn.

Unset Implicit Arguments.

(** ** Inputs used in the examples *)

Definition anAddress : mailAddress :=
  {| Name := str "Ann"; Address := str "a@b.com" |}.

Definition idleConn : @Conn unit := newConn [] 0 0 0.

Definition startEnd : list txCall := [CallStartTX 7 (Some anAddress); CallEndTX].

Definition openConn : @Conn unit := snd (StartTX 7 (Some anAddress) idleConn).

(** A line of 18 bytes on a connection limited to 10. *)
Definition cappedConn : @Conn unit :=
  newConn (segments [str "HELO example.com" ++ CRLF]) 10 0 0.

(** Two commands and a data block, delivered in three segments. *)
Definition mailConn : @Conn unit :=
  newConn (segments [str "MAIL FROM:<a@b.com>" ++ CRLF ++ str "QU";
                     str "IT" ++ CRLF ++ str "Hello" ++ CRLF ++ str "..Do";
                     str "ts" ++ CRLF ++ str "." ++ CRLF])
          0 0 0.

(** Bytes above 0x7f are left as they are: enough for ASCII commands. *)
Definition asciiOnly (s : gostring) : gostring := s.

(** ** conn.go, the writes

    The [Conn] record above carries the read side of the embedded net.Conn.
    Its write side is the state below, threaded next to the connection: the
    writes of conn.go read c.WriteTimeout and change nothing but it. *)

(** net.ErrClosed, what a write on a closed connection returns. *)
Inductive netError : Type :=
| ErrClosed.

(** The bytes sent so far, the write deadline, and whether the connection
    has been closed. *)
Record netOut : Type := {
  sent : list ascii;
  writeDeadline : Z;
  closed : bool
}.

(** net.Conn.Write(p): on an open connection all of p is sent. *)
Definition conn_Write (p : list ascii) (o : netOut) : nat * option netError * netOut :=
  if closed o then (0, Some ErrClosed, o)
  else (length p, None,
        {| sent := sent o ++ p; writeDeadline := writeDeadline o;
           closed := closed o |}).

(** digits[u] for u < 10 *)
Definition digitByte (u : Z) : ascii := ascii_of_nat (48 + Z.to_nat u).

(** The base 10 loop of fmt's fmtInteger: digits from the right while
    u >= 10, then the leading digit.  A uint64 has at most 20 digits. *)
Fixpoint fmtDigits (fuel : nat) (u : Z) (acc : list ascii) : list ascii :=
  match fuel with
  | O => digitByte u :: acc
  | S fuel' =>
      if (10 <=? u)%Z
      then fmtDigits fuel' (u / 10) (digitByte (u mod 10) :: acc)
      else digitByte u :: acc
  end.

(** The verb v of fmt on an int: fmtInteger in base 10, signed. *)
Definition fmtInteger (v : Z) : gostring :=
  if (v <? 0)%Z then "-"%char :: fmtDigits 20 (- v) [] else fmtDigits 20 v [].

(** The number a string of decimal digits stands for. *)
Definition decValue (l : list ascii) : Z :=
  fold_left (fun a c => (10 * a + (Z.of_nat (nat_of_ascii c) - 48))%Z) l 0%Z.

Definition isDigit (c : ascii) : bool :=
  (48 <=? nat_of_ascii c) && (nat_of_ascii c <=? 57).

(** A Go int. *)
Definition isInt (v : Z) : Prop := (- 2 ^ 63 <= v < 2 ^ 63)%Z.

Section ConnWrites.

Context {AuthUser : Type}.

(** c.SetWriteDeadline(time.Now().Add(c.WriteTimeout)) *)
Definition SetWriteDeadline (now : Z) (c : @Conn AuthUser) (o : netOut) : netOut :=
  {| sent := sent o; writeDeadline := (now + WriteTimeout c)%Z;
     closed := closed o |}.

(** func (c *Conn) WriteSMTP(code int, message string) error;
    fmt.Sprintf("%v %v", code, message) is the decimal code, a space and
    the message. *)
Definition WriteSMTP (now : Z) (code : Z) (message : gostring)
    (c : @Conn AuthUser) (o : netOut) : option netError * netOut :=
  let o := SetWriteDeadline now c o in
  let '(_, err, o) :=
    conn_Write ((fmtInteger code ++ SP :: message) ++ CRLF) o in
  (err, o).

(** func (c *Conn) WriteEHLO(message string) error *)
Definition WriteEHLO (now : Z) (message : gostring)
    (c : @Conn AuthUser) (o : netOut) : option netError * netOut :=
  let o := SetWriteDeadline now c o in
  let '(_, err, o) := conn_Write ((str "250-" ++ message) ++ CRLF) o in
  (err, o).

(** func (c *Conn) WriteOK() error *)
Definition WriteOK (now : Z) (c : @Conn AuthUser) (o : netOut)
  : option netError * netOut :=
  WriteSMTP now 250 (str "OK") c o.

(** A reply to write: WriteSMTP with its code, or WriteEHLO. *)
Inductive reply : Type :=
| Reply (code : Z) (message : gostring)
| Ehlo (message : gostring).

Definition doWrite (now : Z) (r : reply) (c : @Conn AuthUser) (o : netOut)
  : option netError * netOut :=
  match r with
  | Reply code message => WriteSMTP now code message c o
  | Ehlo message => WriteEHLO now message c o
  end.

(** The write side after the replies [rs], written in order. *)
Definition writeAll (now : Z) (rs : list reply) (c : @Conn AuthUser) (o : netOut)
  : netOut :=
  fold_left (fun o r => snd (doWrite now r c o)) rs o.

(** The same connection with another MaxSize. *)
Definition withMaxSize (m : Z) (c : @Conn AuthUser) : Conn :=
  {| conn := conn c; IsTLS := IsTLS c; Errors := Errors c; User := User c;
     FromAddr := FromAddr c; ToAddr := ToAddr c; MaxSize := m;
     ReadTimeout := ReadTimeout c; WriteTimeout := WriteTimeout c;
     transaction := transaction c;
     textProto := textProto c; tpBuilt := tpBuilt c |}.

(** How many of the calls [ks], made in order on [c], are EndTX calls that
    returned no error; and the same for StartTX. *)
Fixpoint endedTX (ks : list txCall) (c : @Conn AuthUser) : nat :=
  match ks with
  | [] => 0
  | k :: ks' =>
      match k, fst (doTX k c) with
      | CallEndTX, None => 1
      | _, _ => 0
      end + endedTX ks' (snd (doTX k c))
  end.

Fixpoint startedTX (ks : list txCall) (c : @Conn AuthUser) : nat :=
  match ks with
  | [] => 0
  | k :: ks' =>
      match k, fst (doTX k c) with
      | CallStartTX _ _, None => 1
      | _, _ => 0
      end + startedTX ks' (snd (doTX k c))
  end.

Definition notReset (k : txCall) : Prop :=
  match k with CallReset => False | _ => True end.

(** The clock reading a read call is made at. *)
Definition readAt (k : readCall) : Z :=
  match k with
  | CallReadSMTP now | CallReadLine now | CallReadData now => now
  end.

(** The bytes the decoder may still take from the connection: the N of
    its limited reader, or MaxSize while the decoder is not built; [None]
    without a limit. *)
Definition budget (c : @Conn AuthUser) : option Z :=
  match textProto c with
  | Some b => limN b
  | None => if (0 <? MaxSize c)%Z then Some (MaxSize c) else None
  end.

(** How many of the results of a sequence of reads carry no error. *)
Definition succeeded (rs : list (list gostring * option error)) : nat :=
  length (filter (fun r => match snd r with None => true | Some _ => false end) rs).

End ConnWrites.

(** A byte of a decimal code: a digit or the minus sign. *)
Definition codeByte (c : ascii) : bool := isDigit c || Ascii.eqb c "-"%char.

(** The line a reply puts on the wire, without its CRLF. *)
Definition replyLine (r : reply) : gostring :=
  match r with
  | Reply code message => fmtInteger code ++ SP :: message
  | Ehlo message => str "250-" ++ message
  end.

(** A reply whose code is a Go int and whose message holds no line feed. *)
Definition plainReply (r : reply) : Prop :=
  match r with
  | Reply code message => isInt code /\ ~ In LF message
  | Ehlo message => ~ In LF message
  end.

(** The line as ReadLine hands it back: one final carriage return cut off. *)
Definition stripCR (l : gostring) : gostring :=
  if endsWith l CR then removelast l else l.

(** A line of a data block ended by a line feed, with or without a carriage
    return before it: no line feed inside, and not the single dot. *)
Definition wireLine (l : gostring) : Prop := ~ In LF l /\ stripCR l <> [DOT].

(** The bytes of the lines [ls], each followed by a line feed. *)
Definition lfLines (ls : list gostring) : list ascii :=
  flat_map (fun l => l ++ [LF]) ls.

(** What a call on the decoder took from the connection is what its limit
    fell by, and the limit stays non-negative. *)
Definition limStep (b : bufioReader) (t : Transport)
    (b' : bufioReader) (t' : Transport) : Prop :=
  match limN b with
  | Some n =>
      (0 <= n)%Z ->
      exists n',
        limN b' = Some n' /\ (0 <= n')%Z /\
        (Z.of_nat (length (pending t)) - Z.of_nat (length (pending t')) = n - n')%Z
  | None => limN b' = None
  end.

(** ** More inputs used in the examples *)

(** A write side that is open and has sent nothing. *)
Definition openOut : netOut := {| sent := []; writeDeadline := 0; closed := false |}.

Definition twoStarts : list txCall :=
  [CallStartTX 7 (Some anAddress); CallStartTX 8 None].

(** A command ended by a bare line feed; one with no line end at all; a
    data block whose lines end in bare line feeds. *)
Definition lfConn : @Conn unit := newConn (segments [str "QUIT" ++ [LF]]) 0 0 0.

Definition tailConn : @Conn unit := newConn (segments [str "QUIT"]) 0 0 0.

Definition lfDataConn : @Conn unit :=
  newConn (segments [str "Hello" ++ [LF] ++ str "." ++ [LF]]) 0 0 0.

(** Readers of what WriteSMTP and WriteEHLO send. *)
Definition okReader : @Conn unit :=
  newConn (segments [sent (snd (WriteSMTP 0 250 (str "OK") idleConn openOut))])
          0 0 0.

Definition splitReader : @Conn unit :=
  newConn (segments
             [sent (snd (WriteSMTP 0 250 (str "a" ++ CRLF ++ str "b")
                                   idleConn openOut))])
          0 0 0.

Definition ehloReplies : list reply := [Ehlo (str "PIPELINING"); Reply 250 (str "OK")].

Definition ehloReader : @Conn unit :=
  newConn (segments [sent (writeAll 0 ehloReplies idleConn openOut)]) 0 0 0.


(** * The transaction state machine *)

Section Transactions.

Context {AuthUser : Type}.

Implicit Types (c : @Conn AuthUser) (ks : list txCall) (k : txCall).

Lemma runTX_snoc ks k c : runTX (ks ++ [k]) c = snd (doTX k (runTX ks c)).
Proof. unfold runTX. now rewrite fold_left_app. Qed.

Lemma txOpen_snoc ks k :
  txOpen (ks ++ [k]) = match k with CallStartTX _ _ => true | _ => false end.
Proof. unfold txOpen. now rewrite fold_left_app. Qed.

Lemma StartTX_open now from c :
  transaction c <> 0%Z -> StartTX now from c = (Some ErrTransaction, c).
Proof.
  intros H. unfold StartTX.
  destruct (Z.eqb_spec (transaction c) 0); [contradiction | reflexivity].
Qed.

Lemma StartTX_idle now from c :
  transaction c = 0%Z ->
  fst (StartTX now from c) = None /\
  transaction (snd (StartTX now from c)) = int_of now /\
  FromAddr (snd (StartTX now from c)) = from.
Proof. intros H. unfold StartTX. rewrite H. simpl. auto. Qed.

(** At a clock reading that converts to 0, StartTX returns no error and
    leaves the token 0: the theorems below are about the other readings. *)
Lemma StartTX_zero_token now from c :
  transaction c = 0%Z -> int_of now = 0%Z ->
  fst (StartTX now from c) = None /\
  transaction (snd (StartTX now from c)) = 0%Z.
Proof.
  intros H0 Hn. destruct (StartTX_idle now from c H0) as (-> & -> & _). auto.
Qed.

Lemma EndTX_idle c : transaction c = 0%Z -> EndTX c = (Some ErrTransaction, c).
Proof. intros H. unfold EndTX. now rewrite H. Qed.

Lemma EndTX_ok_iff c : fst (EndTX c) = None <-> transaction c <> 0%Z.
Proof.
  unfold EndTX. destruct (Z.eqb_spec (transaction c) 0); simpl; split; intros;
    congruence.
Qed.

Lemma EndTX_transaction c : transaction (snd (EndTX c)) = 0%Z.
Proof. unfold EndTX. destruct (Z.eqb_spec (transaction c) 0); simpl; auto. Qed.

(** The token is non-zero exactly while a transaction is open. *)
Lemma transaction_txOpen t m r w ks :
  Forall tokenNonZero ks ->
  (transaction (runTX ks (newConn (AuthUser:=AuthUser) t m r w)) = 0%Z
   <-> txOpen ks = false).
Proof.
  induction ks as [|k ks IH] using rev_ind; intros Hnz.
  - simpl. tauto.
  - apply Forall_app in Hnz as [Hks Hk]. apply Forall_inv in Hk.
    specialize (IH Hks). rewrite runTX_snoc, txOpen_snoc.
    set (c := runTX ks _) in *.
    destruct k as [now from| |]; simpl in *.
    + destruct (Z.eq_dec (transaction c) 0) as [E|E].
      * destruct (StartTX_idle now from _ E) as (_ & -> & _).
        split; [contradiction | discriminate].
      * rewrite (StartTX_open now from _ E). simpl.
        split; [contradiction | discriminate].
    + rewrite EndTX_transaction. tauto.
    + tauto.
Qed.

(** A nil sender is held only while no transaction is open, as long as
    StartTX is never given nil. *)
Lemma FromAddr_nil_idle t m r w ks :
  Forall fromGiven ks ->
  FromAddr (runTX ks (newConn (AuthUser:=AuthUser) t m r w)) = None ->
  transaction (runTX ks (newConn (AuthUser:=AuthUser) t m r w)) = 0%Z.
Proof.
  induction ks as [|k ks IH] using rev_ind; intros Hg.
  - reflexivity.
  - apply Forall_app in Hg as [Hks Hk]. apply Forall_inv in Hk.
    specialize (IH Hks). rewrite runTX_snoc.
    set (c := runTX ks _) in *.
    destruct k as [now from| |]; simpl in *.
    + destruct (Z.eq_dec (transaction c) 0) as [E|E].
      * destruct (StartTX_idle now from _ E) as (_ & _ & ->). contradiction.
      * rewrite (StartTX_open now from _ E). simpl. exact IH.
    + intros _. apply EndTX_transaction.
    + reflexivity.
Qed.

(** C1 (as amended).  After any sequence of StartTX, EndTX and Reset calls
    on a new connection, the transaction token is 0 exactly when no
    transaction is open, and a nil FromAddr implies both, provided the
    clock readings convert to non-zero tokens and StartTX is never given
    nil.  The converse is not claimed: EndTX leaves FromAddr set. *)
Theorem transaction_zero_iff_idle t m r w ks :
  Forall tokenNonZero ks ->
  Forall fromGiven ks ->
  let c := runTX ks (newConn (AuthUser:=AuthUser) t m r w) in
  (transaction c = 0%Z <-> txOpen ks = false) /\
  (FromAddr c = None -> transaction c = 0%Z).
Proof.
  intros Hnz Hg c. split.
  - now apply transaction_txOpen.
  - now apply FromAddr_nil_idle.
Qed.

Lemma last_of_split (ks p1 p2 : list txCall) k k' :
  ks ++ [k] = p1 ++ k' :: p2 ->
  (p2 = [] /\ k = k' /\ ks = p1) \/
  (exists q, p2 = q ++ [k] /\ ks = p1 ++ k' :: q).
Proof.
  intros E. induction p2 as [|x q _] using rev_ind.
  - left. apply app_inj_tail in E as [-> ->]. auto.
  - right. exists q.
    change (ks ++ [k] = p1 ++ (k' :: q) ++ [x]) in E.
    rewrite app_assoc in E. apply app_inj_tail in E as [-> ->]. auto.
Qed.

(** A transaction is open exactly when the calls end in a StartTX that
    succeeded, followed by StartTX calls only. *)
Lemma open_iff_started t m r w ks :
  Forall tokenNonZero ks ->
  let c0 := newConn (AuthUser:=AuthUser) t m r w in
  (transaction (runTX ks c0) <> 0%Z <->
   exists p1 now from p2,
     ks = p1 ++ CallStartTX now from :: p2 /\
     fst (StartTX now from (runTX p1 c0)) = None /\
     Forall isStartTX p2).
Proof.
  intros Hnz c0. induction ks as [|k ks IH] using rev_ind.
  - simpl. split; [congruence|].
    intros (p1 & now & from & p2 & E & _). now destruct p1.
  - apply Forall_app in Hnz as [Hks Hk]. apply Forall_inv in Hk.
    specialize (IH Hks). rewrite runTX_snoc.
    set (c := runTX ks c0) in *.
    destruct k as [now from| |]; simpl in *.
    + split.
      * intros _. destruct (Z.eq_dec (transaction c) 0) as [E|E].
        -- exists ks, now, from, []. repeat split; auto.
           now apply StartTX_idle.
        -- apply IH in E as (p1 & now' & from' & p2 & -> & Hok & Hp2).
           exists p1, now', from', (p2 ++ [CallStartTX now from]).
           repeat split; auto.
           ++ now rewrite <- app_assoc.
           ++ apply Forall_app. split; auto. constructor; simpl; auto.
      * intros _. destruct (Z.eq_dec (transaction c) 0) as [E|E].
        -- destruct (StartTX_idle now from _ E) as (_ & -> & _). exact Hk.
        -- now rewrite (StartTX_open now from _ E).
    + rewrite EndTX_transaction. split; [congruence|].
      intros (p1 & now & from & p2 & E & _ & Hp2).
      apply last_of_split in E as [(_ & E & _)|(q & -> & _)]; [discriminate|].
      apply Forall_app in Hp2 as [_ Hp2]. now apply Forall_inv in Hp2.
    + split; [congruence|].
      intros (p1 & now & from & p2 & E & _ & Hp2).
      apply last_of_split in E as [(_ & E & _)|(q & -> & _)]; [discriminate|].
      apply Forall_app in Hp2 as [_ Hp2]. now apply Forall_inv in Hp2.
Qed.

(** C3.  On a new connection, after any calls [ks] of StartTX, EndTX and
    Reset whose clock readings convert to non-zero tokens, EndTX succeeds
    if and only if [ks] ends in a StartTX that succeeded followed by no
    EndTX and no Reset (so by StartTX calls only, which failed). *)
Theorem EndTX_succeeds_iff t m r w ks :
  Forall tokenNonZero ks ->
  let c0 := newConn (AuthUser:=AuthUser) t m r w in
  (fst (EndTX (runTX ks c0)) = None <->
   exists p1 now from p2,
     ks = p1 ++ CallStartTX now from :: p2 /\
     fst (StartTX now from (runTX p1 c0)) = None /\
     Forall isStartTX p2).
Proof.
  intros Hnz c0. rewrite EndTX_ok_iff. now apply open_iff_started.
Qed.

(** C4.  StartTX on a connection with an open transaction returns
    ErrTransaction and leaves the connection as it was; after a StartTX
    that succeeded, a second StartTX fails and FromAddr is still the
    sender of the first, with transaction, ToAddr and User unchanged. *)
Theorem StartTX_twice now from c :
  transaction c <> 0%Z ->
  StartTX now from c = (Some ErrTransaction, c) /\
  forall now0 from0 (c0 : @Conn AuthUser),
    transaction c0 = 0%Z -> int_of now0 <> 0%Z ->
    let c1 := snd (StartTX now0 from0 c0) in
    let c2 := snd (StartTX now from c1) in
    fst (StartTX now0 from0 c0) = None /\
    fst (StartTX now from c1) = Some ErrTransaction /\
    FromAddr c2 = from0 /\
    transaction c2 = transaction c1 /\
    ToAddr c2 = ToAddr c1 /\ User c2 = User c1.
Proof.
  intros Hopen. split; [now apply StartTX_open|].
  intros now0 from0 c0 Hidle Hnz c1 c2.
  destruct (StartTX_idle now0 from0 c0 Hidle) as (Hok & Htx & Hfrom).
  assert (E : StartTX now from c1 = (Some ErrTransaction, c1)).
  { apply StartTX_open. unfold c1. now rewrite Htx. }
  unfold c2. rewrite E. simpl. repeat split; auto.
Qed.

(** C5.  EndTX on a connection with an open transaction succeeds, sets the
    transaction token to 0 and changes no other field. *)
Theorem EndTX_frame c :
  transaction c <> 0%Z ->
  let c' := snd (EndTX c) in
  fst (EndTX c) = None /\
  transaction c' = 0%Z /\
  FromAddr c' = FromAddr c /\ ToAddr c' = ToAddr c /\ User c' = User c /\
  Errors c' = Errors c /\ IsTLS c' = IsTLS c /\
  MaxSize c' = MaxSize c /\ ReadTimeout c' = ReadTimeout c /\
  WriteTimeout c' = WriteTimeout c /\
  conn c' = conn c /\ textProto c' = textProto c.
Proof.
  intros Hopen. unfold EndTX.
  destruct (Z.eqb_spec (transaction c) 0); [contradiction|].
  simpl. repeat split.
Qed.

(** C6.  Reset is total and returns no error; afterwards User and FromAddr
    are nil, ToAddr is empty and the transaction token is 0, whatever they
    were, and Errors, IsTLS, MaxSize, ReadTimeout, WriteTimeout, the stream
    and the decoder are as before. *)
Theorem Reset_frame c :
  let c' := Reset c in
  fst (doTX CallReset c) = None /\ snd (doTX CallReset c) = c' /\
  User c' = None /\ FromAddr c' = None /\ ToAddr c' = [] /\
  transaction c' = 0%Z /\
  Errors c' = Errors c /\ IsTLS c' = IsTLS c /\
  MaxSize c' = MaxSize c /\ ReadTimeout c' = ReadTimeout c /\
  WriteTimeout c' = WriteTimeout c /\
  conn c' = conn c /\ textProto c' = textProto c.
Proof. simpl. repeat split. Qed.

(** C10.  The error StartTX returns on an open transaction and the error
    EndTX returns on no transaction are the same value, ErrTransaction. *)
Theorem StartTX_EndTX_same_error now from (c1 c2 : @Conn AuthUser) :
  transaction c1 <> 0%Z ->
  transaction c2 = 0%Z ->
  fst (StartTX now from c1) = Some ErrTransaction /\
  fst (EndTX c2) = Some ErrTransaction /\
  fst (StartTX now from c1) = fst (EndTX c2).
Proof.
  intros H1 H2. rewrite (StartTX_open now from c1 H1), (EndTX_idle c2 H2).
  simpl. auto.
Qed.

End Transactions.

(** * The line decoder *)

Lemma bufSize_ge_2 : 2 <= defaultBufSize.
Proof. apply Nat.leb_le. vm_compute. reflexivity. Qed.

Opaque defaultBufSize.

(** ** Lists *)

Lemma snoc_split (A : Type) (l p q : list A) (c : A) :
  l ++ [c] = p ++ q -> q <> [] -> exists l', q = l' ++ [c] /\ l = p ++ l'.
Proof.
  intros E Hq. destruct (exists_last Hq) as (q' & x & ->).
  rewrite app_assoc in E. apply app_inj_tail in E as [-> ->]. eauto.
Qed.

Lemma IndexByte_Some s c i :
  IndexByte s c = Some i ->
  exists x y, s = x ++ c :: y /\ ~ In c x /\ length x = i.
Proof.
  revert i. induction s as [|a s IH]; simpl; intros i H; [discriminate|].
  destruct (Ascii.eqb_spec a c) as [->|Hac].
  - injection H as <-. exists [], s. simpl. auto.
  - destruct (IndexByte s c) as [j|]; [|discriminate]. injection H as <-.
    destruct (IH j eq_refl) as (x & y & -> & Hx & <-).
    exists (a :: x), y. simpl. repeat split; auto. intros [E|E]; auto.
Qed.

Lemma IndexByte_None s c : IndexByte s c = None <-> ~ In c s.
Proof.
  induction s as [|a s IH]; simpl; [tauto|].
  destruct (Ascii.eqb_spec a c) as [->|Hac].
  - split; [discriminate|]. intros H. exfalso. auto.
  - destruct (IndexByte s c) as [j|] eqn:E.
    + split; [discriminate|]. intros H. exfalso. apply H. right.
      destruct (IndexByte_Some _ _ _ E) as (x & y & -> & _).
      apply in_elt.
    + split; auto. intros _ [H|H]; [auto|]. now apply IH.
Qed.

(** The first occurrence of a byte splits a list in one way only. *)
Lemma first_split (c : ascii) x y x' y' :
  x ++ c :: y = x' ++ c :: y' -> ~ In c x -> ~ In c x' -> x = x' /\ y = y'.
Proof.
  revert x'. induction x as [|a x IH]; intros [|a' x'] E Hx Hx'; simpl in *.
  - injection E as ->. auto.
  - injection E as <- _. exfalso. auto.
  - injection E as -> _. exfalso. auto.
  - injection E as -> E. destruct (IH x' E) as [-> ->]; auto.
Qed.

(** A list without the byte, in front of its first occurrence, is a prefix
    of what precedes the occurrence. *)
Lemma prefix_before (c : ascii) u v pre post :
  u ++ v = pre ++ c :: post -> ~ In c u ->
  exists w, pre = u ++ w /\ v = w ++ c :: post.
Proof.
  revert pre. induction u as [|a u IH]; intros pre E Hu; simpl in *.
  - exists pre. auto.
  - destruct pre as [|p pre]; simpl in E.
    + injection E as -> _. exfalso. auto.
    + injection E as -> E. destruct (IH pre E) as (w & -> & ->); auto.
      exists w. auto.
Qed.

(** ** Reads of the connection *)

Lemma pending_cons s t : pending (s :: t) = seg_bytes s ++ pending t.
Proof. reflexivity. Qed.

Lemma conn_Read_spec k t bs e t' :
  conn_Read k t = (bs, e, t') ->
  pending t = bs ++ pending t' /\
  length bs <= k /\
  (0 < k ->
   (e = None /\ bs <> []) \/ (e = Some EOF /\ bs = [] /\ pending t = [])).
Proof.
  destruct t as [|s t]; unfold conn_Read; intros H; injection H as <- <- <-.
  - split; [|split]; simpl; auto with arith.
  - split; [|split].
    + rewrite pending_cons.
      rewrite <- (firstn_skipn k (seg_bytes s)) at 1.
      rewrite <- app_assoc. f_equal.
      unfold reseg. destruct (skipn k (seg_bytes s)); reflexivity.
    + apply firstn_le_length.
    + intros Hk. left. split; auto. destruct k; [lia|]. discriminate.
Qed.

Lemma rd_Read_spec k lim t bs e lim' t' :
  rd_Read k lim t = (bs, e, lim', t') ->
  visible lim t = bs ++ visible lim' t' /\
  length bs <= k /\
  (0 < k ->
   (e = None /\ bs <> []) \/ (e = Some EOF /\ bs = [] /\ visible lim t = [])).
Proof.
  destruct lim as [n|]; simpl.
  - unfold LimitedReader_Read. destruct (Z.leb_spec n 0) as [Hn|Hn].
    + intros H. injection H as <- <- <- <-.
      simpl. replace (Z.to_nat n) with 0 by lia. simpl.
      split; [|split]; auto with arith.
    + set (k' := if (n <? Z.of_nat k)%Z then Z.to_nat n else k).
      assert (Hk' : k' <= k /\ k' <= Z.to_nat n /\ (0 < k -> 0 < k')).
      { unfold k'. destruct (Z.ltb_spec n (Z.of_nat k)); lia. }
      destruct (conn_Read k' t) as [[bs0 e0] t0] eqn:E.
      intros H. injection H as <- <- <- <-.
      destruct (conn_Read_spec _ _ _ _ _ E) as (Hp & Hlen & Hprog).
      simpl. split; [|split].
      * rewrite Hp, firstn_app.
        rewrite firstn_all2 by lia. f_equal. f_equal. lia.
      * lia.
      * intros Hk. destruct Hprog as [?|(-> & -> & Hnil)]; [lia|auto|].
        right. rewrite Hnil. rewrite firstn_nil. auto.
  - destruct (conn_Read k t) as [[bs0 e0] t0] eqn:E.
    intros H. injection H as <- <- <- <-.
    apply (conn_Read_spec _ _ _ _ _ E).
Qed.

(** ** fill *)

Lemma fill_spec b t b' t' :
  fill b t = (b', t') ->
  rerr b = None ->
  length (buf b) < defaultBufSize ->
  stream b' t' = stream b t /\
  length (buf b') <= defaultBufSize /\
  ((rerr b' = None /\ length (buf b) < length (buf b')) \/
   (rerr b' = Some EOF /\ buf b' = buf b /\ visible (limN b') t' = [])).
Proof.
  unfold fill, stream. intros H He Hlen.
  destruct (rd_Read _ _ _) as [[[bs e] lim'] t0] eqn:E.
  injection H as <- <-. simpl.
  destruct (rd_Read_spec _ _ _ _ _ _ _ E) as (Hv & Hbs & Hprog).
  rewrite Hv, <- app_assoc, length_app. split; [reflexivity|]. split; [lia|].
  destruct Hprog as [(-> & Hne)|(-> & -> & Hnil)]; [lia| |].
  - left. split; auto. destruct bs; [congruence|]. simpl. lia.
  - right. rewrite app_nil_r. repeat split.
    rewrite Hv in Hnil. exact Hnil.
Qed.

(** ** ReadSlice *)

Lemma ReadSlice_loop_eq fuel delim b t :
  ReadSlice_loop fuel delim b t =
  match IndexByte (buf b) delim with
  | Some i =>
      Some (firstn (i + 1) (buf b), None,
            {| buf := skipn (i + 1) (buf b); limN := limN b; rerr := rerr b |}, t)
  | None =>
      match rerr b with
      | Some e =>
          Some (buf b, Some e, {| buf := []; limN := limN b; rerr := None |}, t)
      | None =>
          if defaultBufSize <=? length (buf b) then
            Some (buf b, Some ErrBufferFull,
                  {| buf := []; limN := limN b; rerr := None |}, t)
          else
            match fuel with
            | O => None
            | S fuel' =>
                let '(b', t') := fill b t in ReadSlice_loop fuel' delim b' t'
            end
      end
  end.
Proof. destruct fuel; reflexivity. Qed.

Lemma firstn_skipn_middle (A : Type) (x y : list A) (c : A) :
  firstn (length x + 1) (x ++ c :: y) = x ++ [c] /\
  skipn (length x + 1) (x ++ c :: y) = y.
Proof.
  split.
  - change (x ++ c :: y) with (x ++ [c] ++ y). rewrite app_assoc.
    rewrite firstn_app. replace (length x + 1) with (length (x ++ [c])).
    + rewrite firstn_all, Nat.sub_diag. simpl. now rewrite app_nil_r.
    + rewrite length_app. simpl. lia.
  - change (x ++ c :: y) with (x ++ [c] ++ y). rewrite app_assoc.
    replace (length x + 1) with (length (x ++ [c])).
    + rewrite skipn_app, skipn_all, Nat.sub_diag. reflexivity.
    + rewrite length_app. simpl. lia.
Qed.

Lemma ReadSlice_loop_spec fuel b t r :
  rerr b = None ->
  length (buf b) <= defaultBufSize ->
  ReadSlice_loop fuel LF b t = Some r ->
  sliceOK b t r.
Proof.
  revert b t. induction fuel as [|fuel IH]; intros b t He Hlen H;
    rewrite ReadSlice_loop_eq in H;
    destruct (IndexByte (buf b) LF) as [i|] eqn:EI.
  1,3: destruct (IndexByte_Some _ _ _ EI) as (x & y & Hb & Hx & <-);
    injection H as <-; rewrite Hb;
    destruct (firstn_skipn_middle _ x y LF) as [-> ->];
    unfold sliceOK, stream; simpl; rewrite Hb;
    rewrite Hb, length_app in Hlen; simpl in Hlen;
    repeat split; auto;
    [ now rewrite <- !app_assoc | lia | rewrite length_app; simpl; lia | eauto ].
  all: rewrite He in H; apply IndexByte_None in EI;
    destruct (Nat.leb_spec defaultBufSize (length (buf b))) as [Hfull|Hroom].
  1,3: injection H as <-; unfold sliceOK, stream; simpl;
    repeat split; auto; lia.
  - discriminate.
  - destruct (fill b t) as [b' t'] eqn:Ef.
    destruct (fill_spec _ _ _ _ Ef He Hroom)
      as (Hs & Hlen' & [(He' & Hgrow)|(He' & Hb' & Hv)]).
    + specialize (IH b' t' He' Hlen' H).
      unfold sliceOK in *. destruct r as [[[line e] b1] t1].
      now rewrite <- Hs.
    + rewrite ReadSlice_loop_eq in H. rewrite Hb' in H.
      destruct (IndexByte (buf b) LF) eqn:EI'.
      { apply IndexByte_Some in EI' as (x & y & E & _). exfalso.
        apply EI. rewrite E. apply in_elt. }
      rewrite He' in H. injection H as <-.
      unfold sliceOK, stream. simpl. rewrite Hv.
      unfold stream in Hs. rewrite Hv, Hb' in Hs. rewrite <- Hs.
      repeat split; auto. lia.
Qed.

Lemma ReadSlice_loop_total fuel b t :
  rerr b = None ->
  defaultBufSize - length (buf b) <= fuel ->
  exists r, ReadSlice_loop fuel LF b t = Some r.
Proof.
  revert b t. induction fuel as [|fuel IH]; intros b t He Hf;
    rewrite ReadSlice_loop_eq;
    destruct (IndexByte (buf b) LF) as [i|] eqn:EI; eauto;
    rewrite He;
    destruct (Nat.leb_spec defaultBufSize (length (buf b))) as [Hfull|Hroom];
    eauto; [lia|].
  destruct (fill b t) as [b' t'] eqn:Ef.
  destruct (fill_spec _ _ _ _ Ef He Hroom)
    as (Hs & Hlen' & [(He' & Hgrow)|(He' & Hb' & Hv)]).
  - apply IH; auto. lia.
  - rewrite ReadSlice_loop_eq, Hb', EI, He'. eauto.
Qed.

Lemma ReadSlice_spec b t :
  rerr b = None ->
  length (buf b) <= defaultBufSize ->
  sliceOK b t (ReadSlice LF b t).
Proof.
  intros He Hlen. unfold ReadSlice.
  destruct (ReadSlice_loop_total defaultBufSize b t He) as [r E]; [lia|].
  rewrite E. eapply ReadSlice_loop_spec; eauto.
Qed.

(** ** bufio.Reader.ReadLine *)

Lemma endsWith_snoc q x c : endsWith (q ++ [x]) c = Ascii.eqb x c.
Proof. unfold endsWith. now rewrite rev_unit. Qed.

Lemma endsWith_In line c : endsWith line c = true -> In c line.
Proof.
  destruct line as [|a l] using rev_ind; [discriminate|].
  rewrite endsWith_snoc. intros H. apply Ascii.eqb_eq in H as ->.
  apply in_elt.
Qed.

Lemma dropEOL_crlf l : dropEOL (l ++ [CR; LF]) = l.
Proof.
  unfold dropEOL. change (l ++ [CR; LF]) with (l ++ [CR] ++ [LF]).
  rewrite app_assoc, endsWith_snoc. simpl Ascii.eqb. cbv iota.
  rewrite <- app_assoc. simpl app. rewrite length_app. simpl length.
  replace (length l + 2 - 2) with (length l) by lia.
  rewrite nth_middle. simpl Ascii.eqb.
  replace (1 <? length l + 2) with true by (symmetry; apply Nat.ltb_lt; lia).
  simpl. replace (length l + 2 - 2) with (length l + 0) by lia.
  now rewrite firstn_app_2, app_nil_r.
Qed.

Lemma dropEOL_noLF line : ~ In LF line -> dropEOL line = line.
Proof.
  intros H. unfold dropEOL. destruct (endsWith line LF) eqn:E; auto.
  apply endsWith_In in E. contradiction.
Qed.

Lemma bufio_ReadLine_full b t line b' t' :
  ReadSlice LF b t = (line, Some ErrBufferFull, b', t') ->
  bufio_ReadLine b t =
  if endsWith line CR
  then (removelast line, true, None,
        {| buf := CR :: buf b'; limN := limN b'; rerr := rerr b' |}, t')
  else (line, true, None, b', t').
Proof. intros E. unfold bufio_ReadLine. now rewrite E. Qed.

Lemma bufio_ReadLine_line b t line e b' t' :
  ReadSlice LF b t = (line, e, b', t') ->
  e <> Some ErrBufferFull -> line <> [] ->
  bufio_ReadLine b t = (dropEOL line, false, None, b', t').
Proof.
  intros E He Hl. unfold bufio_ReadLine. rewrite E.
  destruct line; [contradiction|]. destruct e as [[]|]; congruence.
Qed.

Lemma bufio_ReadLine_spec b t line more e b' t' :
  readerOK b ->
  bufio_ReadLine b t = (line, more, e, b', t') ->
  readerOK b' /\
  match e with
  | None => length (stream b' t') < length (stream b t)
  | Some x => x = EOF /\ line = [] /\ stream b' t' = []
  end.
Proof.
  intros [He Hlen] H.
  pose proof (ReadSlice_spec b t He Hlen) as HS.
  destruct (ReadSlice LF b t) as [[[line0 e0] b0] t0] eqn:ES.
  destruct HS as (Hs & He0 & Hlen0 & Hl0 & Hcase).
  pose proof bufSize_ge_2 as Hsz.
  destruct e0 as [[]|]; try contradiction.
  - destruct Hcase as (HnoLF & Hs0 & Hb0).
    destruct line0 as [|a l0].
    + unfold bufio_ReadLine in H. rewrite ES in H. injection H as <- <- <- <- <-.
      split; [split; auto|]. auto.
    + rewrite (bufio_ReadLine_line _ _ _ _ _ _ ES) in H by congruence.
      injection H as <- <- <- <- <-. split; [split; auto|].
      rewrite Hs, Hs0. simpl. lia.
  - destruct Hcase as (Hfull & HnoLF & Hb0).
    rewrite (bufio_ReadLine_full _ _ _ _ _ ES) in H.
    destruct (endsWith line0 CR); injection H as <- <- <- <- <-.
    + split; [split; simpl; auto; rewrite Hb0; simpl; lia|].
      rewrite Hs. unfold stream. simpl. rewrite Hb0. simpl.
      rewrite !length_app. lia.
    + split; [split; auto|]. rewrite Hs, length_app. lia.
  - destruct Hcase as (pre & -> & Hpre).
    rewrite (bufio_ReadLine_line _ _ _ _ _ _ ES) in H; [|congruence|now destruct pre].
    injection H as <- <- <- <- <-. split; [split; auto|].
    rewrite Hs, !length_app. simpl. lia.
Qed.

(** A CRLF line that fits the buffer comes back whole. *)
Lemma bufio_ReadLine_short b t l post :
  readerOK b ->
  stream b t = l ++ CR :: LF :: post -> ~ In LF l ->
  length l + 1 < defaultBufSize ->
  exists b' t',
    bufio_ReadLine b t = (l, false, None, b', t') /\
    readerOK b' /\ stream b' t' = post.
Proof.
  intros [He Hlen] Hst Hl Hshort.
  pose proof (ReadSlice_spec b t He Hlen) as HS.
  destruct (ReadSlice LF b t) as [[[line0 e0] b0] t0] eqn:ES.
  destruct HS as (Hs & He0 & Hlen0 & Hl0 & Hcase).
  assert (Hpre : ~ In LF (l ++ [CR])).
  { intros H. apply in_app_or in H as [H|[H|[]]]; [auto|discriminate]. }
  assert (Hst' : stream b t = (l ++ [CR]) ++ LF :: post)
    by now rewrite <- app_assoc.
  destruct e0 as [[]|]; try contradiction.
  - destruct Hcase as (HnoLF & Hs0 & _). exfalso. apply HnoLF.
    rewrite Hs0, app_nil_r in Hs. rewrite <- Hs, Hst.
    apply in_or_app. right. simpl. auto.
  - destruct Hcase as (Hfull & HnoLF & _). exfalso.
    rewrite Hs in Hst'.
    destruct (prefix_before _ _ _ _ _ Hst' HnoLF) as (w & E & _).
    apply (f_equal (@length _)) in E. rewrite !length_app in E. simpl in E. lia.
  - destruct Hcase as (pre & -> & Hpre').
    rewrite Hs, <- app_assoc in Hst'. simpl in Hst'.
    destruct (first_split _ _ _ _ _ Hst' Hpre' Hpre) as [-> <-].
    exists b0, t0. split; [|split; [split|]; auto].
    rewrite (bufio_ReadLine_line _ _ _ _ _ _ ES); [|congruence|now destruct l].
    rewrite <- app_assoc. simpl. now rewrite dropEOL_crlf.
Qed.

(** A CRLF line that does not fit comes back in part, the rest of it
    still at the front of the input. *)
Lemma bufio_ReadLine_long b t l post :
  readerOK b ->
  stream b t = l ++ CR :: LF :: post -> ~ In LF l ->
  defaultBufSize <= length l + 1 ->
  exists p l' b' t',
    bufio_ReadLine b t = (p, true, None, b', t') /\
    l = p ++ l' /\ p <> [] /\
    readerOK b' /\ stream b' t' = l' ++ CR :: LF :: post.
Proof.
  intros [He Hlen] Hst Hl Hlong.
  pose proof (ReadSlice_spec b t He Hlen) as HS.
  destruct (ReadSlice LF b t) as [[[line0 e0] b0] t0] eqn:ES.
  destruct HS as (Hs & He0 & Hlen0 & Hl0 & Hcase).
  pose proof bufSize_ge_2 as Hsz.
  assert (Hpre : ~ In LF (l ++ [CR])).
  { intros H. apply in_app_or in H as [H|[H|[]]]; [auto|discriminate]. }
  assert (Hst' : stream b t = (l ++ [CR]) ++ LF :: post)
    by now rewrite <- app_assoc.
  destruct e0 as [[]|]; try contradiction.
  - destruct Hcase as (HnoLF & Hs0 & _). exfalso. apply HnoLF.
    rewrite Hs0, app_nil_r in Hs. rewrite <- Hs, Hst.
    apply in_or_app. right. simpl. auto.
  - destruct Hcase as (Hfull & HnoLF & Hb0).
    rewrite Hs in Hst'.
    destruct (prefix_before _ _ _ _ _ Hst' HnoLF) as (w & E & Hw).
    rewrite (bufio_ReadLine_full _ _ _ _ _ ES).
    destruct line0 as [|a0 l0] using rev_ind; [simpl in Hfull; lia|]. clear IHl0.
    rename l0 into q. rewrite endsWith_snoc, removelast_last.
    rewrite length_app in Hfull. simpl in Hfull.
    destruct (Ascii.eqb_spec a0 CR) as [->|Hx].
    + rewrite <- app_assoc in E. simpl in E.
      destruct (snoc_split _ _ _ _ _ E) as (l' & El' & ->); [discriminate|].
      exists q, l', {| buf := CR :: buf b0; limN := limN b0; rerr := rerr b0 |}, t0.
      split; [reflexivity|]. split; [reflexivity|].
      split; [destruct q; [simpl in Hfull; lia|discriminate]|].
      split; [split; simpl; auto; rewrite Hb0; simpl; lia|].
      unfold stream. simpl. rewrite Hb0. unfold stream in Hw.
      rewrite Hb0 in Hw. simpl in Hw. rewrite Hw.
      change (CR :: [] ++ w ++ LF :: post) with ((CR :: w) ++ LF :: post).
      rewrite El', <- app_assoc. reflexivity.
    + destruct w as [|w0 w'] eqn:Ew.
      { rewrite app_nil_r in E. apply app_inj_tail in E as [_ E]. congruence. }
      rewrite <- Ew in *. 
      destruct (snoc_split _ _ _ _ _ E) as (l' & El' & ->); [congruence|].
      exists (q ++ [a0]), l', b0, t0.
      split; [reflexivity|]. split; [reflexivity|].
      split; [now destruct q|]. split; [split; auto|].
      rewrite Hw, El', <- app_assoc. reflexivity.
  - destruct Hcase as (pre & -> & Hpre'). exfalso.
    rewrite Hs, <- app_assoc in Hst'. simpl in Hst'.
    destruct (first_split _ _ _ _ _ Hst' Hpre' Hpre) as [-> _].
    rewrite !length_app in Hl0. simpl in Hl0. lia.
Qed.

(** ** textproto.Reader.ReadLine *)

Lemma readLineSlice_loop_spec fuel acc b t line e b' t' :
  readerOK b ->
  readLineSlice_loop fuel acc b t = Some (line, e, b', t') ->
  readerOK b' /\
  match e with
  | None => length (stream b' t') < length (stream b t)
  | Some x => x = EOF /\ line = []
  end.
Proof.
  revert acc b t. induction fuel as [|fuel IH]; intros acc b t Hok H;
    [discriminate|].
  simpl in H.
  destruct (bufio_ReadLine b t) as [[[[l more] e1] b1] t1] eqn:E.
  destruct (bufio_ReadLine_spec _ _ _ _ _ _ _ Hok E) as (Hok1 & Hcase).
  destruct e1 as [x|].
  - injection H as <- <- <- <-. destruct Hcase as (-> & _ & _). auto.
  - destruct more.
    + destruct (IH _ _ _ Hok1 H) as (Hok' & Hcase'). split; auto.
      destruct e; auto. lia.
    + injection H as <- <- <- <-. auto.
Qed.

Lemma readLineSlice_loop_total fuel acc b t :
  readerOK b ->
  length (stream b t) < fuel ->
  exists r, readLineSlice_loop fuel acc b t = Some r.
Proof.
  revert acc b t. induction fuel as [|fuel IH]; intros acc b t Hok Hf; [lia|].
  simpl.
  destruct (bufio_ReadLine b t) as [[[[l more] e1] b1] t1] eqn:E.
  destruct (bufio_ReadLine_spec _ _ _ _ _ _ _ Hok E) as (Hok1 & Hcase).
  destruct e1 as [x|]; eauto. destruct more; eauto.
  apply IH; auto. lia.
Qed.

Lemma readLineSlice_loop_crlf fuel acc b t l post :
  length l < fuel ->
  readerOK b ->
  stream b t = l ++ CR :: LF :: post -> ~ In LF l ->
  exists b' t',
    readLineSlice_loop fuel acc b t = Some (acc ++ l, None, b', t') /\
    readerOK b' /\ stream b' t' = post.
Proof.
  revert acc b t l. induction fuel as [|fuel IH]; intros acc b t l Hf Hok Hst Hl;
    [lia|].
  simpl. destruct (Nat.lt_ge_cases (length l + 1) defaultBufSize) as [Hs|Hg].
  - destruct (bufio_ReadLine_short _ _ _ _ Hok Hst Hl Hs) as (b' & t' & -> & H).
    eauto.
  - destruct (bufio_ReadLine_long _ _ _ _ Hok Hst Hl Hg)
      as (p & l' & b1 & t1 & -> & -> & Hp & Hok1 & Hst1).
    destruct (IH (acc ++ p) b1 t1 l') as (b' & t' & -> & H); auto.
    + rewrite length_app in Hf. destruct p; [contradiction|]. simpl in Hf. lia.
    + intros HIn. apply Hl. apply in_or_app. auto.
    + rewrite <- app_assoc. eauto.
Qed.

(** What textproto.Reader.ReadLine leaves behind, on any input. *)
Lemma textproto_ReadLine_spec b t line e b' t' :
  readerOK b ->
  textproto_ReadLine b t = (line, e, b', t') ->
  readerOK b' /\
  match e with
  | None => length (stream b' t') < length (stream b t)
  | Some x => x = EOF /\ line = []
  end.
Proof.
  intros Hok H. unfold textproto_ReadLine in H.
  destruct (readLineSlice_loop_total (io_fuel b t) [] b t Hok) as [r E];
    [unfold io_fuel; lia|].
  rewrite E in H. subst r. eapply readLineSlice_loop_spec; eauto.
Qed.

(** textproto.Reader.ReadLine on a CRLF line: the line without its CRLF,
    and the decoder left at the byte after it. *)
Lemma textproto_ReadLine_crlf b t l post :
  readerOK b ->
  stream b t = l ++ CR :: LF :: post -> ~ In LF l ->
  exists b' t',
    textproto_ReadLine b t = (l, None, b', t') /\
    readerOK b' /\ stream b' t' = post.
Proof.
  intros Hok Hst Hl. unfold textproto_ReadLine.
  destruct (readLineSlice_loop_crlf (io_fuel b t) [] b t l post)
    as (b' & t' & -> & H); auto.
  - unfold io_fuel. rewrite Hst, length_app. lia.
  - eauto.
Qed.

(** ** textproto.Reader.ReadDotLines *)

Lemma ReadDotLines_loop_spec fuel v b t ls e b' t' :
  readerOK b ->
  ReadDotLines_loop fuel v b t = Some (ls, e, b', t') ->
  readerOK b' /\ (e = None \/ e = Some ErrUnexpectedEOF).
Proof.
  revert v b t. induction fuel as [|fuel IH]; intros v b t Hok H;
    [discriminate|].
  simpl in H.
  destruct (textproto_ReadLine b t) as [[[line e1] b1] t1] eqn:E.
  destruct (textproto_ReadLine_spec _ _ _ _ _ _ Hok E) as (Hok1 & Hcase).
  destruct e1 as [x|].
  { destruct Hcase as [-> _]. injection H as <- <- <- <-. auto. }
  destruct line as [|c rest]; [eauto|].
  destruct (Ascii.eqb c DOT); [|eauto].
  destruct rest; [injection H as <- <- <- <-; auto|eauto].
Qed.

Lemma ReadDotLines_loop_total fuel v b t :
  readerOK b ->
  length (stream b t) < fuel ->
  exists r, ReadDotLines_loop fuel v b t = Some r.
Proof.
  revert v b t. induction fuel as [|fuel IH]; intros v b t Hok Hf; [lia|].
  simpl.
  destruct (textproto_ReadLine b t) as [[[line e1] b1] t1] eqn:E.
  destruct (textproto_ReadLine_spec _ _ _ _ _ _ Hok E) as (Hok1 & Hcase).
  destruct e1 as [x|]; eauto.
  assert (Hf1 : length (stream b1 t1) < fuel) by lia.
  destruct line as [|c rest]; [eauto|].
  destruct (Ascii.eqb c DOT); [|eauto].
  destruct rest; eauto.
Qed.

Lemma ReadDotLines_spec b t ls e b' t' :
  readerOK b ->
  ReadDotLines b t = (ls, e, b', t') ->
  readerOK b' /\ (e = None \/ e = Some ErrUnexpectedEOF).
Proof.
  intros Hok H. unfold ReadDotLines in H.
  destruct (ReadDotLines_loop_total (io_fuel b t) [] b t Hok) as [r E];
    [unfold io_fuel; lia|].
  rewrite E in H. subst r. eapply ReadDotLines_loop_spec; eauto.
Qed.

Lemma dataBlock_cons l ls post :
  dataBlock (l :: ls) ++ post = l ++ CR :: LF :: dataBlock ls ++ post.
Proof.
  unfold dataBlock. simpl. now rewrite <- !app_assoc.
Qed.

Lemma dataBlock_length ls : length ls < length (dataBlock ls).
Proof.
  unfold dataBlock. rewrite length_app. simpl.
  induction ls as [|l ls IH]; simpl; [lia|].
  rewrite !length_app. simpl. lia.
Qed.

Lemma ReadDotLines_loop_block ls fuel v b t post :
  length ls < fuel ->
  readerOK b ->
  stream b t = dataBlock ls ++ post ->
  Forall blockLine ls ->
  exists b' t',
    ReadDotLines_loop fuel v b t = Some (v ++ map undot ls, None, b', t') /\
    readerOK b' /\ stream b' t' = post.
Proof.
  revert fuel v b t. induction ls as [|l ls IH]; intros fuel v b t Hf Hok Hst Hls;
    (destruct fuel as [|fuel]; [simpl in Hf; lia|]); simpl ReadDotLines_loop.
  - destruct (textproto_ReadLine_crlf b t [DOT] post Hok Hst)
      as (b' & t' & -> & H).
    { intros [H|[]]. discriminate. }
    simpl. rewrite app_nil_r. eauto.
  - apply Forall_cons_iff in Hls as [[Hl Hdot] Hls].
    rewrite dataBlock_cons in Hst.
    destruct (textproto_ReadLine_crlf b t l _ Hok Hst Hl)
      as (b1 & t1 & -> & Hok1 & Hst1).
    simpl in Hf.
    assert (Hnext : forall x, x = undot l ->
      exists b' t',
        ReadDotLines_loop fuel (v ++ [x]) b1 t1
        = Some (v ++ map undot (l :: ls), None, b', t') /\
        readerOK b' /\ stream b' t' = post).
    { intros x ->. destruct (IH fuel (v ++ [undot l]) b1 t1) as (b' & t' & -> & H);
        auto; [lia|]. simpl. rewrite <- app_assoc. simpl. eauto. }
    destruct l as [|c rest]; [now apply Hnext|].
    unfold undot in Hnext.
    destruct (Ascii.eqb_spec c DOT) as [->|Hc]; [|now apply Hnext].
    destruct rest; [congruence|now apply Hnext].
Qed.

(** ReadDotLines on a data block: its lines, each without one leading
    dot, the line of the single dot taken from the input and left out. *)
Lemma ReadDotLines_block b t ls post :
  readerOK b ->
  stream b t = dataBlock ls ++ post ->
  Forall blockLine ls ->
  exists b' t',
    ReadDotLines b t = (map undot ls, None, b', t') /\
    readerOK b' /\ stream b' t' = post.
Proof.
  intros Hok Hst Hls. unfold ReadDotLines.
  destruct (ReadDotLines_loop_block ls (io_fuel b t) [] b t post)
    as (b' & t' & -> & H); auto.
  - unfold io_fuel. rewrite Hst, length_app.
    pose proof (dataBlock_length ls). lia.
  - eauto.
Qed.

(** ** strings.SplitN with one cut *)

Lemma split_at_space l :
  match IndexByte l SP with
  | None => beforeSpace l = l /\ afterSpace l = []
  | Some m => firstn m l = beforeSpace l /\ skipn (S m) l = afterSpace l
  end.
Proof.
  induction l as [|a l IH]; simpl; [auto|].
  destruct (Ascii.eqb a SP); [auto|].
  destruct (IndexByte l SP) as [m|]; destruct IH as [E1 E2]; simpl;
    split; try congruence; exact E2.
Qed.

Lemma SplitN_verb_args l :
  let command := SplitN l SP 2 in
  nth 0 command [] = beforeSpace l /\
  (if 1 <? length command then nth 1 command [] else []) = afterSpace l.
Proof.
  destruct l as [|a l]; [simpl; auto|].
  assert (E : SplitN (a :: l) SP 2 = genSplit (a :: l) SP 1).
  { unfold SplitN. replace (length (a :: l) + 1 <? 2) with false; auto.
    symmetry. apply Nat.ltb_ge. simpl. lia. }
  cbv zeta. rewrite E. unfold genSplit.
  pose proof (split_at_space (a :: l)) as H.
  destruct (IndexByte (a :: l) SP) as [m|]; destruct H as [H1 H2]; simpl;
    auto.
Qed.

(** * Reads of the connection *)

Section Reads.

Context {AuthUser : Type}.
Variable unicodeToUpper : gostring -> gostring.

Implicit Types (c : @Conn AuthUser).

Lemma tp_built c r : textProto c = Some r -> tp c = (r, c).
Proof. intros H. unfold tp. now rewrite H. Qed.

Lemma tp_spec c :
  exists r c',
    tp c = (r, c') /\
    textProto c' = Some r /\
    conn c' = conn c /\
    stream r (incoming (conn c)) = connStream c /\
    (decoderOK c -> readerOK r) /\
    tpBuilt c' = match textProto c with Some _ => tpBuilt c | None => S (tpBuilt c) end.
Proof.
  unfold tp, connStream, decoderOK.
  destruct (textProto c) as [r|] eqn:E.
  - exists r, c. repeat (split; [now auto|]). reflexivity.
  - eexists _, _. split; [reflexivity|]. simpl.
    pose proof bufSize_ge_2.
    destruct (0 <? MaxSize c)%Z;
      do 3 (split; [reflexivity|]); (split; [|reflexivity]);
      intros _; split; simpl; auto; lia.
Qed.

Lemma ReadLine_eq now c r c1 :
  tp (SetReadDeadline now c) = (r, c1) ->
  ReadLine now c =
  let '(line, err, r', t') := textproto_ReadLine r (incoming (conn c1)) in
  (line, err, after_read c1 r' t').
Proof. intros E. unfold ReadLine. now rewrite E. Qed.

Lemma connStream_deadline now c :
  connStream (SetReadDeadline now c) = connStream c /\
  (decoderOK c -> decoderOK (SetReadDeadline now c)).
Proof. unfold connStream, decoderOK. simpl. auto. Qed.

(** The common start of the three reads: the deadline is set and tp has
    returned the decoder [r], whose input is the input of [c]. *)
Ltac enter_read now c :=
  let Es := fresh "Es" in
  destruct (connStream_deadline now c) as [Es Ho];
  destruct (tp_spec (SetReadDeadline now c))
    as (r & c1 & -> & Htp & Hconn & Hs & Hr & _);
  rewrite Es in Hs; rewrite Hconn.

(** ReadLine on a CRLF line. *)
Lemma ReadLine_crlf now c l post :
  decoderOK c ->
  connStream c = l ++ CR :: LF :: post -> ~ In LF l ->
  exists c',
    ReadLine now c = (l, None, c') /\ decoderOK c' /\ connStream c' = post.
Proof.
  intros Hok Hst Hl. unfold ReadLine.
  enter_read now c.
  destruct (textproto_ReadLine_crlf r (incoming (conn (SetReadDeadline now c))) l post
              (Hr (Ho Hok))) as
    (r' & t' & -> & Hok' & Hst'); auto; [congruence|].
  eexists. split; [reflexivity|]. unfold decoderOK, connStream. simpl. auto.
Qed.

Lemma ReadSMTP_crlf now c l post :
  decoderOK c ->
  connStream c = l ++ CR :: LF :: post -> ~ In LF l ->
  exists c',
    ReadSMTP unicodeToUpper now c
    = (ToUpper unicodeToUpper (beforeSpace l), afterSpace l, None, c') /\
    decoderOK c' /\ connStream c' = post.
Proof.
  intros Hok Hst Hl. unfold ReadSMTP.
  enter_read now c.
  destruct (textproto_ReadLine_crlf r (incoming (conn (SetReadDeadline now c))) l post
              (Hr (Ho Hok))) as
    (r' & t' & -> & Hok' & Hst'); auto; [congruence|].
  destruct (SplitN_verb_args l) as [-> ->].
  eexists. split; [reflexivity|]. unfold decoderOK, connStream. simpl. auto.
Qed.

Lemma ReadData_block now c ls post :
  decoderOK c ->
  connStream c = dataBlock ls ++ post ->
  Forall blockLine ls ->
  exists c',
    ReadData now c = (Join (map undot ls) [LF], None, c') /\
    decoderOK c' /\ connStream c' = post.
Proof.
  intros Hok Hst Hls. unfold ReadData.
  enter_read now c.
  destruct (ReadDotLines_block r (incoming (conn (SetReadDeadline now c))) ls post
              (Hr (Ho Hok))) as
    (r' & t' & -> & Hok' & Hst'); auto; [congruence|].
  eexists. split; [reflexivity|]. unfold decoderOK, connStream. simpl. auto.
Qed.

Lemma newConn_stream t r w :
  decoderOK (newConn (AuthUser:=AuthUser) t 0 r w) /\
  connStream (newConn (AuthUser:=AuthUser) t 0 r w) = pending t.
Proof. unfold decoderOK, connStream. simpl. auto. Qed.

(** C7.  When the input of the connection starts with a line ended by
    CRLF, ReadSMTP returns without error the text before the first space
    of the line, uppercased, as the verb, and the text after that first
    space, as it is, as the args (empty when the line has no space); the
    input then continues after the CRLF.  On the input
    "MAIL FROM:<a@b.com>\r\n", however segmented, the verb is "MAIL" and the
    args are "FROM:<a@b.com>"; on "QUIT\r\n" the verb is "QUIT" and the args
    are empty. *)
Theorem ReadSMTP_verb_args :
  (forall now c l post,
      decoderOK c ->
      connStream c = l ++ CRLF ++ post -> ~ In LF l ->
      exists c',
        ReadSMTP unicodeToUpper now c
        = (ToUpper unicodeToUpper (beforeSpace l), afterSpace l, None, c') /\
        connStream c' = post) /\
  (forall now t r w,
      pending t = str "MAIL FROM:<a@b.com>" ++ CRLF ->
      exists c',
        ReadSMTP unicodeToUpper now (newConn (AuthUser:=AuthUser) t 0 r w)
        = (str "MAIL", str "FROM:<a@b.com>", None, c')) /\
  (forall now t r w,
      pending t = str "QUIT" ++ CRLF ->
      exists c',
        ReadSMTP unicodeToUpper now (newConn (AuthUser:=AuthUser) t 0 r w)
        = (str "QUIT", [], None, c')).
Proof.
  split; [|split].
  - intros now c l post Hok Hst Hl.
    destruct (ReadSMTP_crlf now c l post Hok Hst Hl) as (c' & ? & ? & ?).
    eauto.
  - intros now t r w Ht.
    destruct (newConn_stream t r w) as [Hok Hs].
    destruct (ReadSMTP_crlf now _ (str "MAIL FROM:<a@b.com>") [] Hok)
      as (c' & E & _).
    + rewrite Hs, Ht. reflexivity.
    + vm_compute. intuition discriminate.
    + exists c'. rewrite E. reflexivity.
  - intros now t r w Ht.
    destruct (newConn_stream t r w) as [Hok Hs].
    destruct (ReadSMTP_crlf now _ (str "QUIT") [] Hok) as (c' & E & _).
    + rewrite Hs, Ht. reflexivity.
    + vm_compute. intuition discriminate.
    + exists c'. rewrite E. reflexivity.
Qed.

(** C8.  When the input of the connection starts with a data block (lines
    ended by CRLF, none of them a single dot, then the line of a single
    dot), ReadData returns without error the lines before the dot line,
    one leading dot removed from each line that starts with a dot, joined
    by single line feeds; the dot line is taken from the input and left
    out.  On the input "Hello\r\n..Dots\r\n.\r\n", however segmented, the
    result is "Hello\n.Dots". *)
Theorem ReadData_dot_lines :
  (forall now c ls post,
      decoderOK c ->
      connStream c = dataBlock ls ++ post ->
      Forall blockLine ls ->
      exists c',
        ReadData now c = (Join (map undot ls) [LF], None, c') /\
        connStream c' = post) /\
  (forall now t r w,
      pending t = str "Hello" ++ CRLF ++ str "..Dots" ++ CRLF ++ str "." ++ CRLF ->
      exists c',
        ReadData now (newConn (AuthUser:=AuthUser) t 0 r w)
        = (str "Hello" ++ [LF] ++ str ".Dots", None, c')).
Proof.
  split.
  - intros now c ls post Hok Hst Hls.
    destruct (ReadData_block now c ls post Hok Hst Hls) as (c' & ? & ? & ?).
    eauto.
  - intros now t r w Ht.
    destruct (newConn_stream t r w) as [Hok Hs].
    destruct (ReadData_block now _ [str "Hello"; str "..Dots"] [] Hok)
      as (c' & E & _).
    + rewrite Hs, Ht. reflexivity.
    + repeat constructor; vm_compute; intuition discriminate.
    + exists c'. rewrite E. reflexivity.
Qed.

End Reads.

(** * The size limit *)

(** ** A limited reader and a stream cut short *)

Lemma trunc_0 t : trunc 0 t = [].
Proof. reflexivity. Qed.

Lemma trunc_nil n : trunc n [] = [].
Proof. now destruct n. Qed.

Lemma trunc_cons n s t :
  trunc n (s :: t)
  = reseg (firstn n (seg_bytes s)) (trunc (n - length (seg_bytes s)) t).
Proof. destruct n, s; reflexivity. Qed.

Lemma trunc_reseg n l t :
  trunc n (reseg l t) = reseg (firstn n l) (trunc (n - length l) t).
Proof.
  destruct l as [|b r]; simpl.
  - now rewrite firstn_nil, Nat.sub_0_r.
  - apply (trunc_cons n (b, r) t).
Qed.

Lemma conn_Read_reseg k l t :
  l <> [] -> conn_Read k (reseg l t) = (firstn k l, None, reseg (skipn k l) t).
Proof. destruct l; [congruence|reflexivity]. Qed.

Lemma pending_reseg l t : pending (reseg l t) = l ++ pending t.
Proof. now destruct l. Qed.

Lemma pending_trunc n t : pending (trunc n t) = firstn n (pending t).
Proof.
  revert n. induction t as [|s t IH]; intros n.
  - now rewrite trunc_nil, firstn_nil.
  - rewrite trunc_cons, pending_reseg, pending_cons, firstn_app, IH. reflexivity.
Qed.

Lemma trunc_all n t : length (pending t) <= n -> trunc n t = t.
Proof.
  revert n. induction t as [|s t IH]; intros n H.
  - apply trunc_nil.
  - rewrite pending_cons, length_app in H. rewrite trunc_cons.
    rewrite firstn_all2 by lia. rewrite IH by lia. now destruct s.
Qed.

Lemma conn_Read_trunc k n t bs e t1 :
  0 < n ->
  conn_Read (Nat.min k n) t = (bs, e, t1) ->
  conn_Read k (trunc n t) = (bs, e, trunc (n - length bs) t1).
Proof.
  intros Hn H. destruct t as [|s t].
  - simpl in H. injection H as <- <- <-. now rewrite !trunc_nil.
  - unfold conn_Read in H. injection H as <- <- <-.
    set (L := seg_bytes s). assert (HL : 0 < length L) by (simpl; lia).
    rewrite trunc_cons. fold L. rewrite conn_Read_reseg.
    2:{ destruct n; [lia|]. now destruct s. }
    rewrite firstn_firstn. f_equal. rewrite trunc_reseg. clearbody L.
    rewrite skipn_firstn_comm, length_firstn, length_skipn.
    destruct (Nat.le_gt_cases k n) as [Hk|Hk].
    + rewrite (Nat.min_l k n) by lia.
      destruct (Nat.le_gt_cases k (length L)) as [HkL|HkL].
      * rewrite (Nat.min_l k (length L)) by lia. f_equal. f_equal. lia.
      * rewrite (Nat.min_r k (length L)) by lia.
        rewrite skipn_all2 by lia. rewrite !firstn_nil. simpl.
        f_equal. lia.
    + rewrite (Nat.min_r k n) by lia.
      replace (n - k) with 0 by lia. simpl firstn. simpl reseg.
      destruct (Nat.le_gt_cases n (length L)) as [HnL|HnL].
      * rewrite (Nat.min_l n (length L)) by lia.
        replace (n - length L) with 0 by lia.
        replace (n - n) with 0 by lia. reflexivity.
      * rewrite (Nat.min_r n (length L)) by lia.
        rewrite skipn_all2 by lia. rewrite firstn_nil. simpl.
        f_equal. lia.
Qed.

Lemma capSim_stream b t b' t' : capSim b t b' t' -> stream b' t' = stream b t.
Proof.
  intros (n & Hl & Hl' & Hb & _ & ->). unfold stream.
  rewrite Hl, Hl', Hb. simpl. now rewrite pending_trunc.
Qed.

Lemma rd_Read_trunc k n t bs e lim' t1 :
  rd_Read k (Some n) t = (bs, e, lim', t1) ->
  exists n',
    lim' = Some n' /\
    rd_Read k None (trunc (Z.to_nat n) t) = (bs, e, None, trunc (Z.to_nat n') t1).
Proof.
  simpl. unfold LimitedReader_Read.
  destruct (Z.leb_spec n 0) as [Hn|Hn].
  - intros H. injection H as <- <- <- <-. exists n. split; auto.
    replace (Z.to_nat n) with 0 by lia. reflexivity.
  - set (k' := if (n <? Z.of_nat k)%Z then Z.to_nat n else k).
    assert (Hk' : k' = Nat.min k (Z.to_nat n)).
    { unfold k'. destruct (Z.ltb_spec n (Z.of_nat k)); lia. }
    destruct (conn_Read k' t) as [[bs0 e0] t0] eqn:E.
    intros H. injection H as <- <- <- <-.
    exists (n - Z.of_nat (length bs0))%Z. split; auto.
    rewrite Hk' in E.
    destruct (conn_Read_spec _ _ _ _ _ E) as (_ & Hlen & _).
    rewrite (conn_Read_trunc k (Z.to_nat n) t bs0 e0 t0) by (auto; lia).
    do 2 f_equal. lia.
Qed.

Lemma fill_sim b t b' t' :
  capSim b t b' t' ->
  capSim (fst (fill b t)) (snd (fill b t)) (fst (fill b' t')) (snd (fill b' t')).
Proof.
  intros (n & Hl & Hl' & Hb & He & ->). unfold fill.
  rewrite Hl, Hl', Hb, He.
  destruct (rd_Read _ (Some n) t) as [[[bs e] lim1] t1] eqn:E.
  destruct (rd_Read_trunc _ _ _ _ _ _ _ E) as (n' & -> & ->).
  simpl. exists n'. simpl. auto.
Qed.

Lemma ReadSlice_loop_sim fuel delim b t b' t' :
  capSim b t b' t' ->
  match ReadSlice_loop fuel delim b t, ReadSlice_loop fuel delim b' t' with
  | Some r, Some r' => simOut r r'
  | None, None => True
  | _, _ => False
  end.
Proof.
  revert b t b' t'. induction fuel as [|fuel IH]; intros b t b' t' Hsim;
    rewrite !ReadSlice_loop_eq;
    pose proof Hsim as (n & Hl & Hl' & Hb & He & Ht);
    rewrite Hb, He;
    (destruct (IndexByte (buf b) delim);
     [split; simpl; auto; exists n; simpl; auto|]);
    (destruct (rerr b);
     [split; simpl; auto; exists n; simpl; auto|]);
    (destruct (defaultBufSize <=? length (buf b));
     [split; simpl; auto; exists n; simpl; auto|]); auto.
  pose proof (fill_sim _ _ _ _ Hsim) as Hf.
  destruct (fill b t) as [b1 t1]. destruct (fill b' t') as [b1' t1'].
  apply IH. exact Hf.
Qed.

Lemma ReadSlice_sim delim b t b' t' :
  capSim b t b' t' -> simOut (ReadSlice delim b t) (ReadSlice delim b' t').
Proof.
  intros Hsim. unfold ReadSlice.
  pose proof (ReadSlice_loop_sim defaultBufSize delim _ _ _ _ Hsim) as H.
  destruct (ReadSlice_loop defaultBufSize delim b t) as [r|];
    destruct (ReadSlice_loop defaultBufSize delim b' t') as [r'|];
    try contradiction; auto.
  destruct Hsim as (n & Hl & Hl' & Hb & He & Ht).
  split; simpl; [now rewrite Hb|]. exists n. auto.
Qed.

Lemma bufio_ReadLine_sim b t b' t' :
  capSim b t b' t' -> simOut (bufio_ReadLine b t) (bufio_ReadLine b' t').
Proof.
  intros Hsim. unfold bufio_ReadLine.
  pose proof (ReadSlice_sim LF _ _ _ _ Hsim) as [Hv Hs].
  destruct (ReadSlice LF b t) as [[[line e] b1] t1].
  destruct (ReadSlice LF b' t') as [[[line' e'] b1'] t1'].
  simpl in Hv, Hs. injection Hv as <- <-.
  assert (Hcr : capSim {| buf := CR :: buf b1; limN := limN b1; rerr := rerr b1 |} t1
                       {| buf := CR :: buf b1'; limN := limN b1'; rerr := rerr b1' |} t1').
  { destruct Hs as (n & Hl & Hl' & Hb & He & Ht). exists n. simpl.
    rewrite Hb. auto. }
  destruct e as [[]|].
  1-3,5: destruct line; split; simpl; auto.
  destruct (endsWith line CR); split; simpl; auto.
Qed.

Lemma readLineSlice_loop_sim fuel acc b t b' t' :
  capSim b t b' t' ->
  match readLineSlice_loop fuel acc b t, readLineSlice_loop fuel acc b' t' with
  | Some r, Some r' => simOut r r'
  | None, None => True
  | _, _ => False
  end.
Proof.
  revert acc b t b' t'. induction fuel as [|fuel IH]; intros acc b t b' t' Hsim;
    simpl; auto.
  pose proof (bufio_ReadLine_sim _ _ _ _ Hsim) as [Hv Hs].
  destruct (bufio_ReadLine b t) as [[[[l more] e] b1] t1].
  destruct (bufio_ReadLine b' t') as [[[[l' more'] e'] b1'] t1'].
  simpl in Hv, Hs. injection Hv as <- <- <-.
  destruct e; [split; simpl; auto|].
  destruct more; [now apply IH|split; simpl; auto].
Qed.

Lemma textproto_ReadLine_sim b t b' t' :
  capSim b t b' t' ->
  simOut (textproto_ReadLine b t) (textproto_ReadLine b' t').
Proof.
  intros Hsim. unfold textproto_ReadLine, io_fuel.
  rewrite (capSim_stream _ _ _ _ Hsim).
  pose proof (readLineSlice_loop_sim (S (length (stream b t))) [] _ _ _ _ Hsim)
    as H.
  destruct (readLineSlice_loop _ [] b t) as [r|];
    destruct (readLineSlice_loop _ [] b' t') as [r'|];
    try contradiction; auto.
  split; simpl; auto.
Qed.

Lemma ReadDotLines_loop_sim fuel v b t b' t' :
  capSim b t b' t' ->
  match ReadDotLines_loop fuel v b t, ReadDotLines_loop fuel v b' t' with
  | Some r, Some r' => simOut r r'
  | None, None => True
  | _, _ => False
  end.
Proof.
  revert v b t b' t'. induction fuel as [|fuel IH]; intros v b t b' t' Hsim;
    simpl; auto.
  pose proof (textproto_ReadLine_sim _ _ _ _ Hsim) as [Hv Hs].
  destruct (textproto_ReadLine b t) as [[[line e] b1] t1].
  destruct (textproto_ReadLine b' t') as [[[line' e'] b1'] t1'].
  simpl in Hv, Hs. injection Hv as <- <-.
  destruct e; [split; simpl; auto|].
  destruct line as [|c rest]; [now apply IH|].
  destruct (Ascii.eqb c DOT); [|now apply IH].
  destruct rest; [split; simpl; auto|now apply IH].
Qed.

Lemma ReadDotLines_sim b t b' t' :
  capSim b t b' t' -> simOut (ReadDotLines b t) (ReadDotLines b' t').
Proof.
  intros Hsim. unfold ReadDotLines, io_fuel.
  rewrite (capSim_stream _ _ _ _ Hsim).
  pose proof (ReadDotLines_loop_sim (S (length (stream b t))) [] _ _ _ _ Hsim)
    as H.
  destruct (ReadDotLines_loop _ [] b t) as [r|];
    destruct (ReadDotLines_loop _ [] b' t') as [r'|];
    try contradiction; auto.
  split; simpl; auto.
Qed.

(** ** The connection under a limit *)

Section Limit.

Context {AuthUser : Type}.
Variable unicodeToUpper : gostring -> gostring.

Implicit Types (c : @Conn AuthUser).

Lemma tp_sim now c c' :
  connSim c c' ->
  capSim (fst (tp (SetReadDeadline now c)))
         (incoming (conn (snd (tp (SetReadDeadline now c)))))
         (fst (tp (SetReadDeadline now c')))
         (incoming (conn (snd (tp (SetReadDeadline now c'))))).
Proof.
  unfold connSim, tp. simpl.
  destruct (textProto c) as [b|], (textProto c') as [b'|]; try contradiction;
    simpl; auto.
  intros (Hpos & Hnon & Ht).
  replace (0 <? MaxSize c)%Z with true by (symmetry; apply Z.ltb_lt; lia).
  replace (0 <? MaxSize c')%Z with false by (symmetry; apply Z.ltb_ge; lia).
  simpl. exists (MaxSize c). simpl. auto.
Qed.

Lemma after_read_sim c1 c1' r t r' t' :
  capSim r t r' t' -> connSim (after_read c1 r t) (after_read c1' r' t').
Proof. intros H. unfold connSim. simpl. exact H. Qed.

Lemma doRead_sim k c c' :
  connSim c c' ->
  fst (doRead unicodeToUpper k c) = fst (doRead unicodeToUpper k c') /\
  connSim (snd (doRead unicodeToUpper k c)) (snd (doRead unicodeToUpper k c')).
Proof.
  intros Hsim. destruct k as [now|now|now]; simpl;
    unfold ReadSMTP, ReadLine, ReadData;
    pose proof (tp_sim now _ _ Hsim) as Htp;
    destruct (tp (SetReadDeadline now c)) as [r c1];
    destruct (tp (SetReadDeadline now c')) as [r' c1'];
    simpl in Htp.
  - pose proof (textproto_ReadLine_sim _ _ _ _ Htp) as [Hv Hs].
    destruct (textproto_ReadLine r _) as [[[line e] r1] t1].
    destruct (textproto_ReadLine r' _) as [[[line' e'] r1'] t1'].
    simpl in Hv, Hs. injection Hv as <- <-.
    destruct e; simpl; split; auto using after_read_sim.
  - pose proof (textproto_ReadLine_sim _ _ _ _ Htp) as [Hv Hs].
    destruct (textproto_ReadLine r _) as [[[line e] r1] t1].
    destruct (textproto_ReadLine r' _) as [[[line' e'] r1'] t1'].
    simpl in Hv, Hs. injection Hv as <- <-.
    simpl; split; auto using after_read_sim.
  - pose proof (ReadDotLines_sim _ _ _ _ Htp) as [Hv Hs].
    destruct (ReadDotLines r _) as [[[ls e] r1] t1].
    destruct (ReadDotLines r' _) as [[[ls' e'] r1'] t1'].
    simpl in Hv, Hs. injection Hv as <- <-.
    simpl; split; auto using after_read_sim.
Qed.

Lemma runReads_sim ks c c' :
  connSim c c' ->
  fst (runReads unicodeToUpper ks c) = fst (runReads unicodeToUpper ks c').
Proof.
  revert c c'. induction ks as [|k ks IH]; intros c c' Hsim; simpl; auto.
  destruct (doRead_sim k c c' Hsim) as [Hv Hs].
  destruct (doRead unicodeToUpper k c) as [[out e] c1].
  destruct (doRead unicodeToUpper k c') as [[out' e'] c1'].
  simpl in Hv, Hs. injection Hv as <- <-.
  specialize (IH c1 c1' Hs).
  destruct (runReads unicodeToUpper ks c1) as [outs c2].
  destruct (runReads unicodeToUpper ks c1') as [outs' c2'].
  simpl in *. now rewrite IH.
Qed.

(** The errors a read can return: those of a closed connection. *)
Lemma doRead_errors k c :
  decoderOK c ->
  let e := snd (fst (doRead unicodeToUpper k c)) in
  (e = None \/ e = Some EOF \/ e = Some ErrUnexpectedEOF) /\
  decoderOK (snd (doRead unicodeToUpper k c)).
Proof.
  intros Hok. destruct k as [now|now|now]; simpl;
    unfold ReadSMTP, ReadLine, ReadData;
    destruct (connStream_deadline now c) as [_ Ho];
    destruct (tp_spec (SetReadDeadline now c))
      as (r & c1 & -> & _ & _ & _ & Hr & _);
    specialize (Hr (Ho Hok)).
  - destruct (textproto_ReadLine r _) as [[[line e] r1] t1] eqn:E.
    destruct (textproto_ReadLine_spec _ _ _ _ _ _ Hr E) as (Hok1 & Hcase).
    destruct e as [x|]; simpl; [destruct Hcase as [-> _]|]; auto.
  - destruct (textproto_ReadLine r _) as [[[line e] r1] t1] eqn:E.
    destruct (textproto_ReadLine_spec _ _ _ _ _ _ Hr E) as (Hok1 & Hcase).
    destruct e as [x|]; simpl; [destruct Hcase as [-> _]|]; auto.
  - destruct (ReadDotLines r _) as [[[ls e] r1] t1] eqn:E.
    destruct (ReadDotLines_spec _ _ _ _ _ _ Hr E) as (Hok1 & [->| ->]);
      simpl; auto.
Qed.

Lemma runReads_errors ks c :
  decoderOK c ->
  Forall (fun r => snd r = None \/ snd r = Some EOF \/
                   snd r = Some ErrUnexpectedEOF)
         (fst (runReads unicodeToUpper ks c)).
Proof.
  revert c. induction ks as [|k ks IH]; intros c Hok; simpl; [constructor|].
  destruct (doRead_errors k c Hok) as [He Hok1].
  destruct (doRead unicodeToUpper k c) as [[out e] c1].
  specialize (IH c1 Hok1).
  destruct (runReads unicodeToUpper ks c1) as [outs c2].
  simpl in *. constructor; auto.
Qed.

Lemma onStream_same c : onStream (incoming (conn c)) c = c.
Proof. destruct c as [[t d] ? ? ? ? ? ? ? ? ? ? ?]. reflexivity. Qed.

(** C2 (as amended).  On a connection whose MaxSize is N > 0 when the
    decoder is built, every sequence of reads returns what it returns on
    the same connection without a limit whose peer closes after N bytes.
    So when the connection delivers at most N bytes in all, the limit
    changes no result, and a CRLF line within the first N bytes is read
    whole; and a read that meets the limit ends as a read of a closed
    connection does: with io.EOF or io.ErrUnexpectedEOF, or with a line cut
    short and no error. *)
Theorem MaxSize_reads_as_truncated ks c :
  (0 < MaxSize c)%Z ->
  textProto c = None ->
  let n := Z.to_nat (MaxSize c) in
  fst (runReads unicodeToUpper ks c)
  = fst (runReads unicodeToUpper ks
           (onStream (trunc n (incoming (conn c))) (uncapped c))) /\
  (length (pending (incoming (conn c))) <= n ->
   fst (runReads unicodeToUpper ks c)
   = fst (runReads unicodeToUpper ks (uncapped c))) /\
  (forall now l post,
      firstn n (pending (incoming (conn c))) = l ++ CRLF ++ post ->
      ~ In LF l ->
      fst (ReadLine now c) = (l, None)) /\
  Forall (fun r => snd r = None \/ snd r = Some EOF \/
                   snd r = Some ErrUnexpectedEOF)
         (fst (runReads unicodeToUpper ks c)).
Proof.
  intros Hpos Hnone n.
  assert (Hsim : connSim c (onStream (trunc n (incoming (conn c))) (uncapped c))).
  { unfold connSim. simpl. rewrite Hnone. repeat split; auto. lia. }
  assert (Hok : decoderOK c) by (unfold decoderOK; now rewrite Hnone).
  split; [|split; [|split]].
  - now apply runReads_sim.
  - intros Hlen. rewrite (runReads_sim ks _ _ Hsim).
    rewrite trunc_all by exact Hlen.
    change (incoming (conn c)) with (incoming (conn (uncapped c))).
    now rewrite onStream_same.
  - intros now l post Hst Hl.
    destruct (ReadLine_crlf now c l post Hok) as (c' & -> & _); auto.
    unfold connStream. rewrite Hnone.
    replace (0 <? MaxSize c)%Z with true by (symmetry; apply Z.ltb_lt; lia).
    exact Hst.
  - now apply runReads_errors.
Qed.

End Limit.

(** * One decoder per connection *)

Section Decoder.

Context {AuthUser : Type}.
Variable unicodeToUpper : gostring -> gostring.

Implicit Types (c : @Conn AuthUser).

Lemma doRead_built k c :
  let c' := snd (doRead unicodeToUpper k c) in
  textProto c' <> None /\
  tpBuilt c' = match textProto c with
               | Some _ => tpBuilt c
               | None => S (tpBuilt c)
               end.
Proof.
  destruct k as [now|now|now]; simpl;
    unfold ReadSMTP, ReadLine, ReadData;
    destruct (tp_spec (SetReadDeadline now c))
      as (r & c1 & -> & _ & _ & _ & _ & Hb); simpl in Hb.
  - destruct (textproto_ReadLine r _) as [[[line e] r1] t1].
    destruct e; simpl; split; auto; discriminate.
  - destruct (textproto_ReadLine r _) as [[[line e] r1] t1].
    simpl; split; auto; discriminate.
  - destruct (ReadDotLines r _) as [[[ls e] r1] t1].
    simpl; split; auto; discriminate.
Qed.

Lemma doTX_decoder k c :
  textProto (snd (doTX k c)) = textProto c /\
  tpBuilt (snd (doTX k c)) = tpBuilt c.
Proof.
  destruct k as [now from| |]; simpl; unfold StartTX, EndTX;
    try destruct (negb _); try destruct (_ =? _)%Z; simpl; auto.
Qed.

Lemma doCall_inv k c :
  builtOnce c /\ decoderOK c ->
  builtOnce (doCall unicodeToUpper k c) /\
  decoderOK (doCall unicodeToUpper k c).
Proof.
  intros [Hb Hok]. destruct k as [k|k]; simpl.
  - destruct (doTX_decoder k c) as [Ht Hn].
    unfold builtOnce, decoderOK in *. now rewrite Ht, Hn.
  - destruct (doRead_built k c) as [Hs Hn].
    split; [|now apply doRead_errors].
    unfold builtOnce in *. rewrite Hn.
    destruct (textProto (snd (doRead unicodeToUpper k c))); [|congruence].
    destruct (textProto c); lia.
Qed.

(** Every connection reached from a new one has a decoder between calls,
    built once if at all. *)
Lemma run_inv ks t m r w :
  let c := run unicodeToUpper ks (newConn (AuthUser:=AuthUser) t m r w) in
  builtOnce c /\ decoderOK c.
Proof.
  induction ks as [|k ks IH] using rev_ind; simpl.
  - unfold builtOnce, decoderOK. simpl. auto.
  - unfold run. rewrite fold_left_app. simpl. now apply doCall_inv.
Qed.

(** With a decoder in place the reads work on it, whatever MaxSize is. *)
Lemma reads_use_decoder now c r :
  textProto c = Some r ->
  let t := incoming (conn c) in
  let c0 := SetReadDeadline now c in
  ReadLine now c
  = (let '(line, e, r', t') := textproto_ReadLine r t in
     (line, e, after_read c0 r' t')) /\
  ReadData now c
  = (let '(lines, e, r', t') := ReadDotLines r t in
     (Join lines [LF], e, after_read c0 r' t')) /\
  fst (ReadSMTP unicodeToUpper now c)
  = (let '(line, e, r', t') := textproto_ReadLine r t in
     match e with
     | None => (ToUpper unicodeToUpper (beforeSpace line), afterSpace line, None)
     | Some x => ([], [], Some x)
     end).
Proof.
  intros H t c0.
  assert (E : tp c0 = (r, c0)) by (apply tp_built; exact H).
  unfold ReadLine, ReadData, ReadSMTP. fold c0. rewrite E. fold t.
  split; [reflexivity|]. split; [reflexivity|].
  change (incoming (conn c0)) with t.
  destruct (textproto_ReadLine r t) as [[[line e] r'] t'].
  destruct e; [reflexivity|].
  destruct (SplitN_verb_args line) as [-> ->]. reflexivity.
Qed.

(** C9.  On a connection reached from a new one by any calls, the body
    that builds the decoder has run at most once.  A read leaves the
    decoder in place and runs that body only when there was no decoder; tp
    on a connection with a decoder returns that decoder and changes
    nothing, and the reads then work on that decoder and the stream.  So
    of two CRLF lines at the front of the input, buffer included, two
    ReadLine calls return the first and then the second; and when both
    lines arrive in one segment, the first ReadLine empties the stream,
    leaves the second line in the buffer of the decoder, and the second
    ReadLine returns it from there. *)
Theorem decoder_built_once :
  (forall ks t m r w,
      tpBuilt (run unicodeToUpper ks (newConn (AuthUser:=AuthUser) t m r w)) <= 1) /\
  (forall k c,
      let c' := snd (doRead unicodeToUpper k c) in
      textProto c' <> None /\
      tpBuilt c' = match textProto c with
                   | Some _ => tpBuilt c
                   | None => S (tpBuilt c)
                   end) /\
  (forall now c r,
      textProto c = Some r ->
      tp c = (r, c) /\
      ReadLine now c
      = (let '(line, e, r', t') := textproto_ReadLine r (incoming (conn c)) in
         (line, e, after_read (SetReadDeadline now c) r' t')) /\
      ReadData now c
      = (let '(lines, e, r', t') := ReadDotLines r (incoming (conn c)) in
         (Join lines [LF], e, after_read (SetReadDeadline now c) r' t')) /\
      fst (ReadSMTP unicodeToUpper now c)
      = (let '(line, e, r', t') := textproto_ReadLine r (incoming (conn c)) in
         match e with
         | None =>
             (ToUpper unicodeToUpper (beforeSpace line), afterSpace line, None)
         | Some x => ([], [], Some x)
         end)) /\
  (forall now1 now2 c l1 l2 post,
      decoderOK c ->
      connStream c = l1 ++ CRLF ++ l2 ++ CRLF ++ post ->
      ~ In LF l1 -> ~ In LF l2 ->
      exists c1 c2,
        ReadLine now1 c = (l1, None, c1) /\
        connStream c1 = l2 ++ CRLF ++ post /\
        ReadLine now2 c1 = (l2, None, c2) /\
        connStream c2 = post) /\
  (let c := newConn (AuthUser:=AuthUser)
              (segments [str "a" ++ CRLF ++ str "b" ++ CRLF]) 0 0 0 in
   let c1 := snd (ReadLine 1 c) in
   fst (ReadLine 1 c) = (str "a", None) /\
   incoming (conn c1) = [] /\
   option_map buf (textProto c1) = Some (str "b" ++ CRLF) /\
   fst (ReadLine 2 c1) = (str "b", None)).
Proof.
  split; [|split; [|split; [|split]]].
  - intros ks t m r w. destruct (run_inv ks t m r w) as [Hb _].
    unfold builtOnce in Hb. rewrite Hb.
    destruct (textProto _); lia.
  - apply doRead_built.
  - intros now c r H. split; [now apply tp_built|].
    now apply reads_use_decoder.
  - intros now1 now2 c l1 l2 post Hok Hst H1 H2.
    destruct (ReadLine_crlf now1 c l1 (l2 ++ CRLF ++ post) Hok Hst H1)
      as (c1 & E1 & Hok1 & Hst1).
    destruct (ReadLine_crlf now2 c1 l2 post Hok1 Hst1 H2)
      as (c2 & E2 & _ & Hst2).
    exists c1, c2. auto.
  - vm_compute. repeat split.
Qed.

End Decoder.

(** * More on the transaction calls *)

Section TransactionsMore.

Context {AuthUser : Type}.

Implicit Types (c : @Conn AuthUser) (ks : list txCall) (k : txCall).

Lemma Reset_doTX k c : Reset (snd (doTX k c)) = Reset c.
Proof.
  destruct k as [now from| |]; simpl; unfold StartTX, EndTX;
    try destruct (negb _); try destruct (_ =? _)%Z; reflexivity.
Qed.

(** X1.  Reset forgets every transaction call made before it: after any
    StartTX, EndTX and Reset calls, on any connection, a Reset leaves the
    connection that a Reset alone would have left. *)
Theorem Reset_absorbs ks c : Reset (runTX ks c) = Reset c.
Proof.
  induction ks as [|k ks IH] using rev_ind; [reflexivity|].
  now rewrite runTX_snoc, Reset_doTX.
Qed.

Lemma doTX_frame k c :
  let c' := snd (doTX k c) in
  conn c' = conn c /\ IsTLS c' = IsTLS c /\ Errors c' = Errors c /\
  MaxSize c' = MaxSize c /\ ReadTimeout c' = ReadTimeout c /\
  WriteTimeout c' = WriteTimeout c /\ textProto c' = textProto c /\
  (notReset k -> ToAddr c' = ToAddr c /\ User c' = User c).
Proof.
  destruct k as [now from| |]; simpl; unfold StartTX, EndTX;
    try destruct (negb _); try destruct (_ =? _)%Z; simpl;
    do 7 (split; [reflexivity|]); try (intros _; split; reflexivity).
  intros [].
Qed.

(** X2.  No sequence of StartTX, EndTX and Reset calls touches the stream,
    the decoder, IsTLS, Errors, MaxSize or the timeouts; and without a
    Reset among them ToAddr and User stay as they were, so the recipients
    of a transaction that EndTX closed are still there when the next
    StartTX opens another. *)
Theorem runTX_frame ks c :
  let c' := runTX ks c in
  conn c' = conn c /\ IsTLS c' = IsTLS c /\ Errors c' = Errors c /\
  MaxSize c' = MaxSize c /\ ReadTimeout c' = ReadTimeout c /\
  WriteTimeout c' = WriteTimeout c /\ textProto c' = textProto c /\
  (Forall notReset ks -> ToAddr c' = ToAddr c /\ User c' = User c).
Proof.
  induction ks as [|k ks IH] using rev_ind; simpl.
  - do 7 (split; [reflexivity|]). auto.
  - rewrite runTX_snoc.
    destruct IH as (I1 & I2 & I3 & I4 & I5 & I6 & I7 & I8).
    destruct (doTX_frame k (runTX ks c)) as (F1 & F2 & F3 & F4 & F5 & F6 & F7 & F8).
    do 7 (split; [congruence|]).
    intros H. apply Forall_app in H as [Hks Hk]. apply Forall_inv in Hk.
    destruct (I8 Hks) as [A B]. destruct (F8 Hk) as [C D]. split; congruence.
Qed.

(** X3.  While a transaction is open on a connection that was new, its
    token and FromAddr are those of the StartTX that opened it: the calls
    end in a StartTX made on no open transaction, followed by StartTX calls
    only, and none of these later calls has changed the token or the
    sender. *)
Theorem open_carries_its_start t m r w ks :
  let c0 := newConn (AuthUser:=AuthUser) t m r w in
  transaction (runTX ks c0) <> 0%Z ->
  exists p1 now from p2,
    ks = p1 ++ CallStartTX now from :: p2 /\
    transaction (runTX p1 c0) = 0%Z /\
    Forall isStartTX p2 /\
    transaction (runTX ks c0) = int_of now /\
    FromAddr (runTX ks c0) = from.
Proof.
  intros c0. induction ks as [|k ks IH] using rev_ind.
  - simpl. congruence.
  - rewrite runTX_snoc. set (c := runTX ks c0) in *.
    destruct k as [now from| |]; simpl.
    + destruct (Z.eq_dec (transaction c) 0) as [E|E].
      * destruct (StartTX_idle now from c E) as (_ & Htx & Hfrom). intros _.
        exists ks, now, from, []. repeat split; auto.
      * rewrite (StartTX_open now from c E). simpl. intros _.
        destruct (IH E) as (p1 & now' & from' & p2 & -> & H0 & Hp2 & Htx & Hfrom).
        exists p1, now', from', (p2 ++ [CallStartTX now from]).
        split; [now rewrite <- app_assoc|]. repeat split; auto.
        apply Forall_app. split; auto. constructor; simpl; auto.
    + rewrite EndTX_transaction. congruence.
    + congruence.
Qed.

Lemma endedTX_bound ks c :
  endedTX ks c <= startedTX ks c + (if (transaction c =? 0)%Z then 0 else 1).
Proof.
  revert c. induction ks as [|k ks IH]; intros c; simpl; [lia|].
  specialize (IH (snd (doTX k c))).
  destruct k as [now from| |]; simpl in *.
  - unfold StartTX in *. destruct (Z.eqb_spec (transaction c) 0) as [E|E];
      simpl in *.
    + destruct (int_of now =? 0)%Z; lia.
    + destruct (Z.eqb_spec (transaction c) 0); [contradiction|]. lia.
  - unfold EndTX in *. destruct (Z.eqb_spec (transaction c) 0) as [E|E];
      simpl in *.
    + rewrite E in IH. simpl in IH. lia.
    + simpl in IH. lia.
  - lia.
Qed.

(** X4.  On a connection with no transaction open, whatever StartTX, EndTX
    and Reset calls follow, EndTX never succeeds more often than StartTX
    has; no clock reading is excluded. *)
Theorem endedTX_le_startedTX ks c :
  transaction c = 0%Z -> endedTX ks c <= startedTX ks c.
Proof.
  intros H. pose proof (endedTX_bound ks c) as B. rewrite H in B.
  simpl in B. lia.
Qed.

End TransactionsMore.

(** * More on the line decoder *)

(** ** Lines ended by a bare line feed *)

Lemma stripCR_snoc q x :
  stripCR (q ++ [x]) = if Ascii.eqb x CR then q else q ++ [x].
Proof. unfold stripCR. now rewrite endsWith_snoc, removelast_last. Qed.

Lemma stripCR_app p q : q <> [] -> stripCR (p ++ q) = p ++ stripCR q.
Proof.
  intros Hq. destruct (exists_last Hq) as (q' & x & ->).
  rewrite app_assoc, !stripCR_snoc. destruct (Ascii.eqb x CR); auto.
  now rewrite app_assoc.
Qed.

Lemma stripCR_keep p : endsWith p CR = false -> stripCR p = p.
Proof. intros H. unfold stripCR. now rewrite H. Qed.

Lemma dropEOL_lf pre : dropEOL (pre ++ [LF]) = stripCR pre.
Proof.
  unfold dropEOL. rewrite endsWith_snoc. simpl Ascii.eqb. cbv iota.
  destruct pre as [|a q] using rev_ind; [reflexivity|]. clear IHq.
  rewrite stripCR_snoc, <- app_assoc. simpl app.
  rewrite length_app. simpl length.
  replace (length q + 2 - 2) with (length q) by lia.
  rewrite nth_middle.
  replace (1 <? length q + 2) with true by (symmetry; apply Nat.ltb_lt; lia).
  simpl andb. destruct (Ascii.eqb a CR).
  - replace (length q + 2 - 2) with (length q + 0) by lia.
    now rewrite firstn_app_2, app_nil_r.
  - replace (length q + 2 - 1) with (length (q ++ [a])) by (rewrite length_app; simpl; lia).
    change (q ++ [a; LF]) with (q ++ [a] ++ [LF]). rewrite app_assoc.
    replace (length (q ++ [a])) with (length (q ++ [a]) + 0) by lia.
    now rewrite firstn_app_2, app_nil_r.
Qed.

Lemma bufio_ReadLine_short_lf b t pre post :
  readerOK b ->
  stream b t = pre ++ LF :: post -> ~ In LF pre ->
  length pre < defaultBufSize ->
  exists b' t',
    bufio_ReadLine b t = (stripCR pre, false, None, b', t') /\
    readerOK b' /\ stream b' t' = post.
Proof.
  intros [He Hlen] Hst Hpre Hshort.
  pose proof (ReadSlice_spec b t He Hlen) as HS.
  destruct (ReadSlice LF b t) as [[[line0 e0] b0] t0] eqn:ES.
  destruct HS as (Hs & He0 & Hlen0 & Hl0 & Hcase).
  destruct e0 as [[]|]; try contradiction.
  - destruct Hcase as (HnoLF & Hs0 & _). exfalso. apply HnoLF.
    rewrite Hs0, app_nil_r in Hs. rewrite <- Hs, Hst. apply in_elt.
  - destruct Hcase as (Hfull & HnoLF & _). exfalso.
    rewrite Hs in Hst.
    destruct (prefix_before _ _ _ _ _ Hst HnoLF) as (w & E & _).
    apply (f_equal (@length _)) in E. rewrite !length_app in E. lia.
  - destruct Hcase as (pre' & -> & Hpre').
    rewrite Hs, <- app_assoc in Hst. simpl in Hst.
    destruct (first_split _ _ _ _ _ Hst Hpre' Hpre) as [-> <-].
    exists b0, t0. split; [|split; [split|]; auto].
    rewrite (bufio_ReadLine_line _ _ _ _ _ _ ES); [|congruence|now destruct pre].
    now rewrite dropEOL_lf.
Qed.

Lemma bufio_ReadLine_long_lf b t pre post :
  readerOK b ->
  stream b t = pre ++ LF :: post -> ~ In LF pre ->
  defaultBufSize <= length pre ->
  exists p pre' b' t',
    bufio_ReadLine b t = (p, true, None, b', t') /\
    pre = p ++ pre' /\ p <> [] /\
    (pre' <> [] \/ endsWith p CR = false) /\
    readerOK b' /\ stream b' t' = pre' ++ LF :: post.
Proof.
  intros [He Hlen] Hst Hpre Hlong.
  pose proof (ReadSlice_spec b t He Hlen) as HS.
  destruct (ReadSlice LF b t) as [[[line0 e0] b0] t0] eqn:ES.
  destruct HS as (Hs & He0 & Hlen0 & Hl0 & Hcase).
  pose proof bufSize_ge_2 as Hsz.
  destruct e0 as [[]|]; try contradiction.
  - destruct Hcase as (HnoLF & Hs0 & _). exfalso. apply HnoLF.
    rewrite Hs0, app_nil_r in Hs. rewrite <- Hs, Hst. apply in_elt.
  - destruct Hcase as (Hfull & HnoLF & Hb0).
    rewrite Hs in Hst.
    destruct (prefix_before _ _ _ _ _ Hst HnoLF) as (w & E & Hw).
    rewrite (bufio_ReadLine_full _ _ _ _ _ ES).
    destruct line0 as [|a0 q] using rev_ind; [simpl in Hfull; lia|]. clear IHq.
    rewrite endsWith_snoc, removelast_last.
    rewrite length_app in Hfull. simpl in Hfull.
    destruct (Ascii.eqb_spec a0 CR) as [->|Hx].
    + exists q, (CR :: w),
        {| buf := CR :: buf b0; limN := limN b0; rerr := rerr b0 |}, t0.
      split; [reflexivity|]. split; [now rewrite E, <- app_assoc|].
      split; [destruct q; [simpl in Hfull; lia|discriminate]|].
      split; [left; discriminate|].
      split; [split; simpl; auto; rewrite Hb0; simpl; lia|].
      unfold stream. simpl. rewrite Hb0. unfold stream in Hw.
      rewrite Hb0 in Hw. simpl in Hw. now rewrite Hw.
    + exists (q ++ [a0]), w, b0, t0.
      split; [reflexivity|]. split; [exact E|].
      split; [now destruct q|].
      split; [right; rewrite endsWith_snoc; now apply Ascii.eqb_neq|].
      split; [split; auto|exact Hw].
  - destruct Hcase as (pre' & -> & Hpre'). exfalso.
    rewrite Hs, <- app_assoc in Hst. simpl in Hst.
    destruct (first_split _ _ _ _ _ Hst Hpre' Hpre) as [-> _].
    rewrite !length_app in Hl0. simpl in Hl0. lia.
Qed.

Lemma readLineSlice_loop_lf fuel acc b t pre post :
  length pre < fuel ->
  readerOK b ->
  stream b t = pre ++ LF :: post -> ~ In LF pre ->
  exists b' t',
    readLineSlice_loop fuel acc b t = Some (acc ++ stripCR pre, None, b', t') /\
    readerOK b' /\ stream b' t' = post.
Proof.
  revert acc b t pre. induction fuel as [|fuel IH];
    intros acc b t pre Hf Hok Hst Hpre; [lia|].
  simpl. destruct (Nat.lt_ge_cases (length pre) defaultBufSize) as [Hs|Hg].
  - destruct (bufio_ReadLine_short_lf _ _ _ _ Hok Hst Hpre Hs)
      as (b' & t' & -> & H). eauto.
  - destruct (bufio_ReadLine_long_lf _ _ _ _ Hok Hst Hpre Hg)
      as (p & pre' & b1 & t1 & -> & -> & Hp & Hend & Hok1 & Hst1).
    destruct (IH (acc ++ p) b1 t1 pre') as (b' & t' & -> & H); auto.
    + rewrite length_app in Hf. destruct p; [contradiction|]. simpl in Hf. lia.
    + intros HIn. apply Hpre. apply in_or_app. auto.
    + exists b', t'. split; [|exact H]. do 4 f_equal.
      rewrite <- app_assoc. f_equal.
      destruct pre' as [|a l].
      * destruct Hend as [Hend|Hend]; [congruence|].
        rewrite !app_nil_r. now rewrite (stripCR_keep p Hend).
      * symmetry. apply stripCR_app. discriminate.
Qed.

Lemma textproto_ReadLine_lf b t pre post :
  readerOK b ->
  stream b t = pre ++ LF :: post -> ~ In LF pre ->
  exists b' t',
    textproto_ReadLine b t = (stripCR pre, None, b', t') /\
    readerOK b' /\ stream b' t' = post.
Proof.
  intros Hok Hst Hpre. unfold textproto_ReadLine.
  destruct (readLineSlice_loop_lf (io_fuel b t) [] b t pre post)
    as (b' & t' & -> & H); auto.
  - unfold io_fuel. rewrite Hst, length_app. lia.
  - eauto.
Qed.

(** ** The end of the input *)

Lemma readLineSlice_loop_err fuel acc b t line x b' t' :
  readerOK b ->
  readLineSlice_loop fuel acc b t = Some (line, Some x, b', t') ->
  stream b' t' = [].
Proof.
  revert acc b t. induction fuel as [|fuel IH]; intros acc b t Hok H;
    [discriminate|].
  simpl in H.
  destruct (bufio_ReadLine b t) as [[[[l more] e1] b1] t1] eqn:E.
  destruct (bufio_ReadLine_spec _ _ _ _ _ _ _ Hok E) as (Hok1 & Hcase).
  destruct e1 as [y|].
  - injection H as <- <- <- <-. now destruct Hcase as (_ & _ & ?).
  - destruct more; [eauto|discriminate].
Qed.

Lemma textproto_ReadLine_err b t line x b' t' :
  readerOK b ->
  textproto_ReadLine b t = (line, Some x, b', t') ->
  x = EOF /\ line = [] /\ stream b' t' = [] /\ readerOK b'.
Proof.
  intros Hok H.
  destruct (textproto_ReadLine_spec _ _ _ _ _ _ Hok H) as (Hok' & -> & ->).
  do 2 (split; [reflexivity|]). split; [|exact Hok'].
  unfold textproto_ReadLine in H.
  destruct (readLineSlice_loop_total (io_fuel b t) [] b t Hok) as [r E];
    [unfold io_fuel; lia|].
  rewrite E in H. subst r.
  exact (readLineSlice_loop_err _ _ _ _ _ _ _ _ Hok E).
Qed.

Lemma textproto_ReadLine_empty b t :
  readerOK b -> stream b t = [] ->
  exists b' t',
    textproto_ReadLine b t = ([], Some EOF, b', t') /\
    readerOK b' /\ stream b' t' = [].
Proof.
  intros Hok Hst.
  destruct (textproto_ReadLine b t) as [[[line e] b'] t'] eqn:E.
  destruct e as [x|].
  - destruct (textproto_ReadLine_err _ _ _ _ _ _ Hok E) as (-> & -> & ? & ?).
    eauto.
  - destruct (textproto_ReadLine_spec _ _ _ _ _ _ Hok E) as (_ & Hlt).
    rewrite Hst in Hlt. simpl in Hlt. lia.
Qed.

Lemma bufio_ReadLine_tail b t l :
  readerOK b ->
  stream b t = l -> l <> [] -> ~ In LF l ->
  length l < defaultBufSize ->
  exists b' t',
    bufio_ReadLine b t = (l, false, None, b', t') /\
    readerOK b' /\ stream b' t' = [].
Proof.
  intros [He Hlen] Hst Hne Hl Hshort.
  pose proof (ReadSlice_spec b t He Hlen) as HS.
  destruct (ReadSlice LF b t) as [[[line0 e0] b0] t0] eqn:ES.
  destruct HS as (Hs & He0 & Hlen0 & Hl0 & Hcase).
  destruct e0 as [[]|]; try contradiction.
  - destruct Hcase as (HnoLF & Hs0 & _).
    rewrite Hs0, app_nil_r in Hs. rewrite Hst in Hs. subst line0.
    exists b0, t0. split; [|split; [split|]; auto].
    rewrite (bufio_ReadLine_line _ _ _ _ _ _ ES); [|congruence|auto].
    now rewrite dropEOL_noLF.
  - destruct Hcase as (Hfull & _ & _). exfalso.
    rewrite Hst in Hs. apply (f_equal (@length _)) in Hs.
    rewrite length_app in Hs. lia.
  - destruct Hcase as (pre & -> & _). exfalso. apply Hl.
    rewrite <- Hst, Hs. apply in_or_app. left. apply in_elt.
Qed.

Lemma textproto_ReadLine_tail b t l :
  readerOK b ->
  stream b t = l -> l <> [] -> ~ In LF l ->
  length l < defaultBufSize ->
  exists b' t',
    textproto_ReadLine b t = (l, None, b', t') /\
    readerOK b' /\ stream b' t' = [].
Proof.
  intros Hok Hst Hne Hl Hshort. unfold textproto_ReadLine, io_fuel.
  simpl readLineSlice_loop.
  destruct (bufio_ReadLine_tail b t l Hok Hst Hne Hl Hshort)
    as (b' & t' & -> & H). simpl. eauto.
Qed.

(** ** Data blocks *)

Lemma ReadDotLines_loop_len fuel v b t ls b' t' :
  readerOK b ->
  ReadDotLines_loop fuel v b t = Some (ls, None, b', t') ->
  length (stream b' t') < length (stream b t).
Proof.
  revert v b t. induction fuel as [|fuel IH]; intros v b t Hok H;
    [discriminate|].
  simpl in H.
  destruct (textproto_ReadLine b t) as [[[line e1] b1] t1] eqn:E.
  destruct (textproto_ReadLine_spec _ _ _ _ _ _ Hok E) as (Hok1 & Hcase).
  destruct e1 as [x|]; [discriminate|].
  assert (Hrec : forall w,
             ReadDotLines_loop fuel w b1 t1 = Some (ls, None, b', t') ->
             length (stream b' t') < length (stream b t)).
  { intros w Hw. specialize (IH w b1 t1 Hok1 Hw). lia. }
  destruct line as [|c rest]; [eauto|].
  destruct (Ascii.eqb c DOT); [|eauto].
  destruct rest; [|eauto]. injection H as <- <- <-. exact Hcase.
Qed.

Lemma ReadDotLines_len b t ls b' t' :
  readerOK b ->
  ReadDotLines b t = (ls, None, b', t') ->
  length (stream b' t') < length (stream b t).
Proof.
  intros Hok H. unfold ReadDotLines in H.
  destruct (ReadDotLines_loop_total (io_fuel b t) [] b t Hok) as [r E];
    [unfold io_fuel; lia|].
  rewrite E in H. subst r. eapply ReadDotLines_loop_len; eauto.
Qed.

Lemma lfLines_cons l ls rest :
  lfLines (l :: ls) ++ rest = l ++ LF :: lfLines ls ++ rest.
Proof. unfold lfLines. simpl. now rewrite <- !app_assoc. Qed.

Lemma lfLines_length ls : length ls <= length (lfLines ls).
Proof.
  unfold lfLines. induction ls as [|l ls IH]; simpl; [lia|].
  rewrite !length_app. simpl. lia.
Qed.

Lemma ReadDotLines_step fuel v b t l rest :
  readerOK b ->
  stream b t = l ++ LF :: rest -> wireLine l ->
  exists b1 t1,
    ReadDotLines_loop (S fuel) v b t
    = ReadDotLines_loop fuel (v ++ [undot (stripCR l)]) b1 t1 /\
    readerOK b1 /\ stream b1 t1 = rest.
Proof.
  intros Hok Hst [Hl Hdot]. simpl ReadDotLines_loop.
  destruct (textproto_ReadLine_lf b t l rest Hok Hst Hl)
    as (b1 & t1 & -> & Hok1 & Hst1).
  exists b1, t1. split; [|auto].
  destruct (stripCR l) as [|c rest']; [reflexivity|].
  unfold undot. destruct (Ascii.eqb_spec c DOT) as [->|Hc]; [|reflexivity].
  destruct rest'; [congruence|reflexivity].
Qed.

Lemma ReadDotLines_loop_lf ls fuel v b t term post :
  length ls < fuel ->
  readerOK b ->
  stream b t = lfLines ls ++ term ++ LF :: post ->
  Forall wireLine ls ->
  ~ In LF term -> stripCR term = [DOT] ->
  exists b' t',
    ReadDotLines_loop fuel v b t
    = Some (v ++ map (fun l => undot (stripCR l)) ls, None, b', t') /\
    readerOK b' /\ stream b' t' = post.
Proof.
  revert fuel v b t. induction ls as [|l ls IH];
    intros fuel v b t Hf Hok Hst Hls Hterm Hdot;
    (destruct fuel as [|fuel]; [simpl in Hf; lia|]).
  - simpl in Hst. simpl ReadDotLines_loop.
    destruct (textproto_ReadLine_lf b t term post Hok Hst Hterm)
      as (b' & t' & -> & H).
    rewrite Hdot. simpl. rewrite app_nil_r. eauto.
  - apply Forall_cons_iff in Hls as [Hl Hls].
    rewrite lfLines_cons in Hst.
    destruct (ReadDotLines_step fuel v b t l _ Hok Hst Hl)
      as (b1 & t1 & -> & Hok1 & Hst1).
    simpl in Hf.
    destruct (IH fuel (v ++ [undot (stripCR l)]) b1 t1) as (b' & t' & -> & H);
      auto; [lia|].
    simpl. rewrite <- app_assoc. simpl. eauto.
Qed.

Lemma ReadDotLines_loop_eof ls fuel v b t :
  length ls < fuel ->
  readerOK b ->
  stream b t = lfLines ls ->
  Forall wireLine ls ->
  exists b' t',
    ReadDotLines_loop fuel v b t
    = Some (v ++ map (fun l => undot (stripCR l)) ls,
            Some ErrUnexpectedEOF, b', t') /\
    readerOK b' /\ stream b' t' = [].
Proof.
  revert fuel v b t. induction ls as [|l ls IH];
    intros fuel v b t Hf Hok Hst Hls;
    (destruct fuel as [|fuel]; [simpl in Hf; lia|]).
  - simpl in Hst. simpl ReadDotLines_loop.
    destruct (textproto_ReadLine_empty b t Hok Hst) as (b' & t' & -> & H).
    simpl. rewrite app_nil_r. eauto.
  - apply Forall_cons_iff in Hls as [Hl Hls].
    rewrite <- (app_nil_r (lfLines (l :: ls))), lfLines_cons, app_nil_r in Hst.
    destruct (ReadDotLines_step fuel v b t l _ Hok Hst Hl)
      as (b1 & t1 & -> & Hok1 & Hst1).
    simpl in Hf.
    destruct (IH fuel (v ++ [undot (stripCR l)]) b1 t1) as (b' & t' & -> & H);
      auto; [lia|].
    simpl. rewrite <- app_assoc. simpl. eauto.
Qed.

Lemma ReadDotLines_loop_err fuel v b t ls x b' t' :
  readerOK b ->
  ReadDotLines_loop fuel v b t = Some (ls, Some x, b', t') ->
  stream b' t' = [].
Proof.
  revert v b t. induction fuel as [|fuel IH]; intros v b t Hok H;
    [discriminate|].
  simpl in H.
  destruct (textproto_ReadLine b t) as [[[line e1] b1] t1] eqn:E.
  destruct e1 as [y|].
  - destruct (textproto_ReadLine_err _ _ _ _ _ _ Hok E) as (_ & _ & Hs & _).
    injection H as <- <- <- <-. exact Hs.
  - destruct (textproto_ReadLine_spec _ _ _ _ _ _ Hok E) as (Hok1 & _).
    destruct line as [|c rest]; [eauto|].
    destruct (Ascii.eqb c DOT); [|eauto].
    destruct rest; [discriminate|eauto].
Qed.

Lemma ReadDotLines_err b t ls x b' t' :
  readerOK b ->
  ReadDotLines b t = (ls, Some x, b', t') ->
  stream b' t' = [].
Proof.
  intros Hok H. unfold ReadDotLines in H.
  destruct (ReadDotLines_loop_total (io_fuel b t) [] b t Hok) as [r E];
    [unfold io_fuel; lia|].
  rewrite E in H. subst r.
  exact (ReadDotLines_loop_err _ _ _ _ _ _ _ _ Hok E).
Qed.

(** ** What a limited decoder takes from the connection *)

Lemma limStep_refl b t : limStep b t b t.
Proof.
  unfold limStep. destruct (limN b) as [n|]; auto.
  intros Hn. exists n. repeat split; auto. lia.
Qed.

Lemma limStep_trans b1 t1 b2 t2 b3 t3 :
  limStep b1 t1 b2 t2 -> limStep b2 t2 b3 t3 -> limStep b1 t1 b3 t3.
Proof.
  unfold limStep. destruct (limN b1) as [n1|].
  - intros H12 H23 Hn. destruct (H12 Hn) as (n2 & E2 & Hn2 & D2).
    rewrite E2 in H23. destruct (H23 Hn2) as (n3 & E3 & Hn3 & D3).
    exists n3. repeat split; auto. lia.
  - intros ->. auto.
Qed.

Lemma limStep_to_same_lim b t b' b1 t' :
  limN b1 = limN b' -> limStep b t b' t' -> limStep b t b1 t'.
Proof.
  unfold limStep. intros E. destruct (limN b); rewrite E; auto.
Qed.

Lemma fill_lim b t : limStep b t (fst (fill b t)) (snd (fill b t)).
Proof.
  unfold limStep, fill.
  destruct (rd_Read _ (limN b) t) as [[[bs e] lim'] t1] eqn:E. simpl.
  destruct (limN b) as [n|]; simpl in E.
  - unfold LimitedReader_Read in E. intros Hn.
    destruct (Z.leb_spec n 0) as [H0|H0].
    + injection E as <- <- <- <-. exists n. repeat split; auto. lia.
    + set (k' := if (n <? _)%Z then Z.to_nat n else _) in E.
      assert (Hk' : k' <= Z.to_nat n).
      { unfold k'. destruct (Z.ltb_spec n
          (Z.of_nat (defaultBufSize - length (buf b)))); lia. }
      destruct (conn_Read k' t) as [[bs0 e0] t0] eqn:Ec.
      injection E as <- <- <- <-.
      destruct (conn_Read_spec _ _ _ _ _ Ec) as (Hp & Hlen & _).
      eexists. split; [reflexivity|]. rewrite Hp, length_app. lia.
  - destruct (conn_Read _ t) as [[bs0 e0] t0]. now injection E as <- <- <- <-.
Qed.

Lemma ReadSlice_loop_lim fuel delim b t line e b' t' :
  ReadSlice_loop fuel delim b t = Some (line, e, b', t') -> limStep b t b' t'.
Proof.
  revert b t. induction fuel as [|fuel IH]; intros b t H;
    rewrite ReadSlice_loop_eq in H;
    (destruct (IndexByte (buf b) delim);
     [injection H as <- <- <- <-;
      apply (limStep_to_same_lim b t b); [reflexivity|apply limStep_refl]|]);
    (destruct (rerr b);
     [injection H as <- <- <- <-;
      apply (limStep_to_same_lim b t b); [reflexivity|apply limStep_refl]|]);
    (destruct (defaultBufSize <=? length (buf b));
     [injection H as <- <- <- <-;
      apply (limStep_to_same_lim b t b); [reflexivity|apply limStep_refl]|]).
  - discriminate.
  - pose proof (fill_lim b t) as Hf. destruct (fill b t) as [b1 t1].
    simpl in Hf. eapply limStep_trans; [exact Hf|]. now apply IH.
Qed.

Lemma ReadSlice_lim delim b t :
  let '(line, e, b', t') := ReadSlice delim b t in limStep b t b' t'.
Proof.
  unfold ReadSlice.
  destruct (ReadSlice_loop defaultBufSize delim b t) as [[[[line e] b'] t']|] eqn:E.
  - eapply ReadSlice_loop_lim; eauto.
  - apply limStep_refl.
Qed.

Lemma bufio_ReadLine_lim b t :
  let '(line, more, e, b', t') := bufio_ReadLine b t in limStep b t b' t'.
Proof.
  unfold bufio_ReadLine. pose proof (ReadSlice_lim LF b t) as H.
  destruct (ReadSlice LF b t) as [[[line e] b1] t1].
  destruct e as [[]|].
  1-3,5: destruct line; exact H.
  destruct (endsWith line CR); [|exact H].
  apply (limStep_to_same_lim b t b1); [reflexivity|exact H].
Qed.

Lemma readLineSlice_loop_lim fuel acc b t line e b' t' :
  readLineSlice_loop fuel acc b t = Some (line, e, b', t') -> limStep b t b' t'.
Proof.
  revert acc b t. induction fuel as [|fuel IH]; intros acc b t H;
    [discriminate|].
  simpl in H. pose proof (bufio_ReadLine_lim b t) as Hl.
  destruct (bufio_ReadLine b t) as [[[[l more] e1] b1] t1].
  destruct e1; [injection H as <- <- <- <-; exact Hl|].
  destruct more.
  - eapply limStep_trans; [exact Hl|]. eapply IH; eauto.
  - injection H as <- <- <- <-. exact Hl.
Qed.

Lemma textproto_ReadLine_lim b t :
  let '(line, e, b', t') := textproto_ReadLine b t in limStep b t b' t'.
Proof.
  unfold textproto_ReadLine.
  destruct (readLineSlice_loop (io_fuel b t) [] b t)
    as [[[[line e] b'] t']|] eqn:E.
  - eapply readLineSlice_loop_lim; eauto.
  - apply limStep_refl.
Qed.

Lemma ReadDotLines_loop_lim fuel v b t ls e b' t' :
  ReadDotLines_loop fuel v b t = Some (ls, e, b', t') -> limStep b t b' t'.
Proof.
  revert v b t. induction fuel as [|fuel IH]; intros v b t H;
    [discriminate|].
  simpl in H. pose proof (textproto_ReadLine_lim b t) as Hl.
  destruct (textproto_ReadLine b t) as [[[line e1] b1] t1].
  assert (Hrec : forall w,
             ReadDotLines_loop fuel w b1 t1 = Some (ls, e, b', t') ->
             limStep b t b' t').
  { intros w Hw. eapply limStep_trans; [exact Hl|]. eapply IH; eauto. }
  destruct e1; [injection H as <- <- <- <-; exact Hl|].
  destruct line as [|c rest]; [eauto|].
  destruct (Ascii.eqb c DOT); [|eauto].
  destruct rest; [injection H as <- <- <- <-; exact Hl|eauto].
Qed.

Lemma ReadDotLines_lim b t :
  let '(ls, e, b', t') := ReadDotLines b t in limStep b t b' t'.
Proof.
  unfold ReadDotLines.
  destruct (ReadDotLines_loop (io_fuel b t) [] b t)
    as [[[[ls e] b'] t']|] eqn:E.
  - eapply ReadDotLines_loop_lim; eauto.
  - apply limStep_refl.
Qed.

(** * More on the reads *)

(** The start of a read: deadline set, decoder [r] returned by tp, its
    input the input of [c]. *)
Ltac open_read now c :=
  let Es := fresh "Es" in
  destruct (connStream_deadline now c) as [Es Ho];
  destruct (tp_spec (SetReadDeadline now c))
    as (r & c1 & -> & Htp & Hconn & Hs & Hr & _);
  rewrite Es in Hs; rewrite Hconn.

Section ReadsMore.

Context {AuthUser : Type}.
Variable unicodeToUpper : gostring -> gostring.

Implicit Types (c : @Conn AuthUser).

Lemma connStream_after c r t : connStream (after_read c r t) = stream r t.
Proof. reflexivity. Qed.

Lemma ReadLine_lf now c pre post :
  decoderOK c ->
  connStream c = pre ++ LF :: post -> ~ In LF pre ->
  exists c',
    ReadLine now c = (stripCR pre, None, c') /\
    decoderOK c' /\ connStream c' = post.
Proof.
  intros Hok Hst Hl. unfold ReadLine.
  open_read now c.
  destruct (textproto_ReadLine_lf r (incoming (conn (SetReadDeadline now c)))
              pre post (Hr (Ho Hok))) as (r' & t' & -> & Hok' & Hst');
    auto; [congruence|].
  eexists. split; [reflexivity|]. unfold decoderOK, connStream. simpl. auto.
Qed.

(** X5.  A bare line feed ends a line as CRLF does: when the input of the
    connection starts with bytes free of line feeds followed by a line
    feed, ReadLine returns those bytes less one final carriage return, if
    there is one, whatever their number and however they are segmented;
    ReadSMTP splits the same line into verb and args. *)
Theorem ReadLine_bare_line_feed now c pre post :
  decoderOK c ->
  connStream c = pre ++ LF :: post -> ~ In LF pre ->
  (exists c',
      ReadLine now c = (stripCR pre, None, c') /\ connStream c' = post) /\
  (exists c',
      ReadSMTP unicodeToUpper now c
      = (ToUpper unicodeToUpper (beforeSpace (stripCR pre)),
         afterSpace (stripCR pre), None, c') /\
      connStream c' = post).
Proof.
  intros Hok Hst Hl. split.
  - destruct (ReadLine_lf now c pre post Hok Hst Hl) as (c' & ? & _ & ?). eauto.
  - unfold ReadSMTP. open_read now c.
    destruct (textproto_ReadLine_lf r (incoming (conn (SetReadDeadline now c)))
                pre post (Hr (Ho Hok))) as (r' & t' & -> & Hok' & Hst');
      auto; [congruence|].
    destruct (SplitN_verb_args (stripCR pre)) as [-> ->].
    eexists. split; [reflexivity|]. exact Hst'.
Qed.

(** What every read does to the input: taken from on success, used up on
    failure. *)
Lemma doRead_stream k c :
  decoderOK c ->
  let c' := snd (doRead unicodeToUpper k c) in
  decoderOK c' /\
  match snd (fst (doRead unicodeToUpper k c)) with
  | None => length (connStream c') < length (connStream c)
  | Some _ => connStream c' = []
  end.
Proof.
  intros Hok. destruct k as [now|now|now]; simpl;
    unfold ReadSMTP, ReadLine, ReadData; open_read now c;
    specialize (Hr (Ho Hok)).
  - destruct (textproto_ReadLine r _) as [[[line e] r1] t1] eqn:E.
    destruct e as [x|]; simpl.
    + destruct (textproto_ReadLine_err _ _ _ _ _ _ Hr E) as (_ & _ & ? & ?).
      auto.
    + destruct (textproto_ReadLine_spec _ _ _ _ _ _ Hr E) as (? & Hlt).
      rewrite Hs in Hlt. auto.
  - destruct (textproto_ReadLine r _) as [[[line e] r1] t1] eqn:E.
    destruct e as [x|]; simpl.
    + destruct (textproto_ReadLine_err _ _ _ _ _ _ Hr E) as (_ & _ & ? & ?).
      auto.
    + destruct (textproto_ReadLine_spec _ _ _ _ _ _ Hr E) as (? & Hlt).
      rewrite Hs in Hlt. auto.
  - destruct (ReadDotLines r _) as [[[ls e] r1] t1] eqn:E.
    destruct (ReadDotLines_spec _ _ _ _ _ _ Hr E) as (Hok1 & _).
    destruct e as [x|]; simpl.
    + split; auto. exact (ReadDotLines_err _ _ _ _ _ _ Hr E).
    + split; auto. pose proof (ReadDotLines_len _ _ _ _ _ Hr E) as Hlt.
      rewrite Hs in Hlt. exact Hlt.
Qed.

Lemma doRead_empty k c :
  decoderOK c -> connStream c = [] ->
  fst (doRead unicodeToUpper k c)
  = match k with
    | CallReadSMTP _ => ([[]; []], Some EOF)
    | CallReadLine _ => ([[]], Some EOF)
    | CallReadData _ => ([[]], Some ErrUnexpectedEOF)
    end.
Proof.
  intros Hok Hst. destruct k as [now|now|now]; simpl;
    unfold ReadSMTP, ReadLine, ReadData; open_read now c;
    specialize (Hr (Ho Hok)); rewrite Hst in Hs.
  - destruct (textproto_ReadLine_empty r _ Hr Hs) as (r' & t' & -> & _).
    reflexivity.
  - destruct (textproto_ReadLine_empty r _ Hr Hs) as (r' & t' & -> & _).
    reflexivity.
  - unfold ReadDotLines.
    destruct (ReadDotLines_loop_eof [] (io_fuel r (incoming (conn (SetReadDeadline now c))))
                [] r (incoming (conn (SetReadDeadline now c))))
      as (r' & t' & -> & _); auto.
    unfold io_fuel. simpl. lia.
Qed.

(** X6.  At the end of the input (nothing buffered, nothing more to come)
    ReadLine returns the empty string and io.EOF, ReadSMTP two empty
    strings and io.EOF, and ReadData the empty string and
    io.ErrUnexpectedEOF. *)
Theorem reads_at_end_of_input now c :
  decoderOK c -> connStream c = [] ->
  fst (ReadLine now c) = ([], Some EOF) /\
  fst (ReadSMTP unicodeToUpper now c) = ([], [], Some EOF) /\
  fst (ReadData now c) = ([], Some ErrUnexpectedEOF).
Proof.
  intros Hok Hst.
  pose proof (doRead_empty (CallReadLine now) c Hok Hst) as H1.
  pose proof (doRead_empty (CallReadSMTP now) c Hok Hst) as H2.
  pose proof (doRead_empty (CallReadData now) c Hok Hst) as H3.
  simpl in H1, H2, H3.
  destruct (ReadLine now c) as [[l1 e1] c1].
  destruct (ReadSMTP unicodeToUpper now c) as [[[v2 a2] e2] c2].
  destruct (ReadData now c) as [[d3 e3] c3].
  simpl in *. injection H1 as -> ->. injection H2 as -> -> ->.
  injection H3 as -> ->. auto.
Qed.


(** X8.  A last line that no line feed ends is returned all the same:
    when all that is left of the input is a non-empty run of bytes without
    a line feed, shorter than the buffer, ReadLine returns the run as it is
    (a final carriage return stays) and no error; the ReadLine after it
    returns io.EOF. *)
Theorem ReadLine_last_line now now' c l :
  decoderOK c ->
  connStream c = l -> l <> [] -> ~ In LF l ->
  length l < defaultBufSize ->
  fst (ReadLine now c) = (l, None) /\
  fst (ReadLine now' (snd (ReadLine now c))) = ([], Some EOF).
Proof.
  intros Hok Hst Hne Hl Hlen.
  assert (H : exists c', ReadLine now c = (l, None, c') /\
                         decoderOK c' /\ connStream c' = []).
  { unfold ReadLine. open_read now c.
    destruct (textproto_ReadLine_tail r (incoming (conn (SetReadDeadline now c)))
                l (Hr (Ho Hok))) as (r' & t' & -> & Hok' & Hst');
      auto; [congruence|].
    eexists. split; [reflexivity|]. unfold decoderOK, connStream. simpl. auto. }
  destruct H as (c' & -> & Hok' & Hst'). simpl. split; [reflexivity|].
  unfold ReadLine. open_read now' c'. specialize (Hr (Ho Hok')).
  rewrite Hst' in Hs.
  destruct (textproto_ReadLine_empty r _ Hr Hs) as (r' & t' & -> & _).
  reflexivity.
Qed.

(** X9.  A data block that the input ends before its dot line: ReadData
    returns io.ErrUnexpectedEOF together with the lines it has read,
    decoded and joined as in a complete block. *)
Theorem ReadData_cut_short now c ls :
  decoderOK c ->
  connStream c = lfLines ls ->
  Forall wireLine ls ->
  fst (ReadData now c)
  = (Join (map (fun l => undot (stripCR l)) ls) [LF], Some ErrUnexpectedEOF).
Proof.
  intros Hok Hst Hls. unfold ReadData. open_read now c.
  unfold ReadDotLines.
  destruct (ReadDotLines_loop_eof ls
              (io_fuel r (incoming (conn (SetReadDeadline now c)))) []
              r (incoming (conn (SetReadDeadline now c))))
    as (r' & t' & -> & _); auto.
  - unfold io_fuel. rewrite Hs, Hst. pose proof (lfLines_length ls). lia.
  - congruence.
Qed.

(** X10.  ReadData takes a bare line feed for a line end, in the lines and
    in the dot line alike: lines that each end in a line feed, with or
    without a carriage return before it, followed by a dot line of either
    kind, are returned without the carriage returns, one leading dot
    removed from each, and the input continues after the dot line. *)
Theorem ReadData_any_line_end now c ls term post :
  decoderOK c ->
  connStream c = lfLines ls ++ term ++ LF :: post ->
  Forall wireLine ls ->
  term = [DOT] \/ term = [DOT; CR] ->
  exists c',
    ReadData now c
    = (Join (map (fun l => undot (stripCR l)) ls) [LF], None, c') /\
    connStream c' = post.
Proof.
  intros Hok Hst Hls Hterm. unfold ReadData. open_read now c.
  unfold ReadDotLines.
  destruct (ReadDotLines_loop_lf ls
              (io_fuel r (incoming (conn (SetReadDeadline now c)))) []
              r (incoming (conn (SetReadDeadline now c))) term post)
    as (r' & t' & -> & _ & Hst'); auto.
  - unfold io_fuel. rewrite Hs, Hst, length_app.
    pose proof (lfLines_length ls). lia.
  - congruence.
  - destruct Hterm as [-> | ->]; [intros [H|[]]|intros [H|[H|[]]]]; discriminate.
  - destruct Hterm as [-> | ->]; reflexivity.
  - eexists. split; [reflexivity|]. exact Hst'.
Qed.

Lemma runReads_succeeded ks c :
  decoderOK c ->
  succeeded (fst (runReads unicodeToUpper ks c)) <= length (connStream c).
Proof.
  revert c. induction ks as [|k ks IH]; intros c Hok; simpl;
    [unfold succeeded; simpl; lia|].
  destruct (doRead_stream k c Hok) as [Hok' Hcase].
  destruct (doRead unicodeToUpper k c) as [[out e] c1]. simpl in *.
  specialize (IH c1 Hok').
  destruct (runReads unicodeToUpper ks c1) as [outs c2]. simpl in *.
  unfold succeeded in *. simpl.
  destruct e; simpl; [rewrite Hcase in IH; simpl in IH|]; lia.
Qed.

(** X15.  Every read that returns no error takes at least one byte from
    the input, so of any sequence of reads no more succeed than the input
    has bytes. *)
Theorem reads_take_bytes ks k c :
  decoderOK c ->
  (snd (fst (doRead unicodeToUpper k c)) = None ->
   length (connStream (snd (doRead unicodeToUpper k c))) < length (connStream c)) /\
  succeeded (fst (runReads unicodeToUpper ks c)) <= length (connStream c).
Proof.
  intros Hok. split; [|now apply runReads_succeeded].
  intros He. destruct (doRead_stream k c Hok) as [_ Hcase].
  now rewrite He in Hcase.
Qed.

End ReadsMore.

(** * Reads, transaction calls and the fields of the connection *)

Section ReadsState.

Context {AuthUser : Type}.
Variable unicodeToUpper : gostring -> gostring.

Implicit Types (c : @Conn AuthUser).

(** X14.  A read, whether it succeeds or fails, sets the read deadline to
    its clock reading plus ReadTimeout and leaves the transaction token,
    FromAddr, ToAddr, User, Errors, IsTLS, MaxSize and the timeouts as
    they were. *)
Theorem read_frame k c :
  let c' := snd (doRead unicodeToUpper k c) in
  readDeadline (conn c') = (readAt k + ReadTimeout c)%Z /\
  transaction c' = transaction c /\ FromAddr c' = FromAddr c /\
  ToAddr c' = ToAddr c /\ User c' = User c /\ Errors c' = Errors c /\
  IsTLS c' = IsTLS c /\ MaxSize c' = MaxSize c /\
  ReadTimeout c' = ReadTimeout c /\ WriteTimeout c' = WriteTimeout c.
Proof.
  destruct k as [now|now|now]; simpl; unfold ReadSMTP, ReadLine, ReadData, tp;
    simpl; destruct (textProto c) as [b|]; simpl.
  1,2: destruct (textproto_ReadLine _ _) as [[[line e] r1] t1];
    destruct e; simpl; repeat split.
  1,2: destruct (textproto_ReadLine _ _) as [[[line e] r1] t1];
    simpl; repeat split.
  1,2: destruct (ReadDotLines _ _) as [[[ls e] r1] t1];
    simpl; repeat split.
Qed.

(** X13.  Reads and transaction calls do not interfere: a read returns the
    same strings and error after a StartTX, EndTX or Reset as before it,
    the transaction call returns the same error after the read as before
    it, and the two orders leave the same connection. *)
Theorem read_tx_commute j k c :
  fst (doRead unicodeToUpper k (snd (doTX j c)))
  = fst (doRead unicodeToUpper k c) /\
  fst (doTX j (snd (doRead unicodeToUpper k c))) = fst (doTX j c) /\
  snd (doRead unicodeToUpper k (snd (doTX j c)))
  = snd (doTX j (snd (doRead unicodeToUpper k c))).
Proof.
  destruct j as [now0 from| |]; destruct k as [now|now|now];
    unfold doRead, doTX, StartTX, EndTX, ReadSMTP, ReadLine, ReadData, tp;
    destruct (transaction c =? 0)%Z eqn:Etx;
    cbn -[SplitN ToUpper textproto_ReadLine ReadDotLines Z.eqb Join];
    destruct (textProto c) as [b|];
    cbn -[SplitN ToUpper textproto_ReadLine ReadDotLines Z.eqb Join];
    try (destruct (textproto_ReadLine _ _) as [[[line e] r1] t1]);
    try (destruct (ReadDotLines _ _) as [[[ls e] r1] t1]);
    try destruct e;
    cbn -[SplitN ToUpper textproto_ReadLine ReadDotLines Z.eqb Join];
    rewrite ?Etx;
    cbn -[SplitN ToUpper textproto_ReadLine ReadDotLines Z.eqb Join];
    repeat split.
Qed.

Lemma doRead_withMaxSize m k c :
  textProto c <> None ->
  fst (doRead unicodeToUpper k (withMaxSize m c))
  = fst (doRead unicodeToUpper k c) /\
  snd (doRead unicodeToUpper k (withMaxSize m c))
  = withMaxSize m (snd (doRead unicodeToUpper k c)).
Proof.
  intros Hb. destruct k as [now|now|now]; simpl;
    unfold ReadSMTP, ReadLine, ReadData, tp; simpl;
    destruct (textProto c) as [b|]; try congruence; simpl.
  - destruct (textproto_ReadLine _ _) as [[[line e] r1] t1].
    destruct e; simpl; split; reflexivity.
  - destruct (textproto_ReadLine _ _) as [[[line e] r1] t1].
    simpl; split; reflexivity.
  - destruct (ReadDotLines _ _) as [[[ls e] r1] t1].
    simpl; split; reflexivity.
Qed.

Lemma runReads_withMaxSize m ks c :
  textProto c <> None ->
  fst (runReads unicodeToUpper ks (withMaxSize m c))
  = fst (runReads unicodeToUpper ks c).
Proof.
  revert c. induction ks as [|k ks IH]; intros c Hb; simpl; [reflexivity|].
  destruct (doRead_withMaxSize m k c Hb) as [Hv Hs].
  destruct (doRead_built unicodeToUpper k c) as [Hb' _].
  destruct (doRead unicodeToUpper k (withMaxSize m c)) as [[out e] c1].
  destruct (doRead unicodeToUpper k c) as [[out' e'] c1'].
  simpl in *. injection Hv as -> ->. subst c1.
  specialize (IH c1' Hb').
  destruct (runReads unicodeToUpper ks (withMaxSize m c1')) as [outs c2].
  destruct (runReads unicodeToUpper ks c1') as [outs' c2'].
  simpl in *. now rewrite IH.
Qed.

(** X11.  MaxSize is read when the decoder is built and never again: on
    a connection that has its decoder, giving MaxSize any other value
    changes the result of no later read. *)
Theorem MaxSize_frozen m ks c :
  textProto c <> None ->
  fst (runReads unicodeToUpper ks (withMaxSize m c))
  = fst (runReads unicodeToUpper ks c).
Proof. apply runReads_withMaxSize. Qed.

Lemma doRead_noLimit m k c :
  textProto c = None -> (MaxSize c <= 0)%Z -> (m <= 0)%Z ->
  fst (doRead unicodeToUpper k (withMaxSize m c))
  = fst (doRead unicodeToUpper k c) /\
  snd (doRead unicodeToUpper k (withMaxSize m c))
  = withMaxSize m (snd (doRead unicodeToUpper k c)).
Proof.
  intros Hb Hc Hm.
  assert (E1 : (0 <? MaxSize c)%Z = false) by (apply Z.ltb_ge; lia).
  assert (E2 : (0 <? m)%Z = false) by (apply Z.ltb_ge; lia).
  destruct k as [now|now|now]; simpl;
    unfold ReadSMTP, ReadLine, ReadData, tp; simpl;
    rewrite Hb, E1, E2; simpl.
  - destruct (textproto_ReadLine _ _) as [[[line e] r1] t1].
    destruct e; simpl; split; reflexivity.
  - destruct (textproto_ReadLine _ _) as [[[line e] r1] t1].
    simpl; split; reflexivity.
  - destruct (ReadDotLines _ _) as [[[ls e] r1] t1].
    simpl; split; reflexivity.
Qed.

(** X24.  A MaxSize of zero or less is no limit: the decoder of such a
    connection sees everything the stream delivers, and any two such
    values give the same results for every sequence of reads. *)
Theorem MaxSize_not_positive m ks c :
  textProto c = None -> (MaxSize c <= 0)%Z -> (m <= 0)%Z ->
  connStream c = pending (incoming (conn c)) /\
  budget c = None /\
  fst (runReads unicodeToUpper ks (withMaxSize m c))
  = fst (runReads unicodeToUpper ks c).
Proof.
  intros Hb Hc Hm.
  assert (E1 : (0 <? MaxSize c)%Z = false) by (apply Z.ltb_ge; lia).
  split; [unfold connStream; now rewrite Hb, E1|].
  split; [unfold budget; now rewrite Hb, E1|].
  destruct ks as [|k ks]; simpl; [reflexivity|].
  destruct (doRead_noLimit m k c Hb Hc Hm) as [Hv Hs].
  destruct (doRead_built unicodeToUpper k c) as [Hb' _].
  destruct (doRead unicodeToUpper k (withMaxSize m c)) as [[out e] c1].
  destruct (doRead unicodeToUpper k c) as [[out' e'] c1'].
  simpl in *. injection Hv as -> ->. subst c1.
  pose proof (runReads_withMaxSize m ks c1' Hb') as IH.
  destruct (runReads unicodeToUpper ks (withMaxSize m c1')) as [outs c2].
  destruct (runReads unicodeToUpper ks c1') as [outs' c2'].
  simpl in *. now rewrite IH.
Qed.

Lemma doRead_budget k c n :
  budget c = Some n -> (0 <= n)%Z ->
  let c' := snd (doRead unicodeToUpper k c) in
  exists n',
    budget c' = Some n' /\ (0 <= n')%Z /\
    (Z.of_nat (length (pending (incoming (conn c))))
     - Z.of_nat (length (pending (incoming (conn c')))) = n - n')%Z.
Proof.
  intros Hb Hn. unfold budget in Hb.
  assert (Htp : exists b c1,
    tp (SetReadDeadline (readAt k) c) = (b, c1) /\ limN b = Some n /\
    incoming (conn c1) = incoming (conn c)).
  { unfold tp. simpl. destruct (textProto c) as [b|].
    - eexists _, _. split; [reflexivity|]. auto.
    - destruct (0 <? MaxSize c)%Z; [|discriminate].
      eexists _, _. split; [reflexivity|]. simpl. auto. }
  destruct Htp as (b & c1 & Etp & Hl & Hin).
  destruct k as [now|now|now]; simpl in *;
    unfold ReadSMTP, ReadLine, ReadData; rewrite Etp, Hin.
  - pose proof (textproto_ReadLine_lim b (incoming (conn c))) as Hstep.
    destruct (textproto_ReadLine b _) as [[[line e] r1] t1].
    unfold limStep in Hstep. rewrite Hl in Hstep.
    destruct e; simpl; exact (Hstep Hn).
  - pose proof (textproto_ReadLine_lim b (incoming (conn c))) as Hstep.
    destruct (textproto_ReadLine b _) as [[[line e] r1] t1].
    unfold limStep in Hstep. rewrite Hl in Hstep.
    simpl; exact (Hstep Hn).
  - pose proof (ReadDotLines_lim b (incoming (conn c))) as Hstep.
    destruct (ReadDotLines b _) as [[[ls e] r1] t1].
    unfold limStep in Hstep. rewrite Hl in Hstep.
    simpl; exact (Hstep Hn).
Qed.

Lemma doCall_budget k c n :
  budget c = Some n -> (0 <= n)%Z ->
  let c' := doCall unicodeToUpper k c in
  exists n',
    budget c' = Some n' /\ (0 <= n')%Z /\
    (Z.of_nat (length (pending (incoming (conn c))))
     - Z.of_nat (length (pending (incoming (conn c')))) = n - n')%Z.
Proof.
  intros Hb Hn. destruct k as [k|k]; simpl.
  - destruct (doTX_frame k c) as (F1 & _ & _ & F4 & _ & _ & F7 & _).
    exists n. unfold budget in *. rewrite F1, F4, F7. repeat split; auto. lia.
  - now apply doRead_budget.
Qed.

Lemma run_budget ks c n :
  budget c = Some n -> (0 <= n)%Z ->
  let c' := run unicodeToUpper ks c in
  exists n',
    budget c' = Some n' /\ (0 <= n')%Z /\
    (Z.of_nat (length (pending (incoming (conn c))))
     - Z.of_nat (length (pending (incoming (conn c')))) = n - n')%Z.
Proof.
  induction ks as [|k ks IH] using rev_ind; intros Hb Hn; simpl.
  - exists n. repeat split; auto. lia.
  - replace (run unicodeToUpper (ks ++ [k]) c)
      with (doCall unicodeToUpper k (run unicodeToUpper ks c))
      by (unfold run; now rewrite fold_left_app).
    destruct (IH Hb Hn) as (n1 & Hb1 & Hn1 & D1).
    destruct (doCall_budget k _ n1 Hb1 Hn1) as (n2 & Hb2 & Hn2 & D2).
    exists n2. repeat split; auto. lia.
Qed.

(** X12.  Under a limit the decoder never takes more than MaxSize bytes
    from the connection: on a connection whose MaxSize is positive when
    its decoder is built, after any reads and transaction calls the bytes
    gone from the stream number at most MaxSize, buffered ones included. *)
Theorem limit_never_overread ks c :
  (0 < MaxSize c)%Z ->
  textProto c = None ->
  let c' := run unicodeToUpper ks c in
  (Z.of_nat (length (pending (incoming (conn c))))
   - Z.of_nat (length (pending (incoming (conn c')))) <= MaxSize c)%Z.
Proof.
  intros Hpos Hnone c'.
  destruct (run_budget ks c (MaxSize c)) as (n' & _ & Hn' & D); [|lia|].
  - unfold budget. rewrite Hnone.
    now replace (0 <? MaxSize c)%Z with true by (symmetry; apply Z.ltb_lt; lia).
  - fold c' in D. lia.
Qed.

End ReadsState.

(** * Package strings, fmt *)

Lemma genSplit_nonempty s sep n : genSplit s sep n <> [].
Proof.
  destruct n; simpl; [discriminate|]. destruct (IndexByte s sep); discriminate.
Qed.

Lemma Join_cons a rest sep :
  rest <> [] -> Join (a :: rest) sep = a ++ sep ++ Join rest sep.
Proof. destruct rest; [congruence|reflexivity]. Qed.

Lemma split_at_index s sep m :
  IndexByte s sep = Some m ->
  s = firstn m s ++ sep :: skipn (S m) s /\ ~ In sep (firstn m s).
Proof.
  intros H. destruct (IndexByte_Some _ _ _ H) as (x & y & -> & Hx & <-).
  rewrite firstn_app, Nat.sub_diag, firstn_all, skipn_app.
  rewrite skipn_all2 by lia.
  replace (S (length x) - length x) with 1 by lia.
  simpl. rewrite app_nil_r. auto.
Qed.

Lemma genSplit_spec s sep n :
  Join (genSplit s sep n) [sep] = s /\
  length (genSplit s sep n) <= S n /\
  Forall (fun p => ~ In sep p) (removelast (genSplit s sep n)).
Proof.
  revert s. induction n as [|n IH]; intros s; cbn [genSplit].
  - simpl. repeat split; auto.
  - destruct (IndexByte s sep) as [m|] eqn:E.
    + destruct (split_at_index _ _ _ E) as [Hs Hx].
      destruct (IH (skipn (S m) s)) as (I1 & I2 & I3).
      pose proof (genSplit_nonempty (skipn (S m) s) sep n) as Hne.
      split; [|split].
      * rewrite Join_cons by exact Hne. rewrite I1. simpl. symmetry. exact Hs.
      * cbn [length]. lia.
      * destruct (genSplit (skipn (S m) s) sep n) eqn:G; [congruence|].
        constructor; auto.
    + simpl. repeat split; auto. lia.
Qed.

(** X16.  Nothing of a line is lost in the cut: for n > 0 the pieces
    SplitN returns, joined again by the separator, are the string; there
    are between one and n of them, and none but the last holds the
    separator, so with n = 2 the args of ReadSMTP keep every later space. *)
Theorem SplitN_Join s sep n :
  0 < n ->
  Join (SplitN s sep n) [sep] = s /\
  1 <= length (SplitN s sep n) <= n /\
  Forall (fun p => ~ In sep p) (removelast (SplitN s sep n)).
Proof.
  intros Hn. destruct n as [|n]; [lia|]. unfold SplitN.
  set (n' := if length s + 1 <? S n then length s + 1 else S n).
  assert (Hn' : 1 <= n' <= S n).
  { unfold n'. destruct (Nat.ltb_spec (length s + 1) (S n)); lia. }
  destruct (genSplit_spec s sep (n' - 1)) as (H1 & H2 & H3).
  pose proof (genSplit_nonempty s sep (n' - 1)) as Hne.
  split; [exact H1|]. split; [|exact H3].
  destruct (genSplit s sep (n' - 1)); [congruence|]. simpl in *. lia.
Qed.

Lemma upper_byte_spec c :
  nat_of_ascii c < 128 ->
  is_lower (upper_byte c) = false /\
  (nat_of_ascii (upper_byte c) <? 128) = true /\
  upper_byte (upper_byte c) = upper_byte c /\
  (is_lower c = false -> upper_byte c = c).
Proof.
  destruct c as [[] [] [] [] [] [] [] []]; vm_compute; intros H;
    repeat split; auto; try discriminate; lia.
Qed.

Section Upper.

Variable unicodeToUpper : gostring -> gostring.

(** X18.  On a string of ASCII bytes ToUpper keeps the length, returns
    ASCII bytes none of which is a lowercase letter, leaves a string
    without lowercase letters as it is, and applied twice does what it
    does applied once: the verb of ReadSMTP does not depend on the case
    the client typed it in. *)
Theorem ToUpper_ascii s :
  isASCII s = true ->
  let u := ToUpper unicodeToUpper s in
  length u = length s /\
  isASCII u = true /\
  Forall (fun c => is_lower c = false) u /\
  ToUpper unicodeToUpper u = u /\
  (Forall (fun c => is_lower c = false) s -> u = s).
Proof.
  intros Ha. unfold ToUpper. rewrite Ha.
  assert (H : isASCII (map upper_byte s) = true /\
              Forall (fun c => is_lower c = false) (map upper_byte s) /\
              map upper_byte (map upper_byte s) = map upper_byte s /\
              (Forall (fun c => is_lower c = false) s -> map upper_byte s = s)).
  { unfold isASCII in *. induction s as [|a s IH]; simpl in *.
    - repeat split; auto.
    - apply andb_prop in Ha as [Ha1 Ha2]. apply Nat.ltb_lt in Ha1.
      destruct (upper_byte_spec a Ha1) as (U1 & U2 & U3 & U4).
      destruct (IH Ha2) as (I1 & I2 & I3 & I4).
      rewrite U2, I1, U3, I3. repeat split; auto.
      intros Hs. apply Forall_cons_iff in Hs as [Hs1 Hs2].
      now rewrite U4, I4. }
  destruct H as (H1 & H2 & H3 & H4). cbv zeta. rewrite H1.
  split; [apply length_map|]. auto.
Qed.

End Upper.

(** ** Decimal integers *)

Lemma digitByte_spec u :
  (0 <= u < 10)%Z ->
  isDigit (digitByte u) = true /\
  (Z.of_nat (nat_of_ascii (digitByte u)) - 48 = u)%Z.
Proof.
  intros H. unfold digitByte, isDigit.
  rewrite nat_ascii_embedding by lia.
  split; [|lia].
  apply andb_true_intro. split; apply Nat.leb_le; lia.
Qed.

Lemma decValue_snoc ds d :
  decValue (ds ++ [d])
  = (10 * decValue ds + (Z.of_nat (nat_of_ascii d) - 48))%Z.
Proof. unfold decValue. now rewrite fold_left_app. Qed.

(** The digits of u, in front of [acc]: as many as u needs, no leading 0. *)
Lemma fmtDigits_spec fuel u acc :
  (0 <= u < 10 ^ Z.of_nat (S fuel))%Z ->
  exists ds k,
    fmtDigits fuel u acc = ds ++ acc /\
    Forall (fun c => isDigit c = true) ds /\
    decValue ds = u /\
    length ds = S k /\
    (u = 0 \/ 10 ^ Z.of_nat k <= u)%Z /\ (u < 10 ^ Z.of_nat (S k))%Z.
Proof.
  revert u acc. induction fuel as [|fuel IH]; intros u acc Hu.
  - change (10 ^ Z.of_nat 1)%Z with 10%Z in Hu.
    destruct (digitByte_spec u Hu) as [Hd Hv].
    exists [digitByte u], 0. simpl. repeat split; auto;
      try (unfold decValue; simpl; lia); lia.
  - simpl fmtDigits. destruct (Z.leb_spec 10 u) as [Hge|Hlt].
    + assert (Hq : (0 <= u / 10 < 10 ^ Z.of_nat (S fuel))%Z).
      { split; [apply Z.div_pos; lia|].
        apply Z.div_lt_upper_bound; [lia|].
        rewrite (Nat2Z.inj_succ (S fuel)), Z.pow_succ_r in Hu by lia. lia. }
      destruct (IH (u / 10)%Z (digitByte (u mod 10) :: acc) Hq)
        as (ds & k & E & Hds & Hv & Hlen & Hlo & Hhi).
      assert (Hm : (0 <= u mod 10 < 10)%Z) by (apply Z.mod_pos_bound; lia).
      destruct (digitByte_spec _ Hm) as [Hd Hdv].
      exists (ds ++ [digitByte (u mod 10)]), (S k).
      split; [rewrite E, <- app_assoc; reflexivity|].
      split; [apply Forall_app; split; auto|].
      split; [rewrite decValue_snoc, Hv, Hdv;
              pose proof (Z.div_mod u 10); lia|].
      split; [rewrite length_app; simpl; lia|].
      pose proof (Z.div_mod u 10 ltac:(lia)) as Hdm.
      rewrite (Nat2Z.inj_succ (S k)), (Nat2Z.inj_succ k), !Z.pow_succ_r by lia.
      rewrite (Nat2Z.inj_succ k), Z.pow_succ_r in Hhi by lia.
      split; [right|]; destruct Hlo as [H0|Hlo]; try lia.
    + assert (Hu' : (0 <= u < 10)%Z) by lia.
      destruct (digitByte_spec u Hu') as [Hd Hv].
      exists [digitByte u], 0. simpl. repeat split; auto;
        try (unfold decValue; simpl; lia); lia.
Qed.

(** X19.  The code of a reply is written in plain decimal: for every Go
    int the text fmt produces is a minus sign if the number is negative
    and then the digits of its absolute value, most significant first,
    with no leading zero; a code from 100 to 999 takes three bytes. *)
Theorem fmtInteger_decimal v :
  isInt v ->
  exists ds,
    fmtInteger v = (if (v <? 0)%Z then ["-"%char] else []) ++ ds /\
    Forall (fun c => isDigit c = true) ds /\
    decValue ds = Z.abs v /\
    (exists k, length ds = S k /\
               (v = 0 \/ 10 ^ Z.of_nat k <= Z.abs v)%Z /\
               (Z.abs v < 10 ^ Z.of_nat (S k))%Z) /\
    ((100 <= v <= 999)%Z -> length ds = 3).
Proof.
  intros [Hlo Hhi].
  assert (Hb : (0 <= Z.abs v < 10 ^ Z.of_nat 21)%Z).
  { split; [lia|]. apply Z.lt_le_trans with (2 ^ 63 + 1)%Z; [lia|].
    apply Z.leb_le. vm_compute. reflexivity. }
  destruct (fmtDigits_spec 20 (Z.abs v) [] Hb)
    as (ds & k & E & Hds & Hv & Hlen & Hk1 & Hk2).
  rewrite app_nil_r in E.
  exists ds. split; [|split; [exact Hds|split; [exact Hv|split]]].
  - unfold fmtInteger. destruct (Z.ltb_spec v 0).
    + replace (- v)%Z with (Z.abs v) by lia. now rewrite E.
    + replace v with (Z.abs v) at 1 by lia. now rewrite E.
  - exists k. repeat split; auto. destruct Hk1; [left|right]; lia.
  - intros Hc. rewrite Hlen. f_equal.
    replace (Z.abs v) with v in * by lia.
    destruct Hk1 as [H0|Hk1]; [lia|].
    destruct k as [|[|[|k]]]; auto; exfalso.
    + change (10 ^ Z.of_nat 1)%Z with 10%Z in Hk2. lia.
    + change (10 ^ Z.of_nat 2)%Z with 100%Z in Hk2. lia.
    + assert (10 ^ 3 <= 10 ^ Z.of_nat (S (S (S k))))%Z
        by (apply Z.pow_le_mono_r; lia).
      change (10 ^ 3)%Z with 1000%Z in *. lia.
Qed.

(** * Replies *)

Lemma codeByte_spec c :
  codeByte c = true ->
  c <> SP /\ c <> LF /\ is_lower c = false /\ (nat_of_ascii c <? 128) = true.
Proof.
  destruct c as [[] [] [] [] [] [] [] []]; vm_compute; intros H;
    repeat split; auto; discriminate.
Qed.

Lemma fmtInteger_bytes v :
  isInt v -> Forall (fun c => codeByte c = true) (fmtInteger v).
Proof.
  intros [Hlo Hhi].
  assert (Hb : (0 <= Z.abs v < 10 ^ Z.of_nat 21)%Z).
  { split; [lia|]. apply Z.lt_le_trans with (2 ^ 63 + 1)%Z; [lia|].
    apply Z.leb_le. vm_compute. reflexivity. }
  destruct (fmtDigits_spec 20 (Z.abs v) [] Hb) as (ds & k & E & Hds & _).
  rewrite app_nil_r in E.
  assert (Hc : Forall (fun c => codeByte c = true) ds).
  { eapply Forall_impl; [|exact Hds]. intros c Hc. unfold codeByte.
    now rewrite Hc. }
  unfold fmtInteger. destruct (Z.ltb_spec v 0).
  - replace (- v)%Z with (Z.abs v) by lia. rewrite E. constructor; auto.
  - replace v with (Z.abs v) at 1 by lia. now rewrite E.
Qed.

Lemma code_no_byte v c :
  isInt v -> codeByte c = false -> ~ In c (fmtInteger v).
Proof.
  intros Hv Hc HIn. pose proof (fmtInteger_bytes v Hv) as H.
  rewrite Forall_forall in H. specialize (H c HIn). congruence.
Qed.

Lemma code_upper l :
  Forall (fun c => codeByte c = true) l ->
  isASCII l = true /\ map upper_byte l = l.
Proof.
  unfold isASCII. induction 1 as [|a l Ha Hl IH]; simpl; auto.
  destruct (codeByte_spec a Ha) as (_ & _ & Hlow & Hasc).
  destruct IH as [-> ->]. rewrite Hasc. unfold upper_byte.
  now rewrite Hlow.
Qed.

Lemma space_split ds m :
  ~ In SP ds ->
  beforeSpace (ds ++ SP :: m) = ds /\ afterSpace (ds ++ SP :: m) = m.
Proof.
  induction ds as [|a ds IH]; intros H; simpl.
  - auto.
  - destruct (Ascii.eqb_spec a SP) as [->|Ha]; [exfalso; apply H; now left|].
    destruct IH as [-> ->]; auto. intros HIn. apply H. now right.
Qed.

Lemma replyLine_noLF r : plainReply r -> ~ In LF (replyLine r).
Proof.
  destruct r as [code m|m]; simpl.
  - intros [Hc Hm] HIn. apply in_app_or in HIn as [HIn|[HIn|HIn]].
    + revert HIn. now apply code_no_byte.
    + discriminate.
    + auto.
  - intros Hm HIn. simpl in HIn. intuition discriminate.
Qed.

Section Replies.

Context {AuthUser : Type}.
Variable unicodeToUpper : gostring -> gostring.

Implicit Types (c : @Conn AuthUser) (o : netOut).

Lemma doWrite_open now r c o :
  closed o = false ->
  doWrite now r c o
  = (None, {| sent := sent o ++ replyLine r ++ CRLF;
              writeDeadline := (now + WriteTimeout c)%Z;
              closed := false |}).
Proof.
  intros H. destruct r as [code m|m]; simpl;
    unfold WriteSMTP, WriteEHLO, conn_Write; simpl; rewrite H;
    simpl; now rewrite <- ?app_assoc.
Qed.

Lemma doWrite_closed now r c o :
  closed o = true ->
  doWrite now r c o
  = (Some ErrClosed, {| sent := sent o;
                        writeDeadline := (now + WriteTimeout c)%Z;
                        closed := true |}).
Proof.
  intros H. destruct r as [code m|m]; simpl;
    unfold WriteSMTP, WriteEHLO, conn_Write; simpl; rewrite H;
    unfold SetWriteDeadline; now rewrite H.
Qed.

Lemma writeAll_open now rs c o :
  closed o = false ->
  sent (writeAll now rs c o)
  = sent o ++ flat_map (fun r => replyLine r ++ CRLF) rs /\
  closed (writeAll now rs c o) = false.
Proof.
  revert o. induction rs as [|r rs IH]; intros o H; simpl.
  - now rewrite app_nil_r.
  - rewrite (doWrite_open now r c o H). simpl.
    destruct (IH {| sent := sent o ++ replyLine r ++ CRLF;
                    writeDeadline := (now + WriteTimeout c)%Z;
                    closed := false |} eq_refl) as [E1 E2].
    unfold writeAll in *. rewrite E1, E2. simpl.
    now rewrite <- !app_assoc.
Qed.

Lemma writeAll_closed now rs c o :
  closed o = true ->
  sent (writeAll now rs c o) = sent o /\ closed (writeAll now rs c o) = true.
Proof.
  revert o. induction rs as [|r rs IH]; intros o H; simpl; auto.
  rewrite (doWrite_closed now r c o H). simpl.
  destruct (IH {| sent := sent o;
                  writeDeadline := (now + WriteTimeout c)%Z;
                  closed := true |} eq_refl) as [E1 E2].
  unfold writeAll in *. now rewrite E1, E2.
Qed.

(** X22.  Replies go out back to back and in order: on an open connection
    any sequence of WriteSMTP and WriteEHLO calls appends to the bytes
    sent the line of each reply followed by CRLF, every call returning no
    error and setting the write deadline to its clock reading plus
    WriteTimeout; WriteOK appends "250 OK" and CRLF; on a closed
    connection every call returns an error and nothing is sent, while the
    deadline is set all the same. *)
Theorem writes_in_order now rs r c o :
  (closed o = false ->
   sent (writeAll now rs c o)
   = sent o ++ flat_map (fun r => replyLine r ++ CRLF) rs /\
   fst (doWrite now r c (writeAll now rs c o)) = None /\
   WriteOK now c o
   = (None, {| sent := sent o ++ str "250 OK" ++ CRLF;
               writeDeadline := (now + WriteTimeout c)%Z;
               closed := false |})) /\
  (closed o = true ->
   sent (writeAll now rs c o) = sent o /\
   fst (doWrite now r c (writeAll now rs c o)) = Some ErrClosed /\
   fst (WriteOK now c o) = Some ErrClosed) /\
  writeDeadline (snd (doWrite now r c o)) = (now + WriteTimeout c)%Z.
Proof.
  split; [|split].
  - intros H. destruct (writeAll_open now rs c o H) as [E1 E2].
    split; [exact E1|]. split; [now rewrite (doWrite_open now r c _ E2)|].
    exact (doWrite_open now (Reply 250 (str "OK")) c o H).
  - intros H. destruct (writeAll_closed now rs c o H) as [E1 E2].
    split; [exact E1|]. split; [now rewrite (doWrite_closed now r c _ E2)|].
    change (WriteOK now c o) with (doWrite now (Reply 250 (str "OK")) c o).
    now rewrite (doWrite_closed now _ c o H).
  - destruct (closed o) eqn:H.
    + now rewrite (doWrite_closed now r c o H).
    + now rewrite (doWrite_open now r c o H).
Qed.

(** X20.  What WriteSMTP writes, ReadSMTP reads back: for a code that is
    a Go int and a message without a line feed, a connection whose input
    is the bytes one WriteSMTP sent returns the decimal code as the verb
    and the message, unchanged, as the args. *)
Theorem WriteSMTP_read_back now now' code message c o (peer : @Conn AuthUser) :
  isInt code -> ~ In LF message ->
  closed o = false -> sent o = [] ->
  decoderOK peer ->
  connStream peer = sent (snd (WriteSMTP now code message c o)) ->
  fst (WriteSMTP now code message c o) = None /\
  exists peer',
    ReadSMTP unicodeToUpper now' peer = (fmtInteger code, message, None, peer') /\
    connStream peer' = [].
Proof.
  intros Hc Hm Ho Hs Hok Hst.
  pose proof (doWrite_open now (Reply code message) c o Ho) as E.
  simpl in E. rewrite E in *. simpl in Hst. rewrite Hs in Hst. simpl in Hst.
  split; [reflexivity|].
  destruct (ReadSMTP_crlf unicodeToUpper now' peer
              (fmtInteger code ++ SP :: message) [] Hok) as (p' & Er & _ & Hp).
  - rewrite Hst. reflexivity.
  - exact (replyLine_noLF (Reply code message) (conj Hc Hm)).
  - exists p'. split; [|exact Hp]. rewrite Er.
    pose proof (fmtInteger_bytes code Hc) as Hb.
    destruct (space_split (fmtInteger code) message) as [-> ->].
    { apply code_no_byte; auto. }
    unfold ToUpper. now destruct (code_upper _ Hb) as [-> ->].
Qed.

(** X21.  WriteSMTP does not escape line ends: a message that holds a
    CRLF goes out as two lines, so the reader at the other end gets the
    code with the part before the CRLF as one line and the rest of the
    message as the next. *)
Theorem WriteSMTP_no_escape now now1 now2 code m1 m2 c o (peer : @Conn AuthUser) :
  isInt code -> ~ In LF m1 -> ~ In LF m2 ->
  closed o = false -> sent o = [] ->
  decoderOK peer ->
  connStream peer = sent (snd (WriteSMTP now code (m1 ++ CRLF ++ m2) c o)) ->
  fst (ReadLine now1 peer) = (fmtInteger code ++ SP :: m1, None) /\
  fst (ReadLine now2 (snd (ReadLine now1 peer))) = (m2, None).
Proof.
  intros Hc H1 H2 Ho Hs Hok Hst.
  pose proof (doWrite_open now (Reply code (m1 ++ CRLF ++ m2)) c o Ho) as E.
  change (doWrite now (Reply code (m1 ++ CRLF ++ m2)) c o)
    with (WriteSMTP now code (m1 ++ CRLF ++ m2) c o) in E.
  rewrite E in Hst. simpl in Hst. rewrite Hs in Hst. simpl in Hst.
  destruct (ReadLine_crlf now1 peer (fmtInteger code ++ SP :: m1)
              (m2 ++ CRLF) Hok) as (p1 & E1 & Hok1 & Hst1).
  - rewrite Hst. rewrite <- !app_assoc. simpl. rewrite <- !app_assoc. reflexivity.
  - exact (replyLine_noLF (Reply code m1) (conj Hc H1)).
  - rewrite E1. simpl. split; [reflexivity|].
    destruct (ReadLine_crlf now2 p1 m2 [] Hok1 Hst1 H2) as (p2 & -> & _).
    reflexivity.
Qed.

Lemma runReads_lines now ls post c :
  decoderOK c ->
  connStream c = flat_map (fun l => l ++ CRLF) ls ++ post ->
  Forall (fun l => ~ In LF l) ls ->
  fst (runReads unicodeToUpper (map (fun _ => CallReadLine now) ls) c)
  = map (fun l => ([l], None)) ls.
Proof.
  revert c. induction ls as [|l ls IH]; intros c Hok Hst Hls; simpl;
    [reflexivity|].
  apply Forall_cons_iff in Hls as [Hl Hls].
  destruct (ReadLine_crlf now c l (flat_map (fun l => l ++ CRLF) ls ++ post) Hok)
    as (c1 & -> & Hok1 & Hst1); auto.
  { rewrite Hst. simpl. now rewrite <- !app_assoc. }
  specialize (IH c1 Hok1 Hst1 Hls).
  destruct (runReads _ _ c1) as [outs c2]. simpl in *. now rewrite IH.
Qed.

(** X17.  ReadLine called n times returns the next n lines in order: when
    the input starts with n lines ended by CRLF, the calls return them one
    by one, none with an error, however the bytes are segmented. *)
Theorem ReadLine_lines_in_order now ls post c :
  decoderOK c ->
  connStream c = flat_map (fun l => l ++ CRLF) ls ++ post ->
  Forall (fun l => ~ In LF l) ls ->
  fst (runReads unicodeToUpper (map (fun _ => CallReadLine now) ls) c)
  = map (fun l => ([l], None)) ls.
Proof. apply runReads_lines. Qed.

(** X23.  A reply of several lines arrives as written: after any
    WriteEHLO and WriteSMTP calls with integer codes and messages free of
    line feeds, on an open connection that had sent nothing, a reader of
    the bytes sent gets by as many ReadLine calls the line of each reply,
    in order: "250-" and the message, or the decimal code, a space and
    the message. *)
Theorem replies_read_back now now' rs c o (peer : @Conn AuthUser) :
  Forall plainReply rs ->
  closed o = false -> sent o = [] ->
  decoderOK peer ->
  connStream peer = sent (writeAll now rs c o) ->
  fst (runReads unicodeToUpper (map (fun _ => CallReadLine now') rs) peer)
  = map (fun r => ([replyLine r], None)) rs.
Proof.
  intros Hrs Ho Hs Hok Hst.
  destruct (writeAll_open now rs c o Ho) as [E _].
  rewrite E, Hs in Hst. simpl in Hst.
  pose proof (runReads_lines now' (map replyLine rs) [] peer Hok) as H.
  rewrite !map_map in H. apply H.
  - rewrite Hst, app_nil_r. clear. induction rs as [|r rs IH]; simpl; auto.
    now rewrite IH.
  - apply Forall_map. eapply Forall_impl; [|exact Hrs].
    intros r. apply replyLine_noLF.
Qed.

End Replies.

(** * Instances *)

(** C1, the claim as stated fails: StartTX then EndTX leaves the token 0
    and FromAddr set. *)
Lemma EndTX_keeps_FromAddr :
  let c := runTX startEnd idleConn in
  transaction c = 0%Z /\ FromAddr c = Some anAddress /\
  ~ (transaction c = 0%Z <-> FromAddr c = None).
Proof.
  vm_compute. repeat split. intros [H _]. specialize (H eq_refl). discriminate.
Qed.

(** C1 (as amended) at StartTX then EndTX on a new connection. *)
Lemma transaction_zero_iff_idle_witness :
  Forall tokenNonZero startEnd /\ Forall fromGiven startEnd /\
  let c := runTX startEnd idleConn in
  (transaction c = 0%Z <-> txOpen startEnd = false) /\
  (FromAddr c = None -> transaction c = 0%Z).
Proof.
  assert (H1 : Forall tokenNonZero startEnd).
  { repeat constructor. vm_compute. discriminate. }
  assert (H2 : Forall fromGiven startEnd).
  { repeat constructor. simpl. discriminate. }
  split; [exact H1|]. split; [exact H2|].
  exact (transaction_zero_iff_idle (AuthUser:=unit) [] 0 0 0 startEnd H1 H2).
Defined.

(** C3 at StartTX then EndTX on a new connection. *)
Lemma EndTX_succeeds_iff_witness :
  Forall tokenNonZero startEnd /\
  (fst (EndTX (runTX startEnd idleConn)) = None <->
   exists p1 now from p2,
     startEnd = p1 ++ CallStartTX now from :: p2 /\
     fst (StartTX now from (runTX p1 idleConn)) = None /\
     Forall isStartTX p2).
Proof.
  assert (H1 : Forall tokenNonZero startEnd).
  { repeat constructor. vm_compute. discriminate. }
  split; [exact H1|].
  exact (EndTX_succeeds_iff (AuthUser:=unit) [] 0 0 0 startEnd H1).
Defined.

(** C4 at a connection with an open transaction. *)
Lemma StartTX_twice_witness :
  transaction openConn <> 0%Z /\
  StartTX 9 None openConn = (Some ErrTransaction, openConn).
Proof.
  assert (H : transaction openConn <> 0%Z) by (vm_compute; discriminate).
  split; [exact H|].
  exact (proj1 (StartTX_twice 9 None openConn H)).
Defined.

(** C5 at a connection with an open transaction. *)
Lemma EndTX_frame_witness :
  transaction openConn <> 0%Z /\
  fst (EndTX openConn) = None /\
  transaction (snd (EndTX openConn)) = 0%Z /\
  FromAddr (snd (EndTX openConn)) = FromAddr openConn.
Proof.
  assert (H : transaction openConn <> 0%Z) by (vm_compute; discriminate).
  split; [exact H|].
  destruct (EndTX_frame openConn H) as (H1 & H2 & H3 & _). auto.
Defined.

(** C10 at an open and an idle connection. *)
Lemma StartTX_EndTX_same_error_witness :
  transaction openConn <> 0%Z /\ transaction idleConn = 0%Z /\
  fst (StartTX 9 None openConn) = fst (EndTX idleConn).
Proof.
  assert (H1 : transaction openConn <> 0%Z) by (vm_compute; discriminate).
  assert (H2 : transaction idleConn = 0%Z) by reflexivity.
  split; [exact H1|]. split; [exact H2|].
  exact (proj2 (proj2 (StartTX_EndTX_same_error 9 None openConn idleConn H1 H2))).
Defined.

(** C7 at the first command of a stream that arrives in three segments. *)
Lemma ReadSMTP_verb_args_witness :
  decoderOK mailConn /\
  ~ In LF (str "MAIL FROM:<a@b.com>") /\
  exists c',
    ReadSMTP asciiOnly 0 mailConn = (str "MAIL", str "FROM:<a@b.com>", None, c') /\
    connStream c' = str "QUIT" ++ CRLF ++ dataBlock [str "Hello"; str "..Dots"].
Proof.
  assert (H1 : decoderOK mailConn) by exact I.
  assert (H2 : ~ In LF (str "MAIL FROM:<a@b.com>"))
    by (vm_compute; intuition discriminate).
  split; [exact H1|]. split; [exact H2|].
  exact (proj1 (ReadSMTP_verb_args asciiOnly) 0%Z mailConn
           (str "MAIL FROM:<a@b.com>")
           (str "QUIT" ++ CRLF ++ dataBlock [str "Hello"; str "..Dots"])
           H1 eq_refl H2).
Defined.

(** C8 at the data block of the same stream, after its two commands. *)
Lemma ReadData_dot_lines_witness :
  let c := snd (ReadLine 0 (snd (ReadLine 0 mailConn))) in
  decoderOK c /\
  Forall blockLine [str "Hello"; str "..Dots"] /\
  exists c',
    ReadData 0 c = (str "Hello" ++ [LF] ++ str ".Dots", None, c') /\
    connStream c' = [].
Proof.
  assert (H1 : decoderOK (snd (ReadLine 0 (snd (ReadLine 0 mailConn))))).
  { split; [reflexivity|]. apply Nat.leb_le. vm_compute. reflexivity. }
  assert (H2 : Forall blockLine [str "Hello"; str "..Dots"]).
  { repeat constructor; vm_compute; intuition discriminate. }
  split; [exact H1|]. split; [exact H2|].
  exact (proj1 ReadData_dot_lines 0%Z _ [str "Hello"; str "..Dots"] []
           H1 eq_refl H2).
Defined.

(** C9 at the two commands of the same stream. *)
Lemma decoder_built_once_witness :
  decoderOK mailConn /\
  exists c1 c2,
    ReadLine 1 mailConn = (str "MAIL FROM:<a@b.com>", None, c1) /\
    connStream c1 = str "QUIT" ++ CRLF ++ dataBlock [str "Hello"; str "..Dots"] /\
    ReadLine 2 c1 = (str "QUIT", None, c2) /\
    connStream c2 = dataBlock [str "Hello"; str "..Dots"].
Proof.
  assert (H1 : decoderOK mailConn) by exact I.
  split; [exact H1|].
  refine (proj1 (proj2 (proj2 (proj2 (decoder_built_once asciiOnly))))
            1%Z 2%Z mailConn (str "MAIL FROM:<a@b.com>") (str "QUIT")
            (dataBlock [str "Hello"; str "..Dots"]) H1 eq_refl _ _);
    vm_compute; intuition discriminate.
Defined.

(** C2, the claim as stated fails: under a limit of 10 bytes the read of a
    line of 18 returns the first 10 bytes and no error, and the read after
    it fails with io.EOF. *)
Lemma MaxSize_cut_line_no_error :
  MaxSize cappedConn = 10%Z /\
  length (connStream (uncapped cappedConn)) = 18 /\
  fst (ReadLine 0 cappedConn) = (str "HELO examp", None) /\
  fst (ReadLine 0 (snd (ReadLine 0 cappedConn))) = ([], Some EOF).
Proof. vm_compute. repeat split. Qed.

(** C2 (as amended) at the limited connection. *)
Lemma MaxSize_reads_as_truncated_witness :
  (0 < MaxSize cappedConn)%Z /\ textProto cappedConn = None /\
  fst (runReads asciiOnly [CallReadLine 0; CallReadSMTP 0] cappedConn)
  = fst (runReads asciiOnly [CallReadLine 0; CallReadSMTP 0]
           (onStream (trunc 10 (incoming (conn cappedConn)))
                     (uncapped cappedConn))).
Proof.
  assert (H1 : (0 < MaxSize cappedConn)%Z) by reflexivity.
  assert (H2 : textProto cappedConn = None) by reflexivity.
  split; [exact H1|]. split; [exact H2|].
  exact (proj1 (MaxSize_reads_as_truncated asciiOnly
                  [CallReadLine 0; CallReadSMTP 0] cappedConn H1 H2)).
Defined.

(** * More instances *)

Lemma isInt_250 : isInt 250.
Proof. split; [apply Z.leb_le|apply Z.ltb_lt]; reflexivity. Qed.

Lemma noLF_QUIT : ~ In LF (str "QUIT").
Proof. vm_compute. intuition discriminate. Qed.

(** X2 at StartTX then EndTX on a new connection. *)
Lemma runTX_frame_witness :
  Forall notReset startEnd /\
  ToAddr (runTX startEnd idleConn) = ToAddr idleConn /\
  User (runTX startEnd idleConn) = User idleConn.
Proof.
  assert (H : Forall notReset startEnd) by (repeat constructor).
  split; [exact H|].
  exact (proj2 (proj2 (proj2 (proj2 (proj2 (proj2 (proj2
           (runTX_frame startEnd idleConn))))))) H).
Defined.

(** X3 at two StartTX calls on a new connection. *)
Lemma open_carries_its_start_witness :
  transaction (runTX twoStarts idleConn) <> 0%Z /\
  exists p1 now from p2,
    twoStarts = p1 ++ CallStartTX now from :: p2 /\
    transaction (runTX p1 idleConn) = 0%Z /\
    Forall isStartTX p2 /\
    transaction (runTX twoStarts idleConn) = int_of now /\
    FromAddr (runTX twoStarts idleConn) = from.
Proof.
  assert (H : transaction (runTX twoStarts idleConn) <> 0%Z)
    by (vm_compute; discriminate).
  split; [exact H|].
  exact (open_carries_its_start (AuthUser:=unit) [] 0 0 0 twoStarts H).
Defined.

(** X4 at StartTX then EndTX on a new connection. *)
Lemma endedTX_le_startedTX_witness :
  transaction idleConn = 0%Z /\
  endedTX startEnd idleConn <= startedTX startEnd idleConn.
Proof.
  assert (H : transaction idleConn = 0%Z) by reflexivity.
  split; [exact H|]. exact (endedTX_le_startedTX startEnd idleConn H).
Defined.

(** X5 at a command ended by a bare line feed. *)
Lemma ReadLine_bare_line_feed_witness :
  decoderOK lfConn /\ ~ In LF (str "QUIT") /\
  exists c', ReadLine 0 lfConn = (stripCR (str "QUIT"), None, c') /\
             connStream c' = [].
Proof.
  assert (H1 : decoderOK lfConn) by exact I.
  split; [exact H1|]. split; [exact noLF_QUIT|].
  exact (proj1 (ReadLine_bare_line_feed asciiOnly 0%Z lfConn (str "QUIT") []
                  H1 eq_refl noLF_QUIT)).
Defined.

(** X6 at a connection whose stream is empty. *)
Lemma reads_at_end_of_input_witness :
  decoderOK idleConn /\ connStream idleConn = [] /\
  fst (ReadLine 0 idleConn) = ([], Some EOF).
Proof.
  assert (H1 : decoderOK idleConn) by exact I.
  split; [exact H1|]. split; [reflexivity|].
  exact (proj1 (reads_at_end_of_input asciiOnly 0%Z idleConn H1 eq_refl)).
Defined.


(** X8 at a command with no line end. *)
Lemma ReadLine_last_line_witness :
  decoderOK tailConn /\ str "QUIT" <> [] /\ ~ In LF (str "QUIT") /\
  length (str "QUIT") < defaultBufSize /\
  fst (ReadLine 0 tailConn) = (str "QUIT", None) /\
  fst (ReadLine 1 (snd (ReadLine 0 tailConn))) = ([], Some EOF).
Proof.
  assert (H1 : decoderOK tailConn) by exact I.
  assert (H2 : str "QUIT" <> []) by discriminate.
  assert (H3 : length (str "QUIT") < defaultBufSize)
    by (apply Nat.ltb_lt; vm_compute; reflexivity).
  split; [exact H1|]. split; [exact H2|]. split; [exact noLF_QUIT|].
  split; [exact H3|].
  exact (ReadLine_last_line 0 1 tailConn (str "QUIT") H1 eq_refl H2 noLF_QUIT H3).
Defined.

(** X9 at a block of one line and no dot line. *)
Lemma ReadData_cut_short_witness :
  decoderOK lfConn /\ Forall wireLine [str "QUIT"] /\
  fst (ReadData 0 lfConn) = (str "QUIT", Some ErrUnexpectedEOF).
Proof.
  assert (H1 : decoderOK lfConn) by exact I.
  assert (H2 : Forall wireLine [str "QUIT"]).
  { repeat constructor; [exact noLF_QUIT|vm_compute; discriminate]. }
  split; [exact H1|]. split; [exact H2|].
  exact (ReadData_cut_short 0 lfConn [str "QUIT"] H1 eq_refl H2).
Defined.

(** X10 at a block whose lines end in bare line feeds. *)
Lemma ReadData_any_line_end_witness :
  decoderOK lfDataConn /\ Forall wireLine [str "Hello"] /\
  exists c', ReadData 0 lfDataConn = (str "Hello", None, c') /\
             connStream c' = [].
Proof.
  assert (H1 : decoderOK lfDataConn) by exact I.
  assert (H2 : Forall wireLine [str "Hello"]).
  { repeat constructor; vm_compute; intuition discriminate. }
  split; [exact H1|]. split; [exact H2|].
  exact (ReadData_any_line_end 0 lfDataConn [str "Hello"] [DOT] []
           H1 eq_refl H2 (or_introl eq_refl)).
Defined.

(** X11 at the connection of the examples after its first read. *)
Lemma MaxSize_frozen_witness :
  textProto (snd (ReadLine 0 mailConn)) <> None /\
  fst (runReads asciiOnly [CallReadLine 1]
         (withMaxSize 5 (snd (ReadLine 0 mailConn))))
  = fst (runReads asciiOnly [CallReadLine 1] (snd (ReadLine 0 mailConn))).
Proof.
  assert (H : textProto (snd (ReadLine 0 mailConn)) <> None)
    by (vm_compute; discriminate).
  split; [exact H|].
  exact (MaxSize_frozen asciiOnly 5 [CallReadLine 1] _ H).
Defined.

(** X12 at the limited connection. *)
Lemma limit_never_overread_witness :
  (0 < MaxSize cappedConn)%Z /\ textProto cappedConn = None /\
  (Z.of_nat (length (pending (incoming (conn cappedConn))))
   - Z.of_nat (length (pending (incoming (conn
        (run asciiOnly [RD (CallReadLine 0); RD (CallReadLine 1)] cappedConn)))))
   <= MaxSize cappedConn)%Z.
Proof.
  assert (H1 : (0 < MaxSize cappedConn)%Z) by reflexivity.
  assert (H2 : textProto cappedConn = None) by reflexivity.
  split; [exact H1|]. split; [exact H2|].
  exact (limit_never_overread asciiOnly
           [RD (CallReadLine 0); RD (CallReadLine 1)] cappedConn H1 H2).
Defined.

(** X15 at the connection of the examples. *)
Lemma reads_take_bytes_witness :
  decoderOK mailConn /\
  succeeded (fst (runReads asciiOnly [CallReadSMTP 0; CallReadSMTP 1] mailConn))
  <= length (connStream mailConn).
Proof.
  assert (H1 : decoderOK mailConn) by exact I.
  split; [exact H1|].
  exact (proj2 (reads_take_bytes asciiOnly [CallReadSMTP 0; CallReadSMTP 1]
                  (CallReadLine 0) mailConn H1)).
Defined.

(** X16 at a command with two spaces, cut once. *)
Lemma SplitN_Join_witness :
  0 < 2 /\ Join (SplitN (str "RCPT TO:<a@b.com> X") SP 2) [SP]
           = str "RCPT TO:<a@b.com> X".
Proof.
  assert (H : 0 < 2) by lia.
  split; [exact H|].
  exact (proj1 (SplitN_Join (str "RCPT TO:<a@b.com> X") SP 2 H)).
Defined.

(** X17 at the two commands of the connection of the examples. *)
Lemma ReadLine_lines_in_order_witness :
  decoderOK mailConn /\
  Forall (fun l => ~ In LF l) [str "MAIL FROM:<a@b.com>"; str "QUIT"] /\
  fst (runReads asciiOnly [CallReadLine 0; CallReadLine 0] mailConn)
  = [([str "MAIL FROM:<a@b.com>"], None); ([str "QUIT"], None)].
Proof.
  assert (H1 : decoderOK mailConn) by exact I.
  assert (H2 : Forall (fun l => ~ In LF l) [str "MAIL FROM:<a@b.com>"; str "QUIT"]).
  { repeat constructor; vm_compute; intuition discriminate. }
  split; [exact H1|]. split; [exact H2|].
  exact (ReadLine_lines_in_order asciiOnly 0
           [str "MAIL FROM:<a@b.com>"; str "QUIT"]
           (dataBlock [str "Hello"; str "..Dots"]) mailConn H1 eq_refl H2).
Defined.

(** X18 at a lowercase verb. *)
Lemma ToUpper_ascii_witness :
  isASCII (str "mail") = true /\
  length (ToUpper asciiOnly (str "mail")) = length (str "mail").
Proof.
  assert (H : isASCII (str "mail") = true) by reflexivity.
  split; [exact H|].
  exact (proj1 (ToUpper_ascii asciiOnly (str "mail") H)).
Defined.

(** X19 at the code 250. *)
Lemma fmtInteger_decimal_witness :
  isInt 250 /\
  exists ds,
    fmtInteger 250 = (if (250 <? 0)%Z then ["-"%char] else []) ++ ds /\
    Forall (fun c => isDigit c = true) ds /\
    decValue ds = Z.abs 250 /\
    (exists k, length ds = S k /\
               (250 = 0 \/ 10 ^ Z.of_nat k <= Z.abs 250)%Z /\
               (Z.abs 250 < 10 ^ Z.of_nat (S k))%Z) /\
    ((100 <= 250 <= 999)%Z -> length ds = 3).
Proof.
  split; [exact isInt_250|]. exact (fmtInteger_decimal 250 isInt_250).
Defined.

(** X20 at the reply 250 OK. *)
Lemma WriteSMTP_read_back_witness :
  isInt 250 /\ ~ In LF (str "OK") /\
  closed openOut = false /\ sent openOut = [] /\ decoderOK okReader /\
  exists peer',
    ReadSMTP asciiOnly 1 okReader = (fmtInteger 250, str "OK", None, peer') /\
    connStream peer' = [].
Proof.
  assert (H2 : ~ In LF (str "OK")) by (vm_compute; intuition discriminate).
  assert (H5 : decoderOK okReader) by exact I.
  split; [exact isInt_250|]. split; [exact H2|].
  split; [reflexivity|]. split; [reflexivity|]. split; [exact H5|].
  exact (proj2 (WriteSMTP_read_back asciiOnly 0 1 250 (str "OK") idleConn
                  openOut okReader isInt_250 H2 eq_refl eq_refl H5 eq_refl)).
Defined.

(** X21 at a message that holds a CRLF. *)
Lemma WriteSMTP_no_escape_witness :
  isInt 250 /\ ~ In LF (str "a") /\ ~ In LF (str "b") /\
  closed openOut = false /\ sent openOut = [] /\ decoderOK splitReader /\
  fst (ReadLine 1 splitReader) = (fmtInteger 250 ++ SP :: str "a", None) /\
  fst (ReadLine 2 (snd (ReadLine 1 splitReader))) = (str "b", None).
Proof.
  assert (H2 : ~ In LF (str "a")) by (vm_compute; intuition discriminate).
  assert (H3 : ~ In LF (str "b")) by (vm_compute; intuition discriminate).
  assert (H6 : decoderOK splitReader) by exact I.
  split; [exact isInt_250|]. split; [exact H2|]. split; [exact H3|].
  split; [reflexivity|]. split; [reflexivity|]. split; [exact H6|].
  exact (WriteSMTP_no_escape 0 1 2 250 (str "a") (str "b") idleConn openOut
           splitReader isInt_250 H2 H3 eq_refl eq_refl H6 eq_refl).
Defined.

(** X22 at an open write side. *)
Lemma writes_in_order_witness :
  closed openOut = false /\
  sent (writeAll 0 ehloReplies idleConn openOut)
  = sent openOut ++ flat_map (fun r => replyLine r ++ CRLF) ehloReplies.
Proof.
  split; [reflexivity|].
  exact (proj1 (proj1 (writes_in_order 0 ehloReplies (Ehlo []) idleConn openOut)
                  eq_refl)).
Defined.

(** X23 at an EHLO line and a final reply. *)
Lemma replies_read_back_witness :
  Forall plainReply ehloReplies /\
  closed openOut = false /\ sent openOut = [] /\ decoderOK ehloReader /\
  fst (runReads asciiOnly (map (fun _ => CallReadLine 1) ehloReplies) ehloReader)
  = map (fun r => ([replyLine r], None)) ehloReplies.
Proof.
  assert (H1 : Forall plainReply ehloReplies).
  { repeat constructor; try exact isInt_250; vm_compute; intuition discriminate. }
  assert (H4 : decoderOK ehloReader) by exact I.
  split; [exact H1|]. split; [reflexivity|]. split; [reflexivity|].
  split; [exact H4|].
  exact (replies_read_back asciiOnly 0 1 ehloReplies idleConn openOut ehloReader
           H1 eq_refl eq_refl H4 eq_refl).
Defined.

(** X24 at a new connection without a limit. *)
Lemma MaxSize_not_positive_witness :
  textProto mailConn = None /\ (MaxSize mailConn <= 0)%Z /\ (-1 <= 0)%Z /\
  fst (runReads asciiOnly [CallReadLine 0] (withMaxSize (-1) mailConn))
  = fst (runReads asciiOnly [CallReadLine 0] mailConn).
Proof.
  assert (H2 : (MaxSize mailConn <= 0)%Z) by (simpl; lia).
  assert (H3 : (-1 <= 0)%Z) by lia.
  split; [reflexivity|]. split; [exact H2|]. split; [exact H3|].
  exact (proj2 (proj2 (MaxSize_not_positive asciiOnly (-1) [CallReadLine 0]
                         mailConn eq_refl H2 H3))).
Defined.
